(** * redis-whistle: the RESP codec, the command handlers and the keyspace engine

    A shallow embedding of [redis_protocol.go], of the command handlers and of
    the [Database] engine, with the properties of the specification stated
    and settled against it.

    Conventions of the embedding.
    - A Go [string] or [[]byte] is a [string] (a sequence of bytes).
    - A Go [int] is a [Z] kept in the 64-bit two's complement range by
      [wrap64] wherever the source does arithmetic on it.
    - A [time.Time] is a [Z]: the nanoseconds elapsed since the zero instant
      [time.Time{}].  The clock is an argument: an operation takes one
      reading, [now], for the first call it makes that reads the clock and a
      second one, [later], for the next call in sequence; the turns of a
      loop share one reading.
    - The goroutines, the mutex and the logger are left out: an operation
      runs alone, from its first statement to its return.
    - A Go map is a [gmap]; the server's slice of databases is a [list].
    - A run-time panic of the Go code (index or slice out of range) is an
      outcome of its own, [Panic], distinct from a returned [error].
    - A float64 is the whole number of units of 2^-1074 it holds; an
      operation on float64 rounds its exact result to the nearest float64,
      ties to the even significand.
    - Memory is left out: an allocation gives the buffer that is asked for. *)

From Stdlib Require Import ZArith String Ascii List Lia.
From Stdlib Require Import DecimalString DecimalZ DecimalPos.
From stdpp Require Import base option list gmap strings.

Local Open Scope Z_scope.
Set Warnings "-register-all".
Set Default Proof Using "Type".

(** ** Outcomes of fallible code *)

(** The run-time panics the modelled code can raise. *)
Inductive panic : Type :=
  | IndexOutOfRange          (* a[i] with i outside the slice *)
  | SliceBoundsOutOfRange    (* a[:n] with n outside the slice *)
  | MakesliceLenOutOfRange.  (* make([]byte, n) with n negative *)

(** The [error] values the codec returns. *)
Inductive error : Type :=
  | EOF
  | ErrUnexpectedEOF
  | ErrSyntax                       (* strconv.ErrSyntax *)
  | ErrRange                        (* strconv.ErrRange *)
  | InvalidTypeByte (b : ascii)     (* "invalid RESP data type byte: %s" *)
  | Wrapped (msg : string) (e : error).   (* fmt.Errorf("...: %w", e) *)

Inductive outcome (A : Type) : Type :=
  | Ok (a : A)
  | Err (e : error)
  | Panic (p : panic)
  | OutOfFuel.

Arguments Ok {A} a.
Arguments Err {A} e.
Arguments Panic {A} p.
Arguments OutOfFuel {A}.

Definition bind {A B} (m : outcome A) (k : A -> outcome B) : outcome B :=
  match m with
  | Ok a => k a
  | Err e => Err e
  | Panic p => Panic p
  | OutOfFuel => OutOfFuel
  end.

#[global] Instance outcome_bind : MBind outcome := fun A B k m => bind m k.
#[global] Instance outcome_ret : MRet outcome := fun A a => Ok a.
#[global] Instance outcome_fmap : FMap outcome :=
  fun A B f m => bind m (fun a => Ok (f a)).

(** errors.Is(err, io.EOF): [%w] wrapping is looked through. *)
Fixpoint isEOF (e : error) : bool :=
  match e with
  | EOF => true
  | Wrapped _ e' => isEOF e'
  | _ => false
  end.

(** ** Bytes and Go integers *)

Definition CR : ascii := "013"%char.
Definition LF : ascii := "010"%char.
Definition CRLF : string := String CR (String LF EmptyString).

(** len(s) *)
Definition len (s : string) : Z := Z.of_nat (String.length s).

(** The value of a 64-bit [int] after an arithmetic operation. *)
Definition wrap64 (z : Z) : Z := (z + 2 ^ 63) mod 2 ^ 64 - 2 ^ 63.

Definition inInt64 (z : Z) : bool := (- 2 ^ 63 <=? z) && (z <? 2 ^ 63).

(** strconv.Itoa: the shortest decimal text, with a leading '-' below zero. *)
Definition Itoa (i : Z) : string := NilZero.string_of_int (Z.to_int i).

Definition digitValue (c : ascii) : option Z :=
  let n := Z.of_nat (nat_of_ascii c) in
  if (48 <=? n) && (n <=? 57) then Some (n - 48) else None.

(** The largest uint64. *)
Definition maxUint64 : Z := 2 ^ 64 - 1.

(** The digit loop of strconv.ParseUint in base 10, which strconv.Atoi runs
    on the digits: a byte that is not a decimal digit is a syntax error, a
    number that leaves the uint64 range is a range error, whichever the loop
    meets first.
      if n >= cutoff { return maxVal, rangeError }      // cutoff = maxUint64/10 + 1
      n *= 10; n1 := n + d
      if n1 < n || n1 > maxVal { return maxVal, rangeError }
    (Atoi has a short cut of its own for texts of less than 19 bytes, which
    cannot leave the range: it gives what this loop gives.) *)
Fixpoint parseDigits (acc : Z) (s : string) : error + Z :=
  match s with
  | EmptyString => inr acc
  | String c r =>
      match digitValue c with
      | None => inl ErrSyntax
      | Some d =>
          if (maxUint64 / 10 + 1 <=? acc) || (maxUint64 <? 10 * acc + d)
          then inl ErrRange
          else parseDigits (10 * acc + d) r
      end
  end.

(** strconv.Atoi: an optional sign, then at least one decimal digit; the
    value has to fit a 64-bit int. *)
Definition Atoi (s : string) : error + Z :=
  let '(neg, body) :=
    match s with
    | String "+"%char r => (false, r)
    | String "-"%char r => (true, r)
    | _ => (false, s)
    end in
  match body with
  | EmptyString => inl ErrSyntax
  | _ =>
      match parseDigits 0 body with
      | inl e => inl e
      | inr n =>
          let v := if neg then - n else n in
          if inInt64 v then inr v else inl ErrRange
      end
  end.

(** ** redis_protocol.go: the decoder *)

(** A Type represents a Value type. *)
Definition SimpleString : ascii := "+"%char.
Definition BulkString : ascii := "$"%char.
Definition Array : ascii := "*"%char.

(** A Value represents the data of a valid RESP type. *)
Inductive Value : Type :=
  mkValue (typ : ascii) (bytes : string) (array : list Value).

Definition typ (v : Value) : ascii := let 'mkValue t _ _ := v in t.
Definition bytes (v : Value) : string := let 'mkValue _ b _ := v in b.
Definition array (v : Value) : list Value := let 'mkValue _ _ a := v in a.

(** Value.String *)
Definition Value_String (v : Value) : string :=
  if bool_decide (typ v = BulkString) || bool_decide (typ v = SimpleString)
  then bytes v else EmptyString.

(** Value.Array *)
Definition Value_Array (v : Value) : list Value :=
  if bool_decide (typ v = Array) then array v else [].

(** Value.StringArray *)
Definition Value_StringArray (v : Value) : list string :=
  map Value_String (Value_Array v).

(** The input is the sequence of bytes the buffered reader still has to
    deliver before end-of-stream; a read returns what it read and the rest. *)
Definition stream : Type := string.

(** bufio.Reader.ReadBytes(delim): the bytes up to and including the first
    [delim]; [None] when the stream ends before a [delim] (the source then
    drops what was read and returns the error). *)
Fixpoint ReadBytes (delim : ascii) (s : stream) : option (string * stream) :=
  match s with
  | EmptyString => None
  | String c r =>
      if bool_decide (c = delim) then Some (String c EmptyString, r)
      else match ReadBytes delim r with
           | Some (b, rest) => Some (String c b, rest)
           | None => None
           end
  end.

(** len(readBytes) >= 2 && readBytes[len(readBytes)-2] == '\r' *)
Definition crBeforeLast (readBytes : string) : bool :=
  let n := String.length readBytes in
  (2 <=? n)%nat &&
  match String.get (n - 2) readBytes with
  | Some c => bool_decide (c = CR)
  | None => false
  end.

(** The loop of readUntilCRLF.  Every turn takes at least one byte off the
    stream, so [fuel] turns are enough for a stream of [fuel] bytes; with no
    turn left the stream is empty and ReadBytes reports end-of-stream. *)
Fixpoint readUntilCRLF_loop (fuel : nat) (readBytes : string) (s : stream)
  : outcome (string * stream) :=
  match ReadBytes LF s with
  | None => Err EOF
  | Some (b, rest) =>
      let readBytes := (readBytes +:+ b)%string in
      if crBeforeLast readBytes
      then Ok (String.substring 0 (String.length readBytes - 2) readBytes, rest)
      else match fuel with
           | O => Err EOF
           | S fuel' => readUntilCRLF_loop fuel' readBytes rest
           end
  end.

(** readUntilCRLF reads bytes from a byte stream until it encounters a CRLF. *)
Definition readUntilCRLF (s : stream) : outcome (string * stream) :=
  readUntilCRLF_loop (String.length s) EmptyString s.

(** io.ReadFull(byteStream, buf) for a buffer of [n >= 0] bytes. *)
Definition ReadFull (n : Z) (s : stream) : outcome (string * stream) :=
  if n =? 0 then Ok (EmptyString, s)
  else if len s =? 0 then Err EOF
  else if len s <? n then Err ErrUnexpectedEOF
  else Ok (String.substring 0 (Z.to_nat n) s,
           String.substring (Z.to_nat n) (String.length s - Z.to_nat n) s).

(** decodeSimpleString parses a simple string. *)
Definition decodeSimpleString (s : stream) : outcome (Value * stream) :=
  '(readBytes, rest) ← readUntilCRLF s;
  Ok (mkValue SimpleString readBytes [], rest).

Definition wrapErr {A} (msg : string) (m : outcome A) : outcome A :=
  match m with
  | Err e => Err (Wrapped msg e)
  | _ => m
  end.

(** decodeBulkString parses a bulk string. *)
Definition decodeBulkString (s : stream) : outcome (Value * stream) :=
  '(readBytesForCount, rest) ←
     wrapErr "failed to read bulk string length" (readUntilCRLF s);
  match Atoi readBytesForCount with
  | inl e => Err (Wrapped "failed to parse bulk string length" e)
  | inr count =>
      (* readBytes := make([]byte, count+2): a negative size panics.  Memory
         is left out of the embedding: a buffer that is asked for is there.
         (make also panics for a size above the runtime's maxAlloc, 2^48
         bytes, and the process ends when the machine cannot provide the
         bytes; a property that depends on a buffer larger than the bytes
         in the stream assumes the size within maxAlloc.) *)
      let n := wrap64 (count + 2) in
      if n <? 0 then Panic MakesliceLenOutOfRange
      else
        '(readBytes, rest') ←
           wrapErr "failed to read bulk string contents" (ReadFull n rest);
        (* readBytes[:count] *)
        if (count <? 0) || (n <? count) then Panic SliceBoundsOutOfRange
        else Ok (mkValue BulkString
                   (String.substring 0 (Z.to_nat count) readBytes) [], rest')
  end.

(** The loop of decodeArray: [n] more elements to decode. *)
Fixpoint decodeArray_loop (decode : stream -> outcome (Value * stream))
    (n : nat) (array : list Value) (s : stream)
  : outcome (list Value * stream) :=
  match n with
  | O => Ok (array, s)
  | S n' =>
      '(value, rest) ← decode s;
      decodeArray_loop decode n' (array ++ [value]) rest
  end.

(** decodeArray parses an array; [decode] is DecodeRESP. *)
Definition decodeArray (decode : stream -> outcome (Value * stream))
    (s : stream) : outcome (Value * stream) :=
  '(readBytesForCount, rest) ←
     wrapErr "failed to read bulk string length" (readUntilCRLF s);
  match Atoi readBytesForCount with
  | inl e => Err (Wrapped "failed to parse bulk string length" e)
  | inr count =>
      '(array, rest') ← decodeArray_loop decode (Z.to_nat count) [] rest;
      Ok (mkValue Array EmptyString array, rest')
  end.

(** DecodeRESP parses a RESP message.  [fuel] bounds the nesting of arrays:
    an array's elements are decoded with one unit less. *)
Fixpoint DecodeRESP (fuel : nat) (s : stream) : outcome (Value * stream) :=
  match fuel with
  | O => OutOfFuel
  | S fuel' =>
      match s with
      | EmptyString => Err EOF
      | String dataTypeByte rest =>
          if bool_decide (dataTypeByte = SimpleString) then decodeSimpleString rest
          else if bool_decide (dataTypeByte = BulkString) then decodeBulkString rest
          else if bool_decide (dataTypeByte = Array)
               then decodeArray (DecodeRESP fuel') rest
          else Err (InvalidTypeByte dataTypeByte)
      end
  end.

(** ** redis_protocol.go: the reply encoders *)

(** returnError returns an RESP error string. *)
Definition returnError (s : string) : string := "-ERR " +:+ s +:+ CRLF.

(** returnSimpleString returns a RESP simple string. *)
Definition returnSimpleString (s : string) : string := "+" +:+ s +:+ CRLF.

(** returnNullBulkString returns a RESP null bulk string. *)
Definition returnNullBulkString : string := "$-1" +:+ CRLF.

(** returnBulkString returns a RESP bulk string. *)
Definition returnBulkString (s : string) : string :=
  "$" +:+ Itoa (len s) +:+ CRLF +:+ s +:+ CRLF.

(** returnInteger returns a RESP integer. *)
Definition returnInteger (i : Z) : string := ":" +:+ Itoa i +:+ CRLF.

(** returnArray returns a RESP array. *)
Definition returnArray (a : list string) : string :=
  fold_left
    (fun s v =>
       if bool_decide (v = EmptyString) then s +:+ returnNullBulkString
       else s +:+ returnBulkString v)
    a ("*" +:+ Itoa (Z.of_nat (length a)) +:+ CRLF).

(** ** The keyspace engine: [Database] *)

(** An instant: nanoseconds since [time.Time{}], the zero instant that
    GetExpire returns for a key with no expiry. *)
Definition Time : Type := Z.
Definition zeroTime : Time := 0.

(** time.Now().After(expire) *)
Definition After (now expire : Time) : bool := expire <? now.

(** time.Millisecond * time.Duration(milliseconds), a 64-bit product. *)
Definition Milliseconds (milliseconds : Z) : Z := wrap64 (1000000 * milliseconds).

(** time.Second * time.Duration(seconds), a 64-bit product. *)
Definition Seconds (seconds : Z) : Z := wrap64 (1000000000 * seconds).

(** *** float64, as far as Duration.Seconds needs it

    A finite float64 is a whole number of units of 2^-1074, the smallest
    positive float64, and is kept as that number, a [Z]: below 2^53 units
    every whole number of units is a float64, from 2^(52+k) to 2^(53+k)
    units the float64 values are the multiples of 2^k.  (The largest
    float64 is at 2^2098 units; the sums and quotients of 64-bit durations
    stay below 2^1110.) *)
Definition unit64 : Z := 2 ^ 1074.   (* 1.0 *)

(** The whole number nearest to n/d, the even one of two that are equally
    near ([d] is positive). *)
Definition roundEven (n d : Z) : Z :=
  let q := n / d in
  match 2 * (n mod d) ?= d with
  | Lt => q
  | Gt => q + 1
  | Eq => if Z.even q then q else q + 1
  end.

(** The float64 nearest to n/d units, ties to the even significand: the
    rounding of every float64 operation. *)
Definition round64 (n d : Z) : Z :=
  let k := Z.log2 (Z.abs n / d) - 52 in
  if k <=? 0 then roundEven n d else roundEven n (d * 2 ^ k) * 2 ^ k.

(** float64(i) *)
Definition float64_of_int (i : Z) : Z := round64 (i * unit64) 1.

(** x + y on float64 *)
Definition float64_add (x y : Z) : Z := round64 (x + y) 1.

(** x / y on float64, for a positive [y] *)
Definition float64_div (x y : Z) : Z := round64 (x * unit64) y.

(** int(x) for a float64 within the range of int: the fraction is dropped. *)
Definition int_of_float64 (x : Z) : Z := Z.quot x unit64.

(** Time.Sub: the difference [t - u] in nanoseconds, kept within the range
    of a Duration (the maximum or the minimum Duration past it). *)
Definition Time_Sub (t u : Time) : Z :=
  Z.max (- 2 ^ 63) (Z.min (2 ^ 63 - 1) (t - u)).

(** Duration.Seconds:
    sec := d / Second; nsec := d % Second; float64(sec) + float64(nsec)/1e9 *)
Definition Duration_Seconds (d : Z) : Z :=
  let sec := Z.quot d 1000000000 in
  let nsec := Z.rem d 1000000000 in
  float64_add (float64_of_int sec)
    (float64_div (float64_of_int nsec) (float64_of_int 1000000000)).

(** int(time.Until(expire).Seconds()) read at the instant [now]. *)
Definition secondsUntil (now expire : Time) : Z :=
  int_of_float64 (Duration_Seconds (Time_Sub expire now)).

(** A Database is a Redis database.  It contains two maps: StringKeys stores
    the string values, ExpireKeys the expiration times of the keys.  (The
    stop channel and the mutex belong to the goroutines, which the embedding
    leaves out: every operation runs alone.) *)
Record Database : Type := mkDatabase {
  dbid : Z;                          (* the field id *)
  StringKeys : gmap string string;
  ExpireKeys : gmap string Time;
}.

(** NewDatabase returns a new database. *)
Definition NewDatabase (i : Z) : Database := mkDatabase i ∅ ∅.

Definition withStringKeys (m : gmap string string) (db : Database) : Database :=
  mkDatabase (dbid db) m (ExpireKeys db).

Definition withExpireKeys (m : gmap string Time) (db : Database) : Database :=
  mkDatabase (dbid db) (StringKeys db) m.

(** Flush deletes all the keys in the database. *)
Definition Flush (db : Database) : Database := mkDatabase (dbid db) ∅ ∅.

(** checkAndRemoveExpiredKeys removes every key whose expiry has passed. *)
Definition checkAndRemoveExpiredKeys (now : Time) (db : Database) : Database :=
  let expired := filter (fun kv => After now kv.2 = true) (ExpireKeys db) in
  mkDatabase (dbid db)
    (filter (fun kv => expired !! kv.1 = None) (StringKeys db))
    (filter (fun kv => After now kv.2 = false) (ExpireKeys db)).

(** checkAndRemoveExpiredKey checks if a key has expired.  If a key has
    expired, it removes the key. *)
Definition checkAndRemoveExpiredKey (now : Time) (key : string) (db : Database)
  : bool * Database :=
  match ExpireKeys db !! key with
  | None => (false, db)
  | Some expire =>
      if After now expire
      then (true, mkDatabase (dbid db) (delete key (StringKeys db))
                    (delete key (ExpireKeys db)))
      else (false, db)
  end.

(** GetExpire: the zero instant when the key has no expiry. *)
Definition GetExpire (key : string) (db : Database) : Time :=
  match ExpireKeys db !! key with
  | None => zeroTime
  | Some expire => expire
  end.

(** Get returns the value of the given key.  If the key does not exist, it
    returns an empty string.  If the key has expired, it returns an empty
    string. *)
Definition Get (now : Time) (key : string) (db : Database) : string * Database :=
  match StringKeys db !! key with
  | None => (EmptyString, db)
  | Some storage =>
      let '(expired, db') := checkAndRemoveExpiredKey now key db in
      if expired then (EmptyString, db') else (storage, db')
  end.

(** Set sets the value of the given key.  ([Set] is a keyword of Rocq.) *)
Definition Set_ (key value : string) (db : Database) : Database :=
  withStringKeys (<[key := value]> (StringKeys db)) db.

(** Del deletes the given keys.  (The counter is bounded by len(keys): it
    does not wrap.) *)
Fixpoint Del_loop (now : Time) (keys : list string) (numberOfKeysDeleted : Z)
    (db : Database) : Z * Database :=
  match keys with
  | [] => (numberOfKeysDeleted, db)
  | key :: keys' =>
      let '(value, db1) := Get now key db in
      if bool_decide (value <> EmptyString)
      then Del_loop now keys' (numberOfKeysDeleted + 1)
             (withStringKeys (delete key (StringKeys db1)) db1)
      else Del_loop now keys' numberOfKeysDeleted db1
  end.

Definition Del (now : Time) (keys : list string) (db : Database) : Z * Database :=
  Del_loop now keys 0 db.

(** GetSet sets the value of the given key and returns the old value. *)
Definition GetSet (now later : Time) (key value : string) (db : Database)
  : string * Database :=
  let '(storage, db1) := Get now key db in
  if bool_decide (storage = EmptyString)
  then (EmptyString, withStringKeys (<[key := value]> (StringKeys db1)) db1)
  else
    let '(expired, db2) := checkAndRemoveExpiredKey later key db1 in
    if expired then (EmptyString, Set_ key value db2)
    else (storage, Set_ key value db2).

(** GetDel returns the value of the given key and deletes the key. *)
Definition GetDel (now later : Time) (key : string) (db : Database)
  : string * Database :=
  let '(storage, db1) := Get now key db in
  if bool_decide (storage = EmptyString) then (EmptyString, db1)
  else (storage, (Del later [key] db1).2).

(** Setpx sets the value of the given key with the given milliseconds. *)
Definition Setpx (now : Time) (key : string) (milliseconds : Z) (value : string)
    (db : Database) : Database :=
  let db1 := Set_ key value db in
  withExpireKeys (<[key := now + Milliseconds milliseconds]> (ExpireKeys db1)) db1.

(** MSet sets the values of the given keys: args[i] and args[i+1] for
    i = 0, 2, ...; a last key with no value is an index out of range. *)
Fixpoint MSet (args : list string) (db : Database) : outcome Database :=
  match args with
  | [] => Ok db
  | [_] => Panic IndexOutOfRange
  | key :: value :: args' => MSet args' (Set_ key value db)
  end.

(** The first loop of MSetNX: is one of args[0], args[2], ... present? *)
Fixpoint MSetNX_check (now : Time) (args : list string) (db : Database)
  : bool * Database :=
  match args with
  | [] => (false, db)
  | key :: rest =>
      let '(storage, db1) := Get now key db in
      if bool_decide (storage <> EmptyString) then (true, db1)
      else match rest with
           | [] => (false, db1)
           | _ :: args' => MSetNX_check now args' db1
           end
  end.

(** MSetNX sets the values of the given keys if the keys do not exist. *)
Definition MSetNX (now : Time) (args : list string) (db : Database)
  : outcome (bool * Database) :=
  let '(found, db1) := MSetNX_check now args db in
  if found then Ok (false, db1)
  else db2 ← MSet args db1; Ok (true, db2).

(** MGet returns the values of the given keys. *)
Fixpoint MGet (now : Time) (args : list string) (db : Database)
  : list string * Database :=
  match args with
  | [] => ([], db)
  | key :: args' =>
      let '(v, db1) := Get now key db in
      let '(vs, db2) := MGet now args' db1 in
      (v :: vs, db2)
  end.

(** The shared body of Incr, IncrBy, Decr and DecrBy: [fresh] is what a
    missing key is set to, [step] the change of a stored integer.  If the
    value of the key is not an integer, it returns 0. *)
Definition incrWith (fresh : Z) (step : Z -> Z) (now later : Time)
    (key : string) (db : Database) : Z * Database :=
  let '(storage, db1) := Get now key db in
  if bool_decide (storage = EmptyString)
  then (fresh, Set_ key (Itoa fresh) db1)
  else
    let '(expired, db2) := checkAndRemoveExpiredKey later key db1 in
    if expired then (0, db2)
    else match Atoi storage with
         | inl _ => (0, db2)
         | inr value =>
             let value := wrap64 (step value) in
             (value, Set_ key (Itoa value) db2)
         end.

(** Incr increments the value of the given key by 1. *)
Definition Incr := incrWith 1 (fun value => value + 1).

(** IncrBy increments the value of the given key by the given increment. *)
Definition IncrBy (now later : Time) (key : string) (increment : Z) :=
  incrWith increment (fun value => value + increment) now later key.

(** Decr decrements the value of the given key by 1. *)
Definition Decr := incrWith (-1) (fun value => value - 1).

(** DecrBy decrements the value of the given key by the given decrement. *)
Definition DecrBy (now later : Time) (key : string) (decrement : Z) :=
  incrWith (wrap64 (- decrement)) (fun value => value - decrement) now later key.

(** Expire sets the expire time of the given key. *)
Definition Expire (now later : Time) (key : string) (seconds : Z) (db : Database)
  : bool * Database :=
  let '(storage, db1) := Get now key db in
  if bool_decide (storage = EmptyString) then (false, db1)
  else (true, withExpireKeys (<[key := later + Seconds seconds]> (ExpireKeys db1)) db1).

(** TTL returns the remaining time to live of the given key.  If the key does
    not exist, it returns -2.  If the key exists but has no associated
    expire, it returns -1. *)
Definition TTL (now later : Time) (key : string) (db : Database) : Z * Database :=
  let '(storage, db1) := Get now key db in
  if bool_decide (storage = EmptyString) then (-2, db1)
  else
    let expire := GetExpire key db1 in
    if bool_decide (expire = zeroTime) then (-1, db1)
    else (secondsUntil later expire, db1).

(** Persist removes the expire time of the given key. *)
Definition Persist (now : Time) (key : string) (db : Database) : bool * Database :=
  let '(storage, db1) := Get now key db in
  if bool_decide (storage = EmptyString) then (false, db1)
  else
    let expire := GetExpire key db1 in
    if bool_decide (expire = zeroTime) then (false, db1)
    else (true, withExpireKeys (delete key (ExpireKeys db1)) db1).

(** Exists counts the given keys that exist. *)
Fixpoint Exists_loop (now : Time) (keys : list string) (numberOfKeysExisting : Z)
    (db : Database) : Z * Database :=
  match keys with
  | [] => (numberOfKeysExisting, db)
  | key :: keys' =>
      let '(storage, db1) := Get now key db in
      Exists_loop now keys'
        (if bool_decide (storage <> EmptyString)
         then numberOfKeysExisting + 1 else numberOfKeysExisting) db1
  end.

Definition Exists (now : Time) (keys : list string) (db : Database) : Z * Database :=
  Exists_loop now keys 0 db.

(** Keys returns all keys matching the given pattern.  [Match] is
    filepath.Match with its error dropped; Go ranges over a map in no fixed
    order, here the order is the one of [map_to_list]. *)
Definition Keys (Match : string -> string -> bool) (pattern : string)
    (db : Database) : list string :=
  filter (fun key => Match pattern key = true) (map_to_list (StringKeys db)).*1.

(** ** Snapshots: Save and Load *)

(** What a file holds.  encoding/gob writes the exported fields of a struct,
    here the two maps.  A damaged file is one that cannot be read to the end
    of its gob message (a failed read, a file cut short by a failed write):
    Decode returns an error and has stored nothing. *)
Inductive DiskFile : Type :=
  | GobImage (stringKeys : gmap string string) (expireKeys : gmap string Time)
  | Damaged.

(** The files by name; os.Open fails on a name that is not there. *)
Definition Disk : Type := gmap string DiskFile.

(** How the file system answers a Save. *)
Inductive SaveIO : Type :=
  | CreateFails     (* os.Create returns an error *)
  | EncodeFails     (* the file is created, encoder.Encode returns an error *)
  | SaveSucceeds.

(** "database_" + id + "_dump" + ".db" *)
Definition dumpName (db : Database) : string :=
  "database_" +:+ Itoa (dbid db) +:+ "_dump" +:+ ".db".

(** Save saves the database to a file. *)
Definition Save (io : SaveIO) (disk : Disk) (db : Database) : Disk * Database :=
  match io with
  | CreateFails => (disk, db)
  | EncodeFails => (<[dumpName db := Damaged]> disk, db)
  | SaveSucceeds =>
      (<[dumpName db := GobImage (StringKeys db) (ExpireKeys db)]> disk, db)
  end.

(** decoder.Decode(db) on an image.  gob decodes a map field into the map the
    struct already holds when that map is not nil (it allocates one only for
    a nil map) and stores each decoded entry with SetMapIndex: the entries
    of the image are written over the map in place. *)
Definition gobDecodeInto (stringKeys : gmap string string)
    (expireKeys : gmap string Time) (db : Database) : Database :=
  mkDatabase (dbid db) (stringKeys ∪ StringKeys db) (expireKeys ∪ ExpireKeys db).

(** Load loads the database from a file. *)
Definition Load (disk : Disk) (fileName : string) (db : Database) : Database :=
  let fileName :=
    if bool_decide (fileName = EmptyString) then dumpName db else fileName in
  match disk !! fileName with
  | None => db                                   (* os.Open: logged, return *)
  | Some Damaged => db                           (* Decode: logged, return *)
  | Some (GobImage stringKeys expireKeys) => gobDecodeInto stringKeys expireKeys db
  end.

(** ** The server and its command handlers *)

(** A RedisServer: the databases and the selected one.  The global [redis]
    of the source is passed along, with the files the handlers reach. *)
Record RedisServer : Type := mkServer {
  databases : list Database;
  selectedDB : Z;
  disk : Disk;
}.

(** RedisServer.Init, without the goroutine of the expiry checker. *)
Definition Server_Init (now : Time) (fileName : string) (files : Disk) : RedisServer :=
  let dbs := map (fun i => NewDatabase (Z.of_nat i)) (seq 0 16) in
  match dbs with
  | db0 :: rest =>
      let db0 := checkAndRemoveExpiredKeys now db0 in
      let db0 := if bool_decide (fileName = EmptyString) then db0
                 else Load files fileName db0 in
      mkServer (db0 :: rest) 0 files
  | [] => mkServer [] 0 files
  end.

(** a[i] on a slice: a panic when [i] is out of range. *)
Definition index {A} (a : list A) (i : Z) : outcome A :=
  if i <? 0 then Panic IndexOutOfRange
  else match a !! Z.to_nat i with
       | Some x => Ok x
       | None => Panic IndexOutOfRange
       end.

(** redis.databases[redis.selectedDB].f(...): [f] runs on the selected
    database, which is updated in place. *)
Definition onSelected {A} (f : Database -> A * Database) (redis : RedisServer)
  : outcome (A * RedisServer) :=
  db ← index (databases redis) (selectedDB redis);
  let '(a, db') := f db in
  Ok (a, mkServer (<[Z.to_nat (selectedDB redis) := db']> (databases redis))
           (selectedDB redis) (disk redis)).

(** SelectDB selects the database with the given index: the selected index
    changes and StartDB purges the expired keys of the newly selected
    database. *)
Definition SelectDB (now : Time) (i : Z) (redis : RedisServer)
  : outcome RedisServer :=
  _ ← index (databases redis) (selectedDB redis);
  '(_, redis') ← onSelected (fun db => (tt, checkAndRemoveExpiredKeys now db))
                   (mkServer (databases redis) i (disk redis));
  Ok redis'.

(** checkNumberOfArguments checks if the number of arguments is as expected. *)
Definition checkNumberOfArguments (args : list string)
    (expectedNumberOfArguments : Z) : bool :=
  expectedNumberOfArguments <=? Z.of_nat (length args).

(** returnWrongNumberOfArgumentsError *)
Definition returnWrongNumberOfArgumentsError (command : string) : string :=
  returnError ("wrong number of arguments for '" +:+ command +:+ "' command").

(** strings.ToUpper on a string of ASCII bytes, where it maps 'a'..'z' to
    'A'..'Z' byte by byte.  (On a string with a byte of 0x80 or above Go maps
    unicode.ToUpper over the runes, which the embedding does not hold; the
    only runes it sends to an ASCII letter are U+017F and U+0131, to 'S' and
    'I', so whether an option of SET is PX or EX is the same here as in Go.
    The properties about command names are stated for ASCII names.) *)
Definition upperByte (c : ascii) : ascii :=
  let n := nat_of_ascii c in
  if (97 <=? n)%nat && (n <=? 122)%nat then ascii_of_nat (n - 32) else c.

Fixpoint ToUpper (s : string) : string :=
  match s with
  | EmptyString => EmptyString
  | String c r => String (upperByte c) (ToUpper r)
  end.

Definition boolReply (b : bool) : string :=
  if b then returnInteger 1 else returnInteger 0.

Definition bulkOrNull (value : string) : string :=
  if bool_decide (value = EmptyString) then returnNullBulkString
  else returnBulkString value.

Section Handlers.

(** The first and the second reading of the clock within one command, the
    glob matcher of KEYS and the answer of the file system to SAVE. *)
Variables (now later : Time).
Variable Match : string -> string -> bool.
Variable saveIO : SaveIO.

(** A CommandFunc is the type of a Redis command function. *)
Definition CommandFunc : Type :=
  list string -> RedisServer -> outcome (string * RedisServer).

Definition reply (s : string) (redis : RedisServer)
  : outcome (string * RedisServer) := Ok (s, redis).

Definition pingCommand : CommandFunc := fun args redis =>
  match args with
  | a0 :: _ =>
      if bool_decide (a0 <> EmptyString) then reply (returnBulkString a0) redis
      else reply (returnSimpleString "PONG") redis
  | [] => reply (returnSimpleString "PONG") redis
  end.

(** echoCommand returns the first argument. *)
Definition echoCommand : CommandFunc := fun args redis =>
  a0 ← index args 0;
  reply (returnBulkString a0) redis.

Definition setWithExpiry (args : list string) (factor : Z) (redis : RedisServer)
  : outcome (string * RedisServer) :=
  a3 ← index args 3;
  match Atoi a3 with
  | inl _ => reply (returnError "value is not an integer or out of range") redis
  | inr n =>
      a0 ← index args 0;
      a1 ← index args 1;
      '(_, redis') ← onSelected
          (fun db => (tt, Setpx now a0 (wrap64 (n * factor)) a1 db)) redis;
      reply (returnSimpleString "OK") redis'
  end.

Definition setCommand : CommandFunc := fun args redis =>
  if negb (checkNumberOfArguments args 2)
  then reply (returnWrongNumberOfArgumentsError "SET") redis
  else if 3 <=? Z.of_nat (length args) then
    optionCommand ← index args 2;
    let upper := ToUpper optionCommand in
    if bool_decide (upper = "PX") then setWithExpiry args 1 redis
    else if bool_decide (upper = "EX") then setWithExpiry args 1000 redis
    else reply (returnError ("unknown command '" +:+ optionCommand +:+ "'")) redis
  else
    a0 ← index args 0;
    a1 ← index args 1;
    '(_, redis') ← onSelected (fun db => (tt, Set_ a0 a1 db)) redis;
    reply (returnSimpleString "OK") redis'.

Definition setexCommand : CommandFunc := fun args redis =>
  if negb (checkNumberOfArguments args 3)
  then reply (returnWrongNumberOfArgumentsError "SETEX") redis
  else
    a1 ← index args 1;
    match Atoi a1 with
    | inl _ => reply (returnError "value is not an integer or out of range") redis
    | inr seconds =>
        a0 ← index args 0;
        a2 ← index args 2;
        '(_, redis') ← onSelected
            (fun db => (tt, Setpx now a0 (wrap64 (seconds * 1000)) a2 db)) redis;
        reply (returnSimpleString "OK") redis'
    end.

Definition getCommand : CommandFunc := fun args redis =>
  if negb (checkNumberOfArguments args 1)
  then reply (returnWrongNumberOfArgumentsError "GET") redis
  else
    a0 ← index args 0;
    '(value, redis') ← onSelected (Get now a0) redis;
    reply (bulkOrNull value) redis'.

Definition getsetCommand : CommandFunc := fun args redis =>
  if negb (checkNumberOfArguments args 2)
  then reply (returnWrongNumberOfArgumentsError "GETSET") redis
  else
    a0 ← index args 0;
    a1 ← index args 1;
    '(value, redis') ← onSelected (GetSet now later a0 a1) redis;
    reply (bulkOrNull value) redis'.

Definition getdelCommand : CommandFunc := fun args redis =>
  if negb (checkNumberOfArguments args 1)
  then reply (returnWrongNumberOfArgumentsError "GETDEL") redis
  else
    a0 ← index args 0;
    '(value, redis') ← onSelected (GetDel now later a0) redis;
    reply (bulkOrNull value) redis'.

(** redis.databases[redis.selectedDB].f(args...) for an [f] that can panic. *)
Definition onSelectedM {A} (f : Database -> outcome (A * Database))
    (redis : RedisServer) : outcome (A * RedisServer) :=
  db ← index (databases redis) (selectedDB redis);
  '(a, db') ← f db;
  Ok (a, mkServer (<[Z.to_nat (selectedDB redis) := db']> (databases redis))
           (selectedDB redis) (disk redis)).

Definition msetCommand : CommandFunc := fun args redis =>
  if negb (checkNumberOfArguments args 2)
  then reply (returnWrongNumberOfArgumentsError "MSET") redis
  else if negb (Z.of_nat (length args) mod 2 =? 0)
  then reply (returnError "wrong number of arguments for 'MSET' command") redis
  else
    '(_, redis') ← onSelectedM (fun db => db' ← MSet args db; Ok (tt, db')) redis;
    reply (returnSimpleString "OK") redis'.

Definition msetnxCommand : CommandFunc := fun args redis =>
  if negb (checkNumberOfArguments args 2)
  then reply (returnWrongNumberOfArgumentsError "MSETNX") redis
  else if negb (Z.of_nat (length args) mod 2 =? 0)
  then reply (returnError "wrong number of arguments for 'MSETNX' command") redis
  else
    '(done, redis') ← onSelectedM (MSetNX now args) redis;
    reply (boolReply done) redis'.

Definition mgetCommand : CommandFunc := fun args redis =>
  if negb (checkNumberOfArguments args 1)
  then reply (returnWrongNumberOfArgumentsError "MGET") redis
  else
    '(values, redis') ← onSelected (MGet now args) redis;
    reply (returnArray values) redis'.

Definition delCommand : CommandFunc := fun args redis =>
  if negb (checkNumberOfArguments args 1)
  then reply (returnWrongNumberOfArgumentsError "DEL") redis
  else
    '(numberOfKeysDeleted, redis') ← onSelected (Del now args) redis;
    reply (returnInteger numberOfKeysDeleted) redis'.

Definition incrCommand : CommandFunc := fun args redis =>
  if negb (checkNumberOfArguments args 1)
  then reply (returnWrongNumberOfArgumentsError "INCR") redis
  else
    a0 ← index args 0;
    '(n, redis') ← onSelected (Incr now later a0) redis;
    reply (returnInteger n) redis'.

Definition incrbyCommand : CommandFunc := fun args redis =>
  if negb (checkNumberOfArguments args 2)
  then reply (returnWrongNumberOfArgumentsError "INCRBY") redis
  else
    a1 ← index args 1;
    match Atoi a1 with
    | inl _ => reply (returnError "value is not an integer or out of range") redis
    | inr increment =>
        a0 ← index args 0;
        '(n, redis') ← onSelected (IncrBy now later a0 increment) redis;
        reply (returnInteger n) redis'
    end.

Definition decrCommand : CommandFunc := fun args redis =>
  if negb (checkNumberOfArguments args 1)
  then reply (returnWrongNumberOfArgumentsError "DECR") redis
  else
    a0 ← index args 0;
    '(n, redis') ← onSelected (Decr now later a0) redis;
    reply (returnInteger n) redis'.

Definition decrbyCommand : CommandFunc := fun args redis =>
  if negb (checkNumberOfArguments args 2)
  then reply (returnWrongNumberOfArgumentsError "DECRBY") redis
  else
    a1 ← index args 1;
    match Atoi a1 with
    | inl _ => reply (returnError "value is not an integer or out of range") redis
    | inr decrement =>
        a0 ← index args 0;
        '(n, redis') ← onSelected (DecrBy now later a0 decrement) redis;
        reply (returnInteger n) redis'
    end.

Definition expireCommand : CommandFunc := fun args redis =>
  if negb (checkNumberOfArguments args 2)
  then reply (returnWrongNumberOfArgumentsError "EXPIRE") redis
  else
    a1 ← index args 1;
    match Atoi a1 with
    | inl _ => reply (returnError "value is not an integer or out of range") redis
    | inr seconds =>
        a0 ← index args 0;
        '(done, redis') ← onSelected (Expire now later a0 seconds) redis;
        reply (boolReply done) redis'
    end.

Definition ttlCommand : CommandFunc := fun args redis =>
  if negb (checkNumberOfArguments args 1)
  then reply (returnWrongNumberOfArgumentsError "TTL") redis
  else
    a0 ← index args 0;
    '(seconds, redis') ← onSelected (TTL now later a0) redis;
    reply (returnInteger seconds) redis'.

Definition persistCommand : CommandFunc := fun args redis =>
  if negb (checkNumberOfArguments args 1)
  then reply (returnWrongNumberOfArgumentsError "PERSIST") redis
  else
    a0 ← index args 0;
    '(done, redis') ← onSelected (Persist now a0) redis;
    reply (boolReply done) redis'.

Definition existsCommand : CommandFunc := fun args redis =>
  if negb (checkNumberOfArguments args 1)
  then reply (returnWrongNumberOfArgumentsError "EXISTS") redis
  else
    '(numberOfKeysExisting, redis') ← onSelected (Exists now args) redis;
    reply (returnInteger numberOfKeysExisting) redis'.

Definition keysCommand : CommandFunc := fun args redis =>
  if negb (checkNumberOfArguments args 1)
  then reply (returnWrongNumberOfArgumentsError "KEYS") redis
  else
    a0 ← index args 0;
    '(keys, redis') ← onSelected (fun db => (Keys Match a0 db, db)) redis;
    reply (returnArray keys) redis'.

(** saveCommand saves the current database on disk. *)
Definition saveCommand : CommandFunc := fun _ redis =>
  db ← index (databases redis) (selectedDB redis);
  let '(disk', db') := Save saveIO (disk redis) db in
  reply (returnSimpleString "OK")
    (mkServer (<[Z.to_nat (selectedDB redis) := db']> (databases redis))
       (selectedDB redis) disk').

(** loadCommand loads the current database from disk. *)
Definition loadCommand : CommandFunc := fun args redis =>
  if negb (checkNumberOfArguments args 1)
  then reply (returnWrongNumberOfArgumentsError "LOAD") redis
  else
    fileName ← (if 0 <? Z.of_nat (length args) then index args 0
                else Ok EmptyString);
    '(_, redis') ← onSelected (fun db => (tt, Load (disk redis) fileName db)) redis;
    reply (returnSimpleString "OK") redis'.

Definition selectCommand : CommandFunc := fun args redis =>
  if negb (Z.of_nat (length args) =? 1)
  then reply (returnWrongNumberOfArgumentsError "SELECT") redis
  else
    a0 ← index args 0;
    match Atoi a0 with
    | inl _ => reply (returnError "value is not an integer") redis
    | inr i =>
        if (i <? 0) || (16 <=? i)
        then reply (returnError "value is out of range or invalid DB index") redis
        else redis' ← SelectDB now i redis;
             reply (returnSimpleString "OK") redis'
    end.

Definition flushdbCommand : CommandFunc := fun _ redis =>
  '(_, redis') ← onSelected (fun db => (tt, Flush db)) redis;
  reply (returnSimpleString "OK") redis'.

Definition flushallCommand : CommandFunc := fun _ redis =>
  reply (returnSimpleString "OK")
    (mkServer (map Flush (databases redis)) (selectedDB redis) (disk redis)).

(** CommandMap stores the Redis command functions. *)
Definition getCommandMap : list (string * CommandFunc) :=
  [ ("PING", pingCommand); ("ECHO", echoCommand); ("SET", setCommand);
    ("SETEX", setexCommand); ("GET", getCommand); ("GETSET", getsetCommand);
    ("GETDEL", getdelCommand); ("MSET", msetCommand); ("MSETNX", msetnxCommand);
    ("MGET", mgetCommand); ("DEL", delCommand); ("INCR", incrCommand);
    ("INCRBY", incrbyCommand); ("DECR", decrCommand); ("DECRBY", decrbyCommand);
    ("EXPIRE", expireCommand); ("TTL", ttlCommand); ("PERSIST", persistCommand);
    ("EXISTS", existsCommand); ("KEYS", keysCommand); ("SAVE", saveCommand);
    ("LOAD", loadCommand); ("SELECT", selectCommand);
    ("FLUSHDB", flushdbCommand); ("FLUSHALL", flushallCommand) ].

Definition lookupCommand (name : string) : option CommandFunc :=
  snd <$> List.find (fun entry => bool_decide (entry.1 = name)) getCommandMap.

(** One turn of the loop of handleRequest on a decoded request: the reply
    written to the connection and the server afterwards. *)
Definition handleValue (value : Value) (redis : RedisServer)
  : outcome (string * RedisServer) :=
  first ← index (Value_Array value) 0;
  let comingCommand := ToUpper (Value_String first) in
  (* value.StringArray()[1:] *)
  args ← match Value_StringArray value with
         | [] => Panic SliceBoundsOutOfRange
         | _ :: args => Ok args
         end;
  match lookupCommand comingCommand with
  | Some command => command args redis
  | None =>
      reply (returnError ("Unknown command '" +:+ comingCommand +:+ "'")) redis
  end.

End Handlers.

(** * The vocabulary of the properties *)

(** The decimal text of a positive number: digits only, at least one. *)
Definition isDigit (c : ascii) : bool :=
  match digitValue c with Some _ => true | None => false end.

Fixpoint allDigits (s : string) : bool :=
  match s with
  | EmptyString => true
  | String c r => isDigit c && allDigits r
  end.

(** No line feed in the text of a number. *)
Fixpoint noLF (s : string) : bool :=
  match s with
  | EmptyString => true
  | String c r => negb (bool_decide (c = LF)) && noLF r
  end.

(** No carriage return followed by a line feed inside [s]. *)
Fixpoint noCRLF (s : string) : bool :=
  match s with
  | EmptyString => true
  | String c r =>
      negb (bool_decide (c = CR) &&
            match r with
            | String d _ => bool_decide (d = LF)
            | EmptyString => false
            end) && noCRLF r
  end.

(** The reply values of the specification that the encoders serve: a status,
    an integer, a bulk string, the null bulk string and an array of strings
    (returnArray writes an empty element in the null form). *)
Inductive Reply : Type :=
  | Status (text : string)
  | Integer (i : Z)
  | Bulk (s : string)
  | Null
  | Arr (elements : list string).

(** encode: the reply encoder of each variant. *)
Definition encode (r : Reply) : string :=
  match r with
  | Status text => returnSimpleString text
  | Integer i => returnInteger i
  | Bulk s => returnBulkString s
  | Null => returnNullBulkString
  | Arr elements => returnArray elements
  end.

Definition bulkValue (s : string) : Value := mkValue BulkString s [].

(** The [Value] that stands for a reply.  The decoder's [Value] has the types
    '+', '$' and '*' only: an integer and the null form have none. *)
Definition valueOf (r : Reply) : option Value :=
  match r with
  | Status text => Some (mkValue SimpleString text [])
  | Bulk s => Some (bulkValue s)
  | Arr elements => Some (mkValue Array EmptyString (map bulkValue elements))
  | Integer _ | Null => None
  end.

(** decode(encode(r)) == r: with enough fuel the decoder reads the whole
    encoding back as the value of [r]. *)
Definition roundTrips (r : Reply) : Prop :=
  exists fuel v,
    valueOf r = Some v /\ DecodeRESP fuel (encode r) = Ok (v, EmptyString).

(** len(s)+2, the size of the buffer of decodeBulkString, fits an int. *)
Definition fitsInt (s : string) : Prop := len s + 2 < 2 ^ 63.

(** What the decoder does read back: a status with no CRLF inside, any bulk
    string, an array of non-empty strings. *)
Definition readable (r : Reply) : Prop :=
  match r with
  | Status text => noCRLF text = true
  | Bulk s => fitsInt s
  | Arr elements =>
      Z.of_nat (length elements) < 2 ^ 63 /\
      Forall (fun s => s <> EmptyString /\ fitsInt s) elements
  | Integer _ | Null => False
  end.

(** returnArray element by element. *)
Definition encodeElement (v : string) : string :=
  if bool_decide (v = EmptyString) then returnNullBulkString else returnBulkString v.

Fixpoint encodeElements (a : list string) : string :=
  match a with
  | [] => EmptyString
  | v :: a' => (encodeElement v +:+ encodeElements a')%string
  end.

(** The decoder returns some value, right or wrong, on the encoding of [r]. *)
Definition decodes (r : Reply) : Prop :=
  exists fuel v rest, DecodeRESP fuel (encode r) = Ok (v, rest).

(** The file that Load reads. *)
Definition loadedFile (files : Disk) (fileName : string) (db : Database)
  : option DiskFile :=
  files !! (if bool_decide (fileName = EmptyString) then dumpName db else fileName).

(** The key has an expiry entry that lies before [now]. *)
Definition expired (now : Time) (key : string) (db : Database) : bool :=
  match ExpireKeys db !! key with
  | Some expire => After now expire
  | None => false
  end.

(** The database once [key] is purged from both maps. *)
Definition purge (key : string) (db : Database) : Database :=
  mkDatabase (dbid db) (delete key (StringKeys db)) (delete key (ExpireKeys db)).

(** What every operation takes for "the key exists": Get hands back a value
    that is not the empty string. *)
Definition present (now : Time) (key : string) (db : Database) : Prop :=
  exists storage,
    StringKeys db !! key = Some storage /\ storage <> EmptyString /\
    expired now key db = false.


(** A server whose selected database, the first, is [db]. *)
Definition serverOf (db : Database) : RedisServer := mkServer [db] 0 ∅.


(** The handlers that do check: each one with the number of arguments it asks
    for.  (SELECT asks for exactly one; PING, SAVE, FLUSHDB and FLUSHALL ask
    for none.) *)
Definition checkedCommands (now later : Time) (Match : string -> string -> bool)
  : list (string * Z * CommandFunc) :=
  [ ("SET", 2, setCommand now); ("SETEX", 3, setexCommand now);
    ("GET", 1, getCommand now); ("GETSET", 2, getsetCommand now later);
    ("GETDEL", 1, getdelCommand now later); ("MSET", 2, msetCommand);
    ("MSETNX", 2, msetnxCommand now); ("MGET", 1, mgetCommand now);
    ("DEL", 1, delCommand now); ("INCR", 1, incrCommand now later);
    ("INCRBY", 2, incrbyCommand now later); ("DECR", 1, decrCommand now later);
    ("DECRBY", 2, decrbyCommand now later); ("EXPIRE", 2, expireCommand now later);
    ("TTL", 1, ttlCommand now later); ("PERSIST", 1, persistCommand now);
    ("EXISTS", 1, existsCommand now); ("KEYS", 1, keysCommand Match);
    ("LOAD", 1, loadCommand); ("SELECT", 1, selectCommand now) ]%string.

(** args[0], args[2], ...: the keys of a list of arguments. *)
Fixpoint keysOf (args : list string) : list string :=
  match args with
  | [] => []
  | key :: rest =>
      key :: match rest with
             | [] => []
             | _ :: args' => keysOf args'
             end
  end.

(** (args[0], args[1]), (args[2], args[3]), ...: the pairs. *)
Fixpoint pairsOf (args : list string) : list (string * string) :=
  match args with
  | key :: value :: args' => (key, value) :: pairsOf args'
  | _ => []
  end.

(** [db'] is [db] after lazy purges at [now]: every key has the entries it
    had, or had expired and is gone from both maps. *)
Definition sweptAt (now : Time) (db db' : Database) : Prop :=
  forall key,
    (StringKeys db' !! key = StringKeys db !! key /\
     ExpireKeys db' !! key = ExpireKeys db !! key) \/
    (expired now key db = true /\
     StringKeys db' !! key = None /\ ExpireKeys db' !! key = None).

(** A request as a client writes it: the array header, then every element as
    a bulk string (the empty string as "$0\r\n\r\n"). *)
Fixpoint bulkElements (l : list string) : string :=
  match l with
  | [] => EmptyString
  | s :: l' => (returnBulkString s +:+ bulkElements l')%string
  end.

Definition encodeRequest (l : list string) : string :=
  ("*" +:+ Itoa (Z.of_nat (length l)) +:+ CRLF +:+ bulkElements l)%string.

(** The request value the decoder builds for a list of strings. *)
Definition requestValue (l : list string) : Value :=
  mkValue Array EmptyString (map bulkValue l).

(** [present], as a test: Get returns a non-empty value. *)
Definition presentb (now : Time) (db : Database) (key : string) : bool :=
  bool_decide ((Get now key db).1 <> EmptyString).

(** [db'] is [db] after purges at [now] and removals of values: every key
    has the expiry entry it had and its value or none, or had expired and is
    gone from both maps. *)
Definition shrunkAt (now : Time) (db db' : Database) : Prop :=
  forall key,
    (ExpireKeys db' !! key = ExpireKeys db !! key /\
     (StringKeys db' !! key = StringKeys db !! key \/
      StringKeys db' !! key = None)) \/
    (expired now key db = true /\
     StringKeys db' !! key = None /\ ExpireKeys db' !! key = None).

(** The server as Init leaves it and as every handler keeps it: sixteen
    databases and a selected index among them. *)
Definition wellFormed (redis : RedisServer) : Prop :=
  length (databases redis) = 16%nat /\ 0 <= selectedDB redis < 16.

(** [redis'] is [redis] but for the database at the selected index and for
    the files. *)
Definition updatesSelected (redis redis' : RedisServer) : Prop :=
  selectedDB redis' = selectedDB redis /\
  exists db',
    databases redis' = <[Z.to_nat (selectedDB redis) := db']> (databases redis).

(** The number that a run of decimal digits denotes, whatever its size. *)
Fixpoint digitsValue (acc : Z) (s : string) : option Z :=
  match s with
  | EmptyString => Some acc
  | String c r =>
      match digitValue c with
      | Some d => digitsValue (10 * acc + d) r
      | None => None
      end
  end.

(** The largest size makeslice accepts on a 64-bit platform (the runtime's
    maxAlloc, 2^48 bytes): make panics beyond it. *)
Definition maxAlloc : Z := 2 ^ 48.

(** A string of ASCII bytes: strings.ToUpper maps such a string byte by
    byte. *)
Fixpoint isASCII (s : string) : bool :=
  match s with
  | EmptyString => true
  | String c r => (nat_of_ascii c <? 128)%nat && isASCII r
  end.

(** The float64 next above 0.999999999: no quotient of the nanoseconds of a
    second by 1e9 is greater. *)
Definition almostOne : Z := 9007199245733794 * 2 ^ 1021.

(** * Properties *)

(** ** The decoder on the requests of the tests *)

Example decode_simple :
  DecodeRESP 1 ("+foo" +:+ CRLF) = Ok (mkValue SimpleString "foo" [], EmptyString).
Proof. vm_compute. reflexivity. Qed.

Example decode_bulk :
  DecodeRESP 1 ("$4" +:+ CRLF +:+ "abcd" +:+ CRLF)
  = Ok (mkValue BulkString "abcd" [], EmptyString).
Proof. vm_compute. reflexivity. Qed.

Example decode_array :
  DecodeRESP 2 ("*2" +:+ CRLF +:+ "$3" +:+ CRLF +:+ "GET" +:+ CRLF
                +:+ "$4" +:+ CRLF +:+ "this" +:+ CRLF)
  = Ok (mkValue Array EmptyString
          [mkValue BulkString "GET" []; mkValue BulkString "this" []],
        EmptyString).
Proof. vm_compute. reflexivity. Qed.

Example decode_invalid_bulk :
  DecodeRESP 1 ("$4" +:+ CRLF +:+ "abc" +:+ CRLF)
  = Err (Wrapped "failed to read bulk string contents" ErrUnexpectedEOF).
Proof. vm_compute. reflexivity. Qed.

(** ** Decimal text: Atoi reads back what Itoa writes *)

Lemma digitsValue_acc (d : Decimal.uint) (acc : positive) :
  digitsValue (Z.pos acc) (NilEmpty.string_of_uint d)
  = Some (Z.pos (Pos.of_uint_acc d acc)).
Proof.
  revert acc.
  induction d; intros acc; cbn [NilEmpty.string_of_uint digitsValue Pos.of_uint_acc];
    [reflexivity | ..];
    match goal with
    | |- context [digitValue ?c] =>
        let v := eval vm_compute in (digitValue c) in
        change (digitValue c) with v; cbv iota
    end;
    rewrite <- IHd; f_equal; lia.
Qed.

Lemma digitsValue_uint (d : Decimal.uint) :
  digitsValue 0 (NilEmpty.string_of_uint d) = Some (Z.of_N (Pos.of_uint d)).
Proof.
  induction d; cbn [NilEmpty.string_of_uint digitsValue Pos.of_uint];
    [reflexivity | ..];
    match goal with
    | |- context [digitValue ?c] =>
        let v := eval vm_compute in (digitValue c) in
        change (digitValue c) with v; cbv iota
    end;
    [exact IHd | ..];
    match goal with
    | |- digitsValue ?z _ = _ =>
        let v := eval vm_compute in z in change z with v
    end;
    apply digitsValue_acc.
Qed.

Lemma digitValue_range (c : ascii) (d : Z) : digitValue c = Some d -> 0 <= d <= 9.
Proof.
  unfold digitValue.
  destruct (Z.leb_spec 48 (Z.of_nat (nat_of_ascii c)));
    destruct (Z.leb_spec (Z.of_nat (nat_of_ascii c)) 57); cbn [andb];
    intros [= <-]; lia.
Qed.

(** The digits only add to the number read so far. *)
Lemma digitsValue_ge (s : string) (acc n : Z) :
  0 <= acc -> digitsValue acc s = Some n -> acc <= n.
Proof.
  revert acc. induction s as [| c r IH]; intros acc Hacc; cbn [digitsValue].
  - intros [= <-]. lia.
  - destruct (digitValue c) as [d |] eqn:Hc; [| discriminate].
    apply digitValue_range in Hc. intros Hn%IH; lia.
Qed.

(** A run of digits whose number is a uint64 goes through the loop of
    ParseUint. *)
Lemma parseDigits_value (s : string) (acc n : Z) :
  0 <= acc -> digitsValue acc s = Some n -> n <= maxUint64 ->
  parseDigits acc s = inr n.
Proof.
  revert acc. induction s as [| c r IH]; intros acc Hacc;
    cbn [digitsValue parseDigits].
  - intros [= <-] _. reflexivity.
  - destruct (digitValue c) as [d |] eqn:Hc; [| discriminate].
    apply digitValue_range in Hc. intros Hn Hmax.
    pose proof (digitsValue_ge r (10 * acc + d) n ltac:(lia) Hn) as Hge.
    unfold maxUint64 in *.
    destruct (Z.leb_spec ((2 ^ 64 - 1) / 10 + 1) acc) as [Hcut |].
    { change ((2 ^ 64 - 1) / 10 + 1) with 1844674407370955162 in Hcut. lia. }
    destruct (Z.ltb_spec (2 ^ 64 - 1) (10 * acc + d)); [lia |].
    cbn [orb]. apply IH; [lia | exact Hn | exact Hmax].
Qed.

Lemma string_of_uint_digits (d : Decimal.uint) :
  allDigits (NilEmpty.string_of_uint d) = true.
Proof. induction d; cbn; auto. Qed.

Lemma string_of_uint_head (d : Decimal.uint) :
  d <> Decimal.Nil ->
  exists c r, NilEmpty.string_of_uint d = String c r /\ isDigit c = true.
Proof.
  intros Hd. pose proof (string_of_uint_digits d) as Hall.
  destruct d; [congruence | ..]; cbn in *; eauto.
Qed.

Lemma Atoi_digits (c : ascii) (r : string) :
  isDigit c = true ->
  Atoi (String c r) =
  match parseDigits 0 (String c r) with
  | inl e => inl e
  | inr n => if inInt64 n then inr n else inl ErrRange
  end.
Proof.
  intros Hc. unfold Atoi.
  destruct c as [[] [] [] [] [] [] [] []];
    first [discriminate Hc | reflexivity].
Qed.

Lemma Itoa_pos (p : positive) :
  Itoa (Z.pos p) = NilEmpty.string_of_uint (Pos.to_uint p).
Proof.
  unfold Itoa. cbn [Z.to_int NilZero.string_of_int NilZero.string_of_uint].
  pose proof (Unsigned.to_uint_nonnil p).
  destruct (Pos.to_uint p); [congruence | reflexivity ..].
Qed.

Lemma Itoa_neg (p : positive) :
  Itoa (Z.neg p) = String "-" (NilEmpty.string_of_uint (Pos.to_uint p)).
Proof.
  unfold Itoa. cbn [Z.to_int NilZero.string_of_int NilZero.string_of_uint].
  pose proof (Unsigned.to_uint_nonnil p).
  destruct (Pos.to_uint p); [congruence | reflexivity ..].
Qed.

Lemma parseDigits_to_uint (p : positive) :
  Z.pos p <= maxUint64 ->
  parseDigits 0 (NilEmpty.string_of_uint (Pos.to_uint p)) = inr (Z.pos p).
Proof.
  intros Hp. apply parseDigits_value; [lia | | exact Hp].
  rewrite digitsValue_uint, DecimalPos.Unsigned.of_to. reflexivity.
Qed.

(** strconv.Atoi(strconv.Itoa(i)) == i for every 64-bit [i]. *)
Lemma Atoi_Itoa (i : Z) : inInt64 i = true -> Atoi (Itoa i) = inr i.
Proof.
  intros Hi.
  assert (Hrange : - 2 ^ 63 <= i < 2 ^ 63).
  { unfold inInt64 in Hi. apply andb_prop in Hi as [H1%Z.leb_le H2%Z.ltb_lt]. lia. }
  destruct i as [| p | p].
  - reflexivity.
  - rewrite Itoa_pos.
    destruct (string_of_uint_head (Pos.to_uint p) (Unsigned.to_uint_nonnil p))
      as (c & r & Heq & Hc).
    pose proof (parseDigits_to_uint p ltac:(unfold maxUint64; lia)) as Hp.
    rewrite Heq in *. rewrite (Atoi_digits _ _ Hc), Hp, Hi. reflexivity.
  - rewrite Itoa_neg.
    destruct (string_of_uint_head (Pos.to_uint p) (Unsigned.to_uint_nonnil p))
      as (c & r & Heq & Hc).
    pose proof (parseDigits_to_uint p ltac:(unfold maxUint64; lia)) as Hp.
    rewrite Heq in *. unfold Atoi. rewrite Hp.
    change (- Z.pos p) with (Z.neg p). rewrite Hi. reflexivity.
Qed.

(** The error of Atoi is the first the loop meets: a digit run that leaves
    the uint64 range is a range error also when a byte that is no digit
    follows it. *)
Example Atoi_errors :
  Atoi "12a" = inl ErrSyntax /\
  Atoi "9223372036854775808" = inl ErrRange /\
  Atoi "-9223372036854775808" = inr (- 2 ^ 63) /\
  Atoi "18446744073709551615x" = inl ErrSyntax /\
  Atoi "18446744073709551616x" = inl ErrRange /\
  Atoi "99999999999999999999x" = inl ErrRange.
Proof. vm_compute. repeat split; reflexivity. Qed.

Lemma allDigits_noLF (s : string) : allDigits s = true -> noLF s = true.
Proof.
  induction s as [| c r IH]; [reflexivity |]. cbn.
  intros [Hc Hr]%andb_prop. rewrite (IH Hr), andb_true_r.
  destruct (bool_decide_reflect (c = LF)) as [-> |]; [discriminate Hc | reflexivity].
Qed.

Lemma Itoa_noLF (i : Z) : noLF (Itoa i) = true.
Proof.
  destruct i as [| p | p].
  - reflexivity.
  - rewrite Itoa_pos. apply allDigits_noLF, string_of_uint_digits.
  - rewrite Itoa_neg. cbn. apply allDigits_noLF, string_of_uint_digits.
Qed.

(** ** Byte strings *)

Lemma append_cons (x : ascii) (a b : string) :
  (String x a +:+ b)%string = String x (a +:+ b).
Proof. reflexivity. Qed.

Lemma append_nil_l (b : string) : (EmptyString +:+ b)%string = b.
Proof. reflexivity. Qed.

Ltac string_ind a :=
  induction a as [| ? a ?IH];
  rewrite ?append_cons, ?append_nil_l; cbn [String.length String.substring String.get noLF].

Lemma append_assoc (a b c : string) : ((a +:+ b) +:+ c = a +:+ (b +:+ c))%string.
Proof. string_ind a; [reflexivity | now rewrite IH]. Qed.

Lemma append_nil_r (a : string) : (a +:+ EmptyString)%string = a.
Proof. string_ind a; [reflexivity | now rewrite IH]. Qed.

Lemma length_append (a b : string) :
  String.length (a +:+ b) = (String.length a + String.length b)%nat.
Proof. string_ind a; [reflexivity | now rewrite IH]. Qed.

Lemma substring_prefix (a b : string) :
  String.substring 0 (String.length a) (a +:+ b) = a.
Proof. string_ind a; [destruct b; reflexivity | now rewrite IH]. Qed.

Lemma substring_all (a : string) : String.substring 0 (String.length a) a = a.
Proof. rewrite <- (append_nil_r a) at 2. apply substring_prefix. Qed.

Lemma substring_suffix (a b : string) :
  String.substring (String.length a) (String.length b) (a +:+ b) = b.
Proof. string_ind a; [apply substring_all | exact IH]. Qed.

Lemma get_append_at (a : string) (c : ascii) (b : string) :
  String.get (String.length a) (a +:+ String c b) = Some c.
Proof. string_ind a; [reflexivity | exact IH]. Qed.

Lemma noLF_append (a b : string) : noLF (a +:+ b) = noLF a && noLF b.
Proof. string_ind a; [reflexivity | now rewrite IH, andb_assoc]. Qed.

(** ** The decoder on one well-formed line *)

Lemma ReadBytes_line (s rest : string) :
  noLF s = true ->
  ReadBytes LF (s +:+ String LF rest) = Some ((s +:+ String LF EmptyString)%string, rest).
Proof.
  induction s as [| c s IH]; rewrite ?append_cons, ?append_nil_l;
    cbn [ReadBytes noLF].
  - rewrite bool_decide_eq_true_2 by reflexivity. reflexivity.
  - intros [Hc Hs]%andb_prop. rewrite (IH Hs).
    destruct (bool_decide (c = LF)); [discriminate Hc | reflexivity].
Qed.

Lemma crBeforeLast_CRLF (s : string) : crBeforeLast (s +:+ CRLF) = true.
Proof.
  unfold crBeforeLast, CRLF. rewrite length_append. cbn [String.length].
  replace (String.length s + 2 - 2)%nat with (String.length s) by lia.
  rewrite get_append_at.
  replace (2 <=? String.length s + 2)%nat with true
    by (symmetry; apply Nat.leb_le; lia).
  reflexivity.
Qed.

Lemma readUntilCRLF_loop_last (fuel : nat) (acc s rest : string) :
  noLF s = true ->
  readUntilCRLF_loop fuel acc (s +:+ CRLF +:+ rest) = Ok ((acc +:+ s)%string, rest).
Proof.
  intros Hs.
  assert (Hread : ReadBytes LF (s +:+ CRLF +:+ rest)
                  = Some ((s +:+ CRLF)%string, rest)).
  { unfold CRLF.
    change (s +:+ String CR (String LF EmptyString) +:+ rest)%string
      with (s +:+ String CR (String LF rest))%string.
    replace (s +:+ String CR (String LF rest))%string
      with ((s +:+ String CR EmptyString) +:+ String LF rest)%string
      by (now rewrite append_assoc).
    rewrite ReadBytes_line by (rewrite noLF_append, Hs; reflexivity).
    now rewrite append_assoc. }
  assert (Hcut : forall a, String.substring 0 (String.length (a +:+ CRLF) - 2) (a +:+ CRLF) = a).
  { intros a. rewrite length_append. cbn [String.length CRLF].
    replace (String.length a + 2 - 2)%nat with (String.length a) by lia.
    apply substring_prefix. }
  destruct fuel; cbn [readUntilCRLF_loop]; rewrite Hread;
    cbv zeta iota beta; rewrite <- append_assoc, crBeforeLast_CRLF, Hcut; reflexivity.
Qed.

Lemma split_at_LF (s : string) :
  noLF s = true \/
  exists s1 s2, s = (s1 +:+ String LF s2)%string /\ noLF s1 = true.
Proof.
  induction s as [| c s IH]; [now left |].
  destruct (bool_decide_reflect (c = LF)) as [-> | Hc].
  - right. exists EmptyString, s. split; reflexivity.
  - destruct IH as [IH | (s1 & s2 & -> & Hs1)].
    + left. cbn [noLF]. rewrite IH, bool_decide_eq_false_2 by exact Hc. reflexivity.
    + right. exists (String c s1), s2. split; [reflexivity |].
      cbn [noLF]. rewrite Hs1, bool_decide_eq_false_2 by exact Hc. reflexivity.
Qed.

Lemma crBeforeLast_cons (c d : ascii) (x : string) :
  crBeforeLast (String c (String d x)) = 
  match x with EmptyString => bool_decide (c = CR) | _ => crBeforeLast (String d x) end.
Proof.
  destruct x as [| e x]; [reflexivity |].
  unfold crBeforeLast. cbn [String.length].
  replace (S (S (S (String.length x))) - 2)%nat with (S (String.length x)) by lia.
  replace (S (S (String.length x)) - 2)%nat with (String.length x) by lia.
  reflexivity.
Qed.

Lemma crBeforeLast_LF (p q : string) :
  noCRLF (p +:+ String LF q) = true ->
  crBeforeLast (p +:+ String LF EmptyString) = false.
Proof.
  induction p as [| c p IH]; [reflexivity |].
  rewrite !append_cons. cbn [noCRLF]. intros [Hc Hp]%andb_prop.
  destruct p as [| d p].
  - rewrite !append_nil_l in *. rewrite crBeforeLast_cons.
    rewrite (bool_decide_eq_true_2 (LF = LF)) in Hc by reflexivity.
    rewrite andb_true_r in Hc. now apply negb_true_iff in Hc.
  - rewrite !append_cons in *. rewrite crBeforeLast_cons.
    destruct (p +:+ String LF EmptyString)%string eqn:Hx.
    + destruct p; discriminate Hx.
    + apply IH. exact Hp.
Qed.

Lemma readUntilCRLF_loop_text (n : nat) :
  forall s, (String.length s <= n)%nat ->
  forall fuel acc rest,
    (String.length s <= fuel)%nat -> noCRLF (acc +:+ s) = true ->
    readUntilCRLF_loop fuel acc (s +:+ CRLF +:+ rest) = Ok ((acc +:+ s)%string, rest).
Proof.
  induction n as [| n IH]; intros s Hn fuel acc rest Hfuel Hs.
  - destruct s; [| cbn in Hn; lia]. now apply readUntilCRLF_loop_last.
  - destruct (split_at_LF s) as [Hlf | (s1 & s2 & -> & Hs1)];
      [now apply readUntilCRLF_loop_last |].
    rewrite length_append in Hn, Hfuel. cbn [String.length] in Hn, Hfuel.
    destruct fuel as [| fuel]; [lia |].
    cbn [readUntilCRLF_loop].
    rewrite append_assoc, append_cons, (ReadBytes_line s1 _ Hs1).
    cbv zeta iota beta.
    rewrite <- (append_assoc acc s1), (crBeforeLast_LF (acc +:+ s1) s2)
      by (now rewrite append_assoc).
    rewrite IH; [| lia | lia |].
    + now rewrite !append_assoc.
    + now rewrite !append_assoc.
Qed.

Lemma readUntilCRLF_line (s rest : string) :
  noLF s = true -> readUntilCRLF (s +:+ CRLF +:+ rest) = Ok (s, rest).
Proof.
  intros Hs. unfold readUntilCRLF.
  now rewrite readUntilCRLF_loop_last, append_nil_l.
Qed.

(** A line with no CRLF inside is read up to its CRLF. *)
Lemma readUntilCRLF_text (s rest : string) :
  noCRLF s = true -> readUntilCRLF (s +:+ CRLF +:+ rest) = Ok (s, rest).
Proof.
  intros Hs. unfold readUntilCRLF.
  rewrite (readUntilCRLF_loop_text (String.length s)), append_nil_l;
    [reflexivity | lia | | now rewrite append_nil_l].
  rewrite length_append. lia.
Qed.

Lemma len_nonneg (s : string) : 0 <= len s.
Proof. unfold len. lia. Qed.

Lemma ReadFull_exact (s rest : string) :
  ReadFull (len s + 2) (s +:+ CRLF +:+ rest) = Ok ((s +:+ CRLF)%string, rest).
Proof.
  pose proof (len_nonneg s) as Hs. unfold ReadFull.
  assert (Hlen : len (s +:+ CRLF +:+ rest) = len s + 2 + len rest).
  { unfold len. rewrite !length_append. cbn [String.length CRLF]. lia. }
  pose proof (len_nonneg rest) as Hr.
  destruct (Z.eqb_spec (len s + 2) 0); [lia |].
  destruct (Z.eqb_spec (len (s +:+ CRLF +:+ rest)) 0); [lia |].
  destruct (Z.ltb_spec (len (s +:+ CRLF +:+ rest)) (len s + 2)); [lia |].
  assert (Hn : Z.to_nat (len s + 2) = String.length (s +:+ CRLF)).
  { unfold len. rewrite length_append. cbn [String.length CRLF]. lia. }
  rewrite Hn, <- append_assoc. generalize (s +:+ CRLF)%string. intros a.
  f_equal. f_equal.
  - apply substring_prefix.
  - rewrite length_append.
    replace (String.length a + String.length rest - String.length a)%nat
      with (String.length rest) by lia.
    apply substring_suffix.
Qed.

Lemma wrap64_small (z : Z) : - 2 ^ 63 <= z < 2 ^ 63 -> wrap64 z = z.
Proof. intros Hz. unfold wrap64. rewrite Z.mod_small; lia. Qed.

Lemma inInt64_spec (z : Z) : inInt64 z = true <-> - 2 ^ 63 <= z < 2 ^ 63.
Proof. unfold inInt64. rewrite andb_true_iff, Z.leb_le, Z.ltb_lt. reflexivity. Qed.

Lemma DecodeRESP_step (fuel : nat) (dataTypeByte : ascii) (rest : string) :
  DecodeRESP (S fuel) (String dataTypeByte rest)
  = if bool_decide (dataTypeByte = SimpleString) then decodeSimpleString rest
    else if bool_decide (dataTypeByte = BulkString) then decodeBulkString rest
    else if bool_decide (dataTypeByte = Array)
         then decodeArray (DecodeRESP fuel) rest
    else Err (InvalidTypeByte dataTypeByte).
Proof. reflexivity. Qed.

(** A simple string with no CRLF inside is read back. *)
Lemma decode_returnSimpleString (fuel : nat) (s rest : string) :
  noCRLF s = true ->
  DecodeRESP (S fuel) (returnSimpleString s +:+ rest)
  = Ok (mkValue SimpleString s [], rest).
Proof.
  intros Hs. unfold returnSimpleString.
  rewrite !append_assoc, append_cons, append_nil_l, DecodeRESP_step.
  change (bool_decide ("+"%char = SimpleString)) with true. cbv iota.
  unfold decodeSimpleString. rewrite readUntilCRLF_text by exact Hs.
  reflexivity.
Qed.

(** A bulk string is read back, whatever its bytes. *)
Lemma decode_returnBulkString (fuel : nat) (s rest : string) :
  len s + 2 < 2 ^ 63 ->
  DecodeRESP (S fuel) (returnBulkString s +:+ rest)
  = Ok (mkValue BulkString s [], rest).
Proof.
  intros Hs. pose proof (len_nonneg s) as H0.
  unfold returnBulkString.
  rewrite !append_assoc, append_cons, append_nil_l, DecodeRESP_step.
  change (bool_decide ("$"%char = SimpleString)) with false.
  change (bool_decide ("$"%char = BulkString)) with true. cbv iota.
  unfold decodeBulkString.
  rewrite readUntilCRLF_line by apply Itoa_noLF.
  cbn [wrapErr mbind outcome_bind bind].
  rewrite Atoi_Itoa by (apply inInt64_spec; lia).
  rewrite wrap64_small by lia.
  destruct (Z.ltb_spec (len s + 2) 0); [lia |].
  rewrite ReadFull_exact. cbn [wrapErr mbind outcome_bind bind].
  destruct (Z.ltb_spec (len s) 0); [lia |].
  destruct (Z.ltb_spec (len s + 2) (len s)); [lia |].
  cbn [orb]. unfold len at 1. rewrite Nat2Z.id, substring_prefix. reflexivity.
Qed.

(** ** Replies and their decoding *)

Lemma returnArray_fold (a : list string) (s : string) :
  fold_left
    (fun s v =>
       if bool_decide (v = EmptyString) then (s +:+ returnNullBulkString)%string
       else (s +:+ returnBulkString v)%string) a s
  = (s +:+ encodeElements a)%string.
Proof.
  revert s. induction a as [| v a IH]; intros s; cbn [fold_left encodeElements].
  - now rewrite append_nil_r.
  - rewrite IH. unfold encodeElement.
    destruct (bool_decide (v = EmptyString)); now rewrite append_assoc.
Qed.

Lemma returnArray_elements (a : list string) :
  returnArray a
  = ("*" +:+ Itoa (Z.of_nat (length a)) +:+ CRLF +:+ encodeElements a)%string.
Proof. unfold returnArray. rewrite returnArray_fold, !append_assoc. reflexivity. Qed.

Lemma decodeArray_loop_elements (fuel : nat) (a : list string) (acc : list Value)
    (rest : string) :
  Forall (fun s => s <> EmptyString /\ fitsInt s) a ->
  decodeArray_loop (DecodeRESP (S fuel)) (length a) acc (encodeElements a +:+ rest)
  = Ok (acc ++ map bulkValue a, rest).
Proof.
  intros Ha. revert acc.
  induction Ha as [| v a [Hv Hfit] _ IH]; intros acc;
    cbn [length decodeArray_loop encodeElements map].
  - now rewrite app_nil_r.
  - unfold encodeElement. rewrite bool_decide_eq_false_2 by exact Hv.
    rewrite append_assoc, decode_returnBulkString by exact Hfit.
    cbn [mbind outcome_bind bind]. rewrite IH, <- app_assoc. reflexivity.
Qed.

Lemma decode_returnArray (fuel : nat) (a : list string) (rest : string) :
  Z.of_nat (length a) < 2 ^ 63 ->
  Forall (fun s => s <> EmptyString /\ fitsInt s) a ->
  DecodeRESP (S (S fuel)) (returnArray a +:+ rest)
  = Ok (mkValue Array EmptyString (map bulkValue a), rest).
Proof.
  intros Hlen Ha. rewrite returnArray_elements.
  rewrite !append_assoc, append_cons, append_nil_l, DecodeRESP_step.
  change (bool_decide ("*"%char = SimpleString)) with false.
  change (bool_decide ("*"%char = BulkString)) with false.
  change (bool_decide ("*"%char = Array)) with true. cbv iota.
  unfold decodeArray.
  rewrite readUntilCRLF_line by apply Itoa_noLF.
  cbn [wrapErr mbind outcome_bind bind].
  rewrite Atoi_Itoa by (apply inInt64_spec; lia).
  rewrite Nat2Z.id, decodeArray_loop_elements by exact Ha.
  reflexivity.
Qed.

(** ** C1: decoding what the reply encoders write *)

Lemma decode_returnInteger (fuel : nat) (i : Z) (rest : string) :
  DecodeRESP (S fuel) (returnInteger i +:+ rest) = Err (InvalidTypeByte ":").
Proof.
  unfold returnInteger.
  rewrite !append_assoc, append_cons, append_nil_l, DecodeRESP_step.
  reflexivity.
Qed.

Lemma DecodeRESP_no_fuel (s : stream) (res : Value * stream) :
  DecodeRESP 0 s <> Ok res.
Proof. discriminate. Qed.

Lemma roundTrips_decodes (r : Reply) : roundTrips r -> decodes r.
Proof. intros (fuel & v & _ & Hdec). exists fuel, v, EmptyString. exact Hdec. Qed.

(** C1, as stated, fails: the decoder has no case for the integer marker ':',
    so no integer reply is read back; the null bulk string "$-1\r\n" is
    refused (end-of-stream while reading its contents), and so is an array
    holding an empty string, which returnArray writes in the null form (when
    more bytes follow the null form inside an array, the decoder does not
    return at all: it panics); a status with a CRLF inside is cut at it. *)
Lemma roundtrip_fails_on_integer_and_null :
  ~ decodes (Integer 5) /\
  ~ decodes Null /\
  ~ decodes (Arr [EmptyString]) /\
  DecodeRESP 2 (encode (Arr [EmptyString; "a"%string])) = Panic SliceBoundsOutOfRange /\
  DecodeRESP 1 (encode (Status ("a" +:+ CRLF +:+ "b")))
  = Ok (mkValue SimpleString "a" [], ("b" +:+ CRLF)%string).
Proof.
  split; [| split; [| split; [| split]]].
  - intros (fuel & v & rest & Hdec).
    destruct fuel as [| fuel]; vm_compute in Hdec; discriminate Hdec.
  - intros (fuel & v & rest & Hdec).
    destruct fuel as [| fuel]; vm_compute in Hdec; discriminate Hdec.
  - intros (fuel & v & rest & Hdec).
    destruct fuel as [| [| fuel]]; vm_compute in Hdec; discriminate Hdec.
  - vm_compute. reflexivity.
  - vm_compute. reflexivity.
Qed.

(** The decoder's answer on an integer reply and on the null form, whatever
    the fuel: an error, never a value. *)
Lemma integer_and_null_are_refused (fuel : nat) :
  DecodeRESP (S fuel) (encode (Integer 5)) = Err (InvalidTypeByte ":") /\
  DecodeRESP (S fuel) (encode Null)
  = Err (Wrapped "failed to read bulk string contents" EOF).
Proof. split; vm_compute; reflexivity. Qed.

(** C1 (amended): a Status whose text has no CRLF inside, a BulkString and an
    Array of non-empty bulk strings are read back by the decoder from the
    bytes the reply encoder writes, and the decoder stops right after them;
    every Integer reply is refused with the invalid-type error. *)
Theorem decode_encode_readable (r : Reply) :
  readable r ->
  exists v, valueOf r = Some v /\
    (forall fuel rest, DecodeRESP (2 + fuel) (encode r +:+ rest) = Ok (v, rest)) /\
    roundTrips r /\
    (forall i fuel rest,
        DecodeRESP (S fuel) (encode (Integer i) +:+ rest) = Err (InvalidTypeByte ":")).
Proof.
  intros Hr.
  assert (Hdec : exists v, valueOf r = Some v /\
            forall fuel rest, DecodeRESP (2 + fuel) (encode r +:+ rest) = Ok (v, rest)).
  { destruct r as [text | i | s | | elements]; cbn [readable] in Hr;
      try contradiction; cbn [valueOf encode]; eexists; (split; [reflexivity |]);
      intros fuel rest.
    - now apply decode_returnSimpleString.
    - now apply decode_returnBulkString.
    - destruct Hr as [Hlen Hall]. now apply decode_returnArray. }
  destruct Hdec as (v & Hv & Hdec). exists v.
  split; [exact Hv |]. split; [exact Hdec |]. split.
  - exists 2%nat, v. split; [exact Hv |].
    specialize (Hdec 0%nat EmptyString). now rewrite append_nil_r in Hdec.
  - intros i fuel rest. apply decode_returnInteger.
Qed.

Lemma decode_encode_readable_witness :
  readable (Arr ["GET"%string; "key"%string]) /\
  exists v, valueOf (Arr ["GET"%string; "key"%string]) = Some v /\
    (forall fuel rest,
        DecodeRESP (2 + fuel) (encode (Arr ["GET"%string; "key"%string]) +:+ rest)
        = Ok (v, rest)) /\
    roundTrips (Arr ["GET"%string; "key"%string]) /\
    (forall i fuel rest,
        DecodeRESP (S fuel) (encode (Integer i) +:+ rest) = Err (InvalidTypeByte ":")).
Proof.
  assert (H : readable (Arr ["GET"%string; "key"%string])).
  { split; [vm_compute; reflexivity |].
    repeat constructor; try discriminate. }
  split; [exact H | exact (decode_encode_readable _ H)].
Defined.

(** ** C2: bulk strings with a negative declared length *)

Lemma decodeBulkString_header (count : Z) (rest : string) :
  inInt64 count = true ->
  decodeBulkString (Itoa count +:+ CRLF +:+ rest)
  = (let n := wrap64 (count + 2) in
     if n <? 0 then Panic MakesliceLenOutOfRange
     else
       '(readBytes, rest') ←
          wrapErr "failed to read bulk string contents" (ReadFull n rest);
       if (count <? 0) || (n <? count) then Panic SliceBoundsOutOfRange
       else Ok (mkValue BulkString
                  (String.substring 0 (Z.to_nat count) readBytes) [], rest')).
Proof.
  intros Hc. unfold decodeBulkString.
  rewrite readUntilCRLF_line by apply Itoa_noLF.
  cbn [wrapErr mbind outcome_bind bind]. rewrite Atoi_Itoa by exact Hc.
  reflexivity.
Qed.

(** C2: the code does not do what the specification says.  A negative declared
    length is parsed by Atoi without an error and decodeBulkString goes on:
    with "$-2\r\n" it slices the buffer at -2 and panics, with "$-3\r\n" it
    panics allocating the buffer, with "$-1\r\n" it panics as soon as one
    more byte follows, and returns an error only at end-of-stream. *)
Theorem decodeBulkString_negative_length_panics :
  (forall fuel rest,
      DecodeRESP (S fuel) ("$-2" +:+ CRLF +:+ rest) = Panic SliceBoundsOutOfRange) /\
  (forall fuel rest,
      DecodeRESP (S fuel) ("$-3" +:+ CRLF +:+ rest) = Panic MakesliceLenOutOfRange) /\
  (forall fuel c rest,
      DecodeRESP (S fuel) ("$-1" +:+ CRLF +:+ String c rest)
      = Panic SliceBoundsOutOfRange) /\
  (forall fuel,
      DecodeRESP (S fuel) ("$-1" +:+ CRLF)
      = Err (Wrapped "failed to read bulk string contents" EOF)).
Proof.
  split; [| split; [| split]].
  - intros fuel rest.
    change ("$-2" +:+ CRLF +:+ rest)%string
      with (String "$" (Itoa (-2) +:+ CRLF +:+ rest)).
    rewrite DecodeRESP_step.
    change (bool_decide ("$"%char = SimpleString)) with false.
    change (bool_decide ("$"%char = BulkString)) with true. cbv iota.
    rewrite decodeBulkString_header by reflexivity. reflexivity.
  - intros fuel rest.
    change ("$-3" +:+ CRLF +:+ rest)%string
      with (String "$" (Itoa (-3) +:+ CRLF +:+ rest)).
    rewrite DecodeRESP_step.
    change (bool_decide ("$"%char = SimpleString)) with false.
    change (bool_decide ("$"%char = BulkString)) with true. cbv iota.
    rewrite decodeBulkString_header by reflexivity. reflexivity.
  - intros fuel c rest.
    change ("$-1" +:+ CRLF +:+ String c rest)%string
      with (String "$" (Itoa (-1) +:+ CRLF +:+ String c rest)).
    rewrite DecodeRESP_step.
    change (bool_decide ("$"%char = SimpleString)) with false.
    change (bool_decide ("$"%char = BulkString)) with true. cbv iota.
    rewrite decodeBulkString_header by reflexivity.
    change (wrap64 (-1 + 2)) with 1. cbv zeta.
    change (1 <? 0) with false. cbv iota. unfold ReadFull.
    change (1 =? 0) with false. cbv iota.
    assert (Hlen : 1 <= len (String c rest)).
    { unfold len. cbn [String.length]. lia. }
    destruct (Z.eqb_spec (len (String c rest)) 0); [lia |].
    destruct (Z.ltb_spec (len (String c rest)) 1); [lia |].
    reflexivity.
  - intros fuel. vm_compute. reflexivity.
Qed.

(** What is right in C2: a declared length that is not a decimal number is an
    error, and so is a stream that ends before length+2 bytes. *)
Example decodeBulkString_errors :
  DecodeRESP 1 ("$x" +:+ CRLF +:+ "abc")
  = Err (Wrapped "failed to parse bulk string length" ErrSyntax) /\
  DecodeRESP 1 ("$4" +:+ CRLF +:+ "abc" +:+ CRLF)
  = Err (Wrapped "failed to read bulk string contents" ErrUnexpectedEOF) /\
  DecodeRESP 1 ("$4" +:+ CRLF)
  = Err (Wrapped "failed to read bulk string contents" EOF).
Proof. repeat split; vm_compute; reflexivity. Qed.

(** ** The selected database *)

Lemma index_lookup {A} (a : list A) (i : Z) (x : A) :
  0 <= i -> a !! Z.to_nat i = Some x -> index a i = Ok x.
Proof.
  intros Hi Hx. unfold index.
  destruct (Z.ltb_spec i 0); [lia |]. now rewrite Hx.
Qed.

Lemma onSelected_lookup {A} (f : Database -> A * Database) (redis : RedisServer)
    (db : Database) :
  0 <= selectedDB redis ->
  databases redis !! Z.to_nat (selectedDB redis) = Some db ->
  onSelected f redis
  = Ok ((f db).1,
        mkServer (<[Z.to_nat (selectedDB redis) := (f db).2]> (databases redis))
          (selectedDB redis) (disk redis)).
Proof.
  intros Hi Hdb. unfold onSelected. rewrite (index_lookup _ _ db Hi Hdb).
  cbn [mbind outcome_bind bind]. now destruct (f db).
Qed.

(** A database put back unchanged leaves the server as it was. *)
Lemma server_unchanged (redis : RedisServer) (db : Database) :
  databases redis !! Z.to_nat (selectedDB redis) = Some db ->
  mkServer (<[Z.to_nat (selectedDB redis) := db]> (databases redis))
    (selectedDB redis) (disk redis) = redis.
Proof. intros Hdb. rewrite list_insert_id by exact Hdb. now destruct redis. Qed.

(** ** C8: Set and the expiry map *)

(** C8: for a key with an expiry entry, Set(key, value) stores the value and
    leaves the expiry map as it was: the key's expiry instant is the same
    after as before, and no other key's value or expiry changes. *)
Theorem Set_keeps_expiry (key value : string) (db : Database) (expire : Time) :
  ExpireKeys db !! key = Some expire ->
  StringKeys (Set_ key value db) !! key = Some value /\
  ExpireKeys (Set_ key value db) !! key = Some expire /\
  ExpireKeys (Set_ key value db) = ExpireKeys db /\
  (forall other, other <> key ->
     StringKeys (Set_ key value db) !! other = StringKeys db !! other).
Proof.
  intros Hexp. cbn [Set_ withStringKeys StringKeys ExpireKeys].
  split; [apply lookup_insert_eq |]. split; [exact Hexp |].
  split; [reflexivity |].
  intros other Hne. apply lookup_insert_ne. congruence.
Qed.

Lemma Set_keeps_expiry_witness :
  let db := Setpx 1000 "k" 5000 "old" (NewDatabase 0) in
  ExpireKeys db !! "k"%string = Some 5000001000 /\
  StringKeys (Set_ "k" "new" db) !! "k"%string = Some "new"%string /\
  ExpireKeys (Set_ "k" "new" db) !! "k"%string = Some 5000001000.
Proof.
  intros db.
  assert (H : ExpireKeys db !! "k"%string = Some 5000001000)
    by (vm_compute; reflexivity).
  split; [exact H |].
  destruct (Set_keeps_expiry "k" "new" db 5000001000 H) as (Hv & He & _).
  split; [exact Hv | exact He].
Defined.

(** The SET command with a key and a value and no option is this Set, on the
    selected database only; Setpx, behind the EX and PX options, is what
    writes the expiry map. *)
Lemma setCommand_plain (now : Time) (key value : string) (redis : RedisServer)
    (db : Database) :
  0 <= selectedDB redis ->
  databases redis !! Z.to_nat (selectedDB redis) = Some db ->
  setCommand now [key; value] redis
  = Ok (returnSimpleString "OK",
        mkServer (<[Z.to_nat (selectedDB redis) := Set_ key value db]> (databases redis))
          (selectedDB redis) (disk redis)).
Proof.
  intros Hi Hdb. unfold setCommand. cbn [checkNumberOfArguments length negb].
  change (2 <=? Z.of_nat 2) with true. change (3 <=? Z.of_nat 2) with false.
  cbv iota. cbn [negb]. cbv iota.
  change (index [key; value] 0) with (Ok (A := string) key).
  change (index [key; value] 1) with (Ok (A := string) value).
  cbn [mbind outcome_bind bind].
  rewrite (onSelected_lookup _ _ db Hi Hdb). reflexivity.
Qed.

Lemma Setpx_writes_expiry (now : Time) (key value : string) (milliseconds : Z)
    (db : Database) :
  ExpireKeys (Setpx now key milliseconds value db) !! key
  = Some (now + Milliseconds milliseconds).
Proof. cbn. apply lookup_insert_eq. Qed.

(** ** C9: Save and Load when the file system fails *)

Lemma Save_keeps_database (io : SaveIO) (files : Disk) (db : Database) :
  (Save io files db).2 = db.
Proof. now destruct io. Qed.

Lemma Load_failure (files : Disk) (fileName : string) (db : Database) :
  loadedFile files fileName db = None \/
  loadedFile files fileName db = Some Damaged ->
  Load files fileName db = db.
Proof. unfold loadedFile, Load. intros [-> | ->]; reflexivity. Qed.

(** C9: when Save cannot create or write the file, and when Load cannot open
    or decode it, the value map and the expiry map of every database are
    what they were, and the SAVE or LOAD command still replies +OK. *)
Theorem persistence_failure_is_masked (redis : RedisServer) (db : Database) :
  0 <= selectedDB redis ->
  databases redis !! Z.to_nat (selectedDB redis) = Some db ->
  (forall args,
     saveCommand CreateFails args redis = Ok (returnSimpleString "OK", redis)) /\
  (forall args,
     saveCommand EncodeFails args redis
     = Ok (returnSimpleString "OK",
           mkServer (databases redis) (selectedDB redis)
             (<[dumpName db := Damaged]> (disk redis)))) /\
  (forall fileName args,
     loadedFile (disk redis) fileName db = None \/
     loadedFile (disk redis) fileName db = Some Damaged ->
     loadCommand (fileName :: args) redis = Ok (returnSimpleString "OK", redis)).
Proof.
  intros Hi Hdb.
  assert (Hsave : forall io args,
            saveCommand io args redis
            = Ok (returnSimpleString "OK",
                  mkServer (databases redis) (selectedDB redis)
                    (Save io (disk redis) db).1)).
  { intros io args. unfold saveCommand.
    rewrite (index_lookup _ _ db Hi Hdb). cbn [mbind outcome_bind bind].
    pose proof (Save_keeps_database io (disk redis) db) as Hkeep.
    destruct (Save io (disk redis) db) as [files db']. cbn in Hkeep. subst db'.
    unfold reply. rewrite list_insert_id by exact Hdb. reflexivity. }
  split; [| split].
  - intros args. rewrite Hsave. cbn [Save fst]. now destruct redis.
  - intros args. rewrite Hsave. reflexivity.
  - intros fileName args Hfail. unfold loadCommand.
    assert (Hn : checkNumberOfArguments (fileName :: args) 1 = true).
    { unfold checkNumberOfArguments. cbn [length]. apply Z.leb_le. lia. }
    rewrite Hn. cbn [negb].
    assert (Hpos : (0 <? Z.of_nat (length (fileName :: args))) = true).
    { cbn [length]. apply Z.ltb_lt. lia. }
    rewrite Hpos. change (index (fileName :: args) 0) with (Ok (A := string) fileName).
    cbn [mbind outcome_bind bind].
    rewrite (onSelected_lookup _ _ db Hi Hdb). cbn [fst snd].
    rewrite (Load_failure _ _ _ Hfail), (server_unchanged _ _ Hdb). reflexivity.
Qed.

Lemma persistence_failure_is_masked_witness :
  let db := Setpx 1000 "k" 5000 "v" (NewDatabase 0) in
  let redis := mkServer [db; NewDatabase 1] 0 {[ "broken.db"%string := Damaged ]} in
  let failed := mkServer [db; NewDatabase 1] 0
                  {[ "broken.db"%string := Damaged;
                     "database_0_dump.db"%string := Damaged ]} in
  StringKeys db !! "k"%string = Some "v"%string /\
  ExpireKeys db !! "k"%string = Some 5000001000 /\
  saveCommand CreateFails [] redis = Ok (returnSimpleString "OK", redis) /\
  saveCommand EncodeFails [] redis = Ok (returnSimpleString "OK", failed) /\
  loadCommand ["broken.db"%string] redis = Ok (returnSimpleString "OK", redis) /\
  loadCommand ["missing.db"%string] redis = Ok (returnSimpleString "OK", redis) /\
  loadCommand [EmptyString] failed = Ok (returnSimpleString "OK", failed).
Proof.
  intros db redis failed.
  assert (Hi : 0 <= selectedDB redis) by (vm_compute; discriminate).
  assert (Hdb : databases redis !! Z.to_nat (selectedDB redis) = Some db)
    by reflexivity.
  destruct (persistence_failure_is_masked redis db Hi Hdb)
    as (Hcreate & Hencode & Hload).
  destruct (persistence_failure_is_masked failed db Hi Hdb) as (_ & _ & Hload').
  split; [vm_compute; reflexivity |]. split; [vm_compute; reflexivity |].
  split; [apply Hcreate |]. split; [| split; [| split]].
  - rewrite Hencode. vm_compute. reflexivity.
  - apply Hload. right. vm_compute. reflexivity.
  - apply Hload. left. vm_compute. reflexivity.
  - apply Hload'. right. vm_compute. reflexivity.
Defined.

(** ** C4: what Load does to the maps *)

(** C4, as stated, fails: a key of the prior state that the snapshot does not
    hold is still there after Load, with its value and its expiry. *)
Lemma Load_keeps_keys_absent_from_snapshot :
  let prior := Setpx 0 "old" 5000 "1" (NewDatabase 0) in
  let files : Disk := {[ "dump.db"%string := GobImage {[ "new"%string := "2"%string ]} ∅ ]} in
  let restored := Load files "dump.db" prior in
  StringKeys restored !! "new"%string = Some "2"%string /\
  StringKeys restored !! "old"%string = Some "1"%string /\
  ExpireKeys restored !! "old"%string = Some 5000000000.
Proof. vm_compute. repeat split; reflexivity. Qed.

(** C4 (amended): Load writes the entries of the snapshot over the maps the
    engine holds, each map on its own.  A key of the snapshot's value map
    has the snapshot's value afterwards, a key of the snapshot's expiry map
    the snapshot's expiry; a key the snapshot's value map does not hold
    keeps the value it had, and a key the snapshot's expiry map does not
    hold keeps the expiry it had, also when the snapshot brings a value for
    it (a merge, not a replacement). *)
Theorem Load_overlays_snapshot (files : Disk) (fileName : string) (db : Database)
    (stringKeys : gmap string string) (expireKeys : gmap string Time) :
  loadedFile files fileName db = Some (GobImage stringKeys expireKeys) ->
  let restored := Load files fileName db in
  (forall key value, stringKeys !! key = Some value ->
     StringKeys restored !! key = Some value) /\
  (forall key expire, expireKeys !! key = Some expire ->
     ExpireKeys restored !! key = Some expire) /\
  (forall key, stringKeys !! key = None ->
     StringKeys restored !! key = StringKeys db !! key) /\
  (forall key, expireKeys !! key = None ->
     ExpireKeys restored !! key = ExpireKeys db !! key).
Proof.
  unfold loadedFile, Load. intros ->.
  cbn [gobDecodeInto StringKeys ExpireKeys].
  repeat split; intros key.
  - intros value Hv. now apply lookup_union_Some_l.
  - intros expire He. now apply lookup_union_Some_l.
  - intros Hv. now apply lookup_union_r.
  - intros He. now apply lookup_union_r.
Qed.

Lemma Load_overlays_snapshot_witness :
  let prior := Setpx 0 "k" 5000 "1" (Set_ "old" "0" (NewDatabase 0)) in
  let files : Disk := {[ "dump.db"%string := GobImage {[ "k"%string := "2"%string ]} ∅ ]} in
  let restored := Load files "dump.db" prior in
  StringKeys restored !! "k"%string = Some "2"%string /\
  ExpireKeys restored !! "k"%string = Some 5000000000 /\
  StringKeys restored !! "old"%string = Some "0"%string.
Proof.
  intros prior files restored.
  assert (H : loadedFile files "dump.db" prior
              = Some (GobImage {[ "k"%string := "2"%string ]} ∅))
    by (vm_compute; reflexivity).
  destruct (Load_overlays_snapshot files "dump.db" prior _ _ H)
    as (Hvalue & _ & Hkeep & Hexpiry).
  split; [| split].
  - apply Hvalue. vm_compute. reflexivity.
  - unfold restored. rewrite Hexpiry by (vm_compute; reflexivity).
    vm_compute. reflexivity.
  - unfold restored. rewrite Hkeep by (vm_compute; reflexivity).
    vm_compute. reflexivity.
Defined.

(** ** Reading a key: Get and the lazy purge *)

Lemma checkAndRemoveExpiredKey_spec (now : Time) (key : string) (db : Database) :
  checkAndRemoveExpiredKey now key db
  = if expired now key db then (true, purge key db) else (false, db).
Proof.
  unfold checkAndRemoveExpiredKey, expired, purge.
  destruct (ExpireKeys db !! key) as [expire |]; [| reflexivity].
  now destruct (After now expire).
Qed.

Lemma Get_spec (now : Time) (key : string) (db : Database) :
  Get now key db
  = match StringKeys db !! key with
    | None => (EmptyString, db)
    | Some storage =>
        if expired now key db then (EmptyString, purge key db) else (storage, db)
    end.
Proof.
  unfold Get. destruct (StringKeys db !! key) as [storage |]; [| reflexivity].
  rewrite checkAndRemoveExpiredKey_spec. now destruct (expired now key db).
Qed.

Lemma Get_present (now : Time) (key storage : string) (db : Database) :
  StringKeys db !! key = Some storage -> expired now key db = false ->
  Get now key db = (storage, db).
Proof. intros Hs He. now rewrite Get_spec, Hs, He. Qed.

Lemma Get_empty_iff (now : Time) (key : string) (db : Database) :
  (Get now key db).1 = EmptyString <-> ~ present now key db.
Proof.
  rewrite Get_spec. unfold present.
  destruct (StringKeys db !! key) as [storage |] eqn:Hs.
  - destruct (expired now key db) eqn:He; cbn [fst].
    + split; [| reflexivity]. intros _ (s & _ & _ & Hf). discriminate Hf.
    + split.
      * intros -> (s & [= <-] & Hne & _). congruence.
      * intros Hnot. destruct (decide (storage = EmptyString)) as [| Hne]; [assumption |].
        exfalso. apply Hnot. eauto.
  - cbn [fst]. split; [| reflexivity]. intros _ (s & Hf & _). discriminate Hf.
Qed.

Lemma Get_nonempty_iff (now : Time) (key : string) (db : Database) :
  (Get now key db).1 <> EmptyString <-> present now key db.
Proof.
  split.
  - rewrite Get_spec. unfold present.
    destruct (StringKeys db !! key) as [storage |]; [| intros []; reflexivity].
    destruct (expired now key db); cbn [fst]; [intros []; reflexivity |].
    intros Hne. eauto.
  - intros Hp Hempty. now apply Get_empty_iff in Hempty.
Qed.

(** Get changes the database only by purging the key, when it has expired. *)
Lemma Get_state (now : Time) (key : string) (db : Database) :
  (Get now key db).2 = db \/ (Get now key db).2 = purge key db.
Proof.
  rewrite Get_spec. destruct (StringKeys db !! key); [| now left].
  destruct (expired now key db); [now right | now left].
Qed.

(** ** C3: incrementing a value that is not an integer *)






(** ** C6: TTL *)

Lemma TTL_spec (now later : Time) (key : string) (db : Database) :
  (TTL now later key db).1
  = match StringKeys db !! key with
    | None => -2
    | Some storage =>
        if expired now key db then -2
        else if bool_decide (storage = EmptyString) then -2
        else match ExpireKeys db !! key with
             | None => -1
             | Some expire =>
                 if bool_decide (expire = zeroTime) then -1
                 else secondsUntil later expire
             end
    end.
Proof.
  unfold TTL. rewrite Get_spec.
  destruct (StringKeys db !! key) as [storage |]; [| reflexivity].
  destruct (expired now key db); [reflexivity |].
  destruct (bool_decide (storage = EmptyString)); [reflexivity |].
  unfold GetExpire. destruct (ExpireKeys db !! key) as [expire |]; [| reflexivity].
  now destruct (bool_decide (expire = zeroTime)).
Qed.

Lemma TTL_not_present (now later : Time) (key : string) (db : Database) :
  ~ present now key db -> (TTL now later key db).1 = -2.
Proof.
  intros Hnot%Get_empty_iff. unfold TTL.
  destruct (Get now key db) as [storage db1]. cbn [fst] in Hnot. subst storage.
  reflexivity.
Qed.

(** *** The rounding of float64

    The whole number nearest to n/d: within a half of it, at or beyond
    every whole number on the same side. *)
Lemma roundEven_le (n d m : Z) : 0 < d -> n <= m * d -> roundEven n d <= m.
Proof.
  intros Hd Hn. unfold roundEven.
  pose proof (Z.div_mod n d ltac:(lia)) as Hdm.
  pose proof (Z.mod_pos_bound n d Hd) as Hr.
  destruct (Z.compare_spec (2 * (n mod d)) d); [destruct (Z.even (n / d)) | |]; nia.
Qed.

Lemma roundEven_ge (n d m : Z) : 0 < d -> m * d <= n -> m <= roundEven n d.
Proof.
  intros Hd Hn. unfold roundEven.
  pose proof (Z.div_mod n d ltac:(lia)) as Hdm.
  pose proof (Z.mod_pos_bound n d Hd) as Hr.
  destruct (Z.compare_spec (2 * (n mod d)) d); [destruct (Z.even (n / d)) | |]; nia.
Qed.

Lemma roundEven_error (n d : Z) :
  0 < d -> - d <= 2 * (roundEven n d * d - n) <= d.
Proof.
  intros Hd. unfold roundEven.
  pose proof (Z.div_mod n d ltac:(lia)) as Hdm.
  pose proof (Z.mod_pos_bound n d Hd) as Hr.
  destruct (Z.compare_spec (2 * (n mod d)) d); [destruct (Z.even (n / d)) | |]; nia.
Qed.

Lemma spacing_le (n d j : Z) :
  0 < d -> 0 <= j -> Z.abs n < 2 ^ (53 + j) * d ->
  Z.log2 (Z.abs n / d) - 52 <= j.
Proof.
  intros Hd Hj Hn.
  assert (Hq : Z.abs n / d < 2 ^ (53 + j)).
  { apply Z.div_lt_upper_bound; lia. }
  assert (H0 : 0 <= Z.abs n / d) by (apply Z.div_pos; lia).
  destruct (Z.eq_dec (Z.abs n / d) 0) as [-> | Hne]; [cbn; lia |].
  assert (Z.log2 (Z.abs n / d) < 53 + j); [| lia].
  apply Z.log2_lt_pow2; lia.
Qed.

Lemma round64_le (n d a j : Z) :
  0 < d -> 0 <= j -> Z.abs n < 2 ^ (53 + j) * d ->
  n <= a * 2 ^ j * d -> round64 n d <= a * 2 ^ j.
Proof.
  intros Hd Hj Habs Hn. unfold round64.
  pose proof (spacing_le n d j Hd Hj Habs) as Hk.
  set (k := Z.log2 (Z.abs n / d) - 52) in *.
  destruct (Z.leb_spec k 0) as [Hk0 | Hk0].
  - now apply roundEven_le.
  - assert (Hpow : 2 ^ j = 2 ^ (j - k) * 2 ^ k).
    { rewrite <- Z.pow_add_r by lia. f_equal. lia. }
    assert (H2k : 0 < 2 ^ k) by (apply Z.pow_pos_nonneg; lia).
    rewrite Hpow, Z.mul_assoc.
    apply Z.mul_le_mono_nonneg_r; [lia |].
    apply roundEven_le; [nia |]. rewrite Hpow in Hn. nia.
Qed.

Lemma round64_ge (n d a j : Z) :
  0 < d -> 0 <= j -> Z.abs n < 2 ^ (53 + j) * d ->
  a * 2 ^ j * d <= n -> a * 2 ^ j <= round64 n d.
Proof.
  intros Hd Hj Habs Hn. unfold round64.
  pose proof (spacing_le n d j Hd Hj Habs) as Hk.
  set (k := Z.log2 (Z.abs n / d) - 52) in *.
  destruct (Z.leb_spec k 0) as [Hk0 | Hk0].
  - now apply roundEven_ge.
  - assert (Hpow : 2 ^ j = 2 ^ (j - k) * 2 ^ k).
    { rewrite <- Z.pow_add_r by lia. f_equal. lia. }
    assert (H2k : 0 < 2 ^ k) by (apply Z.pow_pos_nonneg; lia).
    rewrite Hpow, Z.mul_assoc.
    apply Z.mul_le_mono_nonneg_r; [lia |].
    apply roundEven_ge; [nia |]. rewrite Hpow in Hn. nia.
Qed.

Lemma round64_error (n d j : Z) :
  0 < d -> 0 <= j -> Z.abs n < 2 ^ (53 + j) * d ->
  - (2 ^ j * d) <= 2 * (round64 n d * d - n) <= 2 ^ j * d.
Proof.
  intros Hd Hj Habs. unfold round64.
  pose proof (spacing_le n d j Hd Hj Habs) as Hk.
  set (k := Z.log2 (Z.abs n / d) - 52) in *.
  assert (H2j : 1 <= 2 ^ j) by (apply (Z.pow_le_mono_r 2 0 j); lia).
  destruct (Z.leb_spec k 0) as [Hk0 | Hk0].
  - pose proof (roundEven_error n d Hd). nia.
  - assert (H2k : 0 < 2 ^ k) by (apply Z.pow_pos_nonneg; lia).
    assert (Hkj : 2 ^ k <= 2 ^ j) by (apply Z.pow_le_mono_r; lia).
    pose proof (roundEven_error n (d * 2 ^ k) ltac:(nia)). nia.
Qed.

(** *** Duration.Seconds *)

Lemma unit64_split : unit64 = 2 ^ 53 * 2 ^ 1021.
Proof. unfold unit64. rewrite <- Z.pow_add_r by lia. reflexivity. Qed.

Lemma pow_unit64 (j : Z) : 0 <= j -> 2 ^ (j + 1074) = 2 ^ j * unit64.
Proof. intros Hj. unfold unit64. now rewrite Z.pow_add_r by lia. Qed.

Lemma unit64_pos : 0 < unit64.
Proof. unfold unit64. apply Z.pow_pos_nonneg; lia. Qed.

(** An int below 2^53 in magnitude is a float64. *)
Lemma float64_of_int_exact (i : Z) :
  Z.abs i < 2 ^ 53 -> float64_of_int i = i * unit64.
Proof.
  intros Hi. unfold float64_of_int.
  pose proof unit64_pos as HU.
  assert (Habs : Z.abs (i * unit64) < 2 ^ (53 + 1074) * 1).
  { rewrite (pow_unit64 53) by lia. rewrite Z.abs_mul, (Z.abs_eq unit64) by lia. nia. }
  apply Z.le_antisymm.
  - change (i * unit64) with (i * 2 ^ 1074) at 2.
    apply round64_le; [lia | lia | exact Habs |]. unfold unit64. lia.
  - change (i * unit64) with (i * 2 ^ 1074) at 1.
    apply round64_ge; [lia | lia | exact Habs |]. unfold unit64. lia.
Qed.

(** The float64 quotient of a number of nanoseconds below a second by 1e9
    stays within [almostOne] of zero. *)
Lemma float64_div_nsec (nsec : Z) :
  - 1000000000 < nsec < 1000000000 ->
  (0 <= nsec -> 0 <= float64_div (nsec * unit64) (1000000000 * unit64) <= almostOne) /\
  (nsec <= 0 -> - almostOne <= float64_div (nsec * unit64) (1000000000 * unit64) <= 0).
Proof.
  intros Hn. unfold float64_div, almostOne.
  pose proof unit64_pos as HU.
  assert (Hd : 0 < 1000000000 * unit64) by lia.
  assert (Habs : Z.abs (nsec * unit64 * unit64)
                 < 2 ^ (53 + 1021) * (1000000000 * unit64)).
  { change (2 ^ (53 + 1021)) with unit64.
    rewrite !Z.abs_mul, (Z.abs_eq unit64) by lia. nia. }
  pose proof unit64_split as HS.
  assert (HP : 0 < 2 ^ 1021) by (apply Z.pow_pos_nonneg; lia).
  split; intros Hsign; split.
  - change 0 with (0 * 2 ^ 1021). apply round64_ge; [lia | lia | exact Habs | nia].
  - apply round64_le; [lia | lia | exact Habs |].
    rewrite HS. set (P := 2 ^ 1021) in *. clearbody P. nia.
  - replace (- (9007199245733794 * 2 ^ 1021)) with ((- 9007199245733794) * 2 ^ 1021) by lia.
    apply round64_ge; [lia | lia | exact Habs |].
    rewrite HS. set (P := 2 ^ 1021) in *. clearbody P. nia.
  - change 0 with (0 * 2 ^ 1021). apply round64_le; [lia | lia | exact Habs | nia].
Qed.

Lemma almostOne_gap : almostOne + 2 ^ 1044 < unit64.
Proof.
  unfold almostOne. rewrite unit64_split.
  replace (2 ^ 1044) with (2 ^ 23 * 2 ^ 1021)
    by (rewrite <- Z.pow_add_r by lia; reflexivity).
  assert (HP : 0 < 2 ^ 1021) by (apply Z.pow_pos_nonneg; lia).
  set (P := 2 ^ 1021) in *. clearbody P. lia.
Qed.


(** d / Second and d % Second: the quotient is cut toward zero, the
    remainder has the sign of d. *)
Lemma quot_rem_second (d : Z) :
  d = 1000000000 * Z.quot d 1000000000 + Z.rem d 1000000000 /\
  - 1000000000 < Z.rem d 1000000000 < 1000000000 /\
  (0 <= d -> 0 <= Z.rem d 1000000000) /\
  (d <= 0 -> Z.rem d 1000000000 <= 0).
Proof.
  split; [apply Z.quot_rem' |].
  pose proof (Z.rem_bound_abs d 1000000000 ltac:(lia)) as Habs.
  split; [lia |]. split; intros Hd.
  - apply Z.rem_nonneg; lia.
  - rewrite <- (Z.opp_involutive d), Z.rem_opp_l by lia.
    pose proof (Z.rem_nonneg (- d) 1000000000 ltac:(lia) ltac:(lia)). lia.
Qed.

(** What Duration.Seconds returns, between the whole seconds below and
    above; the sum is the whole second itself when no nanosecond is left. *)
Lemma Duration_Seconds_bounds (d : Z) :
  - 2 ^ 63 <= d < 2 ^ 63 ->
  let sec := Z.quot d 1000000000 in
  (0 <= d -> sec * unit64 <= Duration_Seconds d <= (sec + 1) * unit64) /\
  (d <= 0 -> (sec - 1) * unit64 <= Duration_Seconds d <= sec * unit64) /\
  (Z.rem d 1000000000 = 0 -> Duration_Seconds d = sec * unit64).
Proof.
  intros Hd sec. unfold Duration_Seconds. fold sec.
  destruct (quot_rem_second d) as (Hqr & Hnsec & Hnpos & Hnneg). fold sec in Hqr.
  set (nsec := Z.rem d 1000000000) in *.
  pose proof unit64_pos as HU. pose proof almostOne_gap as Hgap.
  assert (H44 : 0 < 2 ^ 1044) by (apply Z.pow_pos_nonneg; lia).
  assert (Hsec : - 2 ^ 34 < sec < 2 ^ 34) by lia.
  rewrite (float64_of_int_exact sec) by lia.
  rewrite (float64_of_int_exact nsec) by lia.
  rewrite (float64_of_int_exact 1000000000) by lia.
  destruct (float64_div_nsec nsec Hnsec) as [Hpos Hneg].
  set (q := float64_div (nsec * unit64) (1000000000 * unit64)) in *.
  unfold float64_add.
  assert (Hq : - unit64 < q < unit64).
  { destruct (Z.le_gt_cases 0 nsec);
      [specialize (Hpos ltac:(lia)) | specialize (Hneg ltac:(lia))]; lia. }
  assert (Habs : Z.abs (sec * unit64 + q) < 2 ^ (53 + 1074) * 1).
  { rewrite (pow_unit64 53) by lia. apply Z.abs_lt. nia. }
  clearbody q. split; [| split].
  - intros H. specialize (Hpos ltac:(lia)). split.
    + change (sec * unit64) with (sec * 2 ^ 1074) at 1.
      apply round64_ge; [lia | lia | exact Habs |]. fold unit64. lia.
    + change ((sec + 1) * unit64) with ((sec + 1) * 2 ^ 1074).
      apply round64_le; [lia | lia | exact Habs |]. fold unit64. lia.
  - intros H. specialize (Hneg ltac:(lia)). split.
    + change ((sec - 1) * unit64) with ((sec - 1) * 2 ^ 1074).
      apply round64_ge; [lia | lia | exact Habs |]. fold unit64. lia.
    + change (sec * unit64) with (sec * 2 ^ 1074) at 2.
      apply round64_le; [lia | lia | exact Habs |]. fold unit64. lia.
  - intros Hz. assert (Hq0 : q = 0).
    { specialize (Hpos ltac:(lia)). specialize (Hneg ltac:(lia)). lia. }
    rewrite Hq0, Z.add_0_r. apply (float64_of_int_exact sec). lia.
Qed.

(** Below 2^24 seconds the float64 sum does not reach the next whole second:
    the conversion gives the seconds cut toward zero. *)
Lemma Duration_Seconds_exact (d : Z) :
  - (2 ^ 24 * 1000000000) < d < 2 ^ 24 * 1000000000 ->
  int_of_float64 (Duration_Seconds d) = Z.quot d 1000000000.
Proof.
  intros Hd. unfold int_of_float64.
  destruct (Duration_Seconds_bounds d ltac:(lia)) as (Hpos & Hneg & _).
  cbv zeta in Hpos, Hneg.
  destruct (quot_rem_second d) as (Hqr & Hnsec & Hnpos & Hnneg).
  set (sec := Z.quot d 1000000000) in *.
  unfold Duration_Seconds in *. fold sec in Hpos, Hneg |- *.
  set (nsec := Z.rem d 1000000000) in *.
  pose proof unit64_pos as HU. pose proof almostOne_gap as Hgap.
  assert (Hsec : - 2 ^ 24 < sec < 2 ^ 24) by lia.
  rewrite (float64_of_int_exact sec) in * by lia.
  rewrite (float64_of_int_exact nsec) in * by lia.
  rewrite (float64_of_int_exact 1000000000) in * by lia.
  destruct (float64_div_nsec nsec Hnsec) as [Hqpos Hqneg].
  set (q := float64_div (nsec * unit64) (1000000000 * unit64)) in *.
  assert (Herr : Z.abs (sec * unit64 + q) < 2 ^ (53 + 1045) * 1 ->
                 - (2 ^ 1045 * 1)
                 <= 2 * (float64_add (sec * unit64) q * 1 - (sec * unit64 + q))
                 <= 2 ^ 1045 * 1).
  { intros H. apply round64_error; [lia | lia | exact H]. }
  assert (H98 : 2 ^ (53 + 1045) = 2 ^ 24 * unit64) by (apply (pow_unit64 24); lia).
  assert (H45 : 2 ^ 1045 = 2 * 2 ^ 1044)
    by (change 1045 with (1 + 1044); rewrite Z.pow_add_r by lia; reflexivity).
  rewrite H98, H45 in Herr.
  assert (H44 : 0 < 2 ^ 1044) by (apply Z.pow_pos_nonneg; lia).
  set (g := 2 ^ 1044) in *. clearbody g.
  set (s := float64_add (sec * unit64) q) in *. clearbody s. clearbody q.
  destruct (Z.le_gt_cases 0 d) as [Hd0 | Hd0].
  - specialize (Hqpos ltac:(lia)). specialize (Hpos ltac:(lia)).
    assert (Hlt : s < (sec + 1) * unit64).
    { specialize (Herr ltac:(apply Z.abs_lt; nia)). nia. }
    symmetry. apply (Z.quot_unique s unit64 sec (s - sec * unit64)); nia.
  - specialize (Hqneg ltac:(lia)). specialize (Hneg ltac:(lia)).
    assert (Hlt : (sec - 1) * unit64 < s).
    { specialize (Herr ltac:(apply Z.abs_lt; nia)). nia. }
    rewrite <- (Z.opp_involutive s), Z.quot_opp_l by lia.
    assert (Hq : Z.quot (- s) unit64 = - sec); [| lia].
    symmetry. apply (Z.quot_unique (- s) unit64 (- sec) (- s + sec * unit64)); nia.
Qed.

Lemma Time_Sub_in_range (t u : Time) :
  - 2 ^ 63 <= t - u < 2 ^ 63 -> Time_Sub t u = t - u.
Proof. unfold Time_Sub. lia. Qed.

(** int(time.Until(expire).Seconds()): the seconds cut toward zero when
    less than 2^24 seconds are left or have passed. *)
Lemma secondsUntil_exact (now expire : Time) :
  - (2 ^ 24 * 1000000000) < expire - now < 2 ^ 24 * 1000000000 ->
  secondsUntil now expire = Z.quot (expire - now) 1000000000.
Proof.
  intros H. unfold secondsUntil. rewrite Time_Sub_in_range by lia.
  now apply Duration_Seconds_exact.
Qed.

(** Whatever the rounding, the result is not above a whole number of seconds
    that the difference does not exceed. *)
Lemma secondsUntil_bounds (now expire : Time) (seconds : Z) :
  0 <= expire - now <= 1000000000 * seconds -> 1000000000 * seconds < 2 ^ 63 ->
  0 <= secondsUntil now expire <= seconds.
Proof.
  intros Hd Hs. unfold secondsUntil, int_of_float64.
  rewrite Time_Sub_in_range by lia.
  set (d := expire - now) in *.
  destruct (Duration_Seconds_bounds d ltac:(lia)) as (Hpos & _ & Hzero).
  cbv zeta in Hpos, Hzero. specialize (Hpos ltac:(lia)).
  pose proof unit64_pos as HU.
  destruct (quot_rem_second d) as (Hqr & Hnsec & Hnpos & _).
  specialize (Hnpos ltac:(lia)).
  set (sec := Z.quot d 1000000000) in *.
  destruct (Z.eq_dec (Z.rem d 1000000000) 0) as [Hz | Hnz].
  - rewrite (Hzero Hz), Z.quot_mul by lia. lia.
  - assert (Hsec : 0 <= sec /\ sec + 1 <= seconds) by lia.
    set (s := Duration_Seconds d) in *. clearbody s. split.
    + apply Z.quot_pos; nia.
    + apply Z.le_trans with (sec + 1); [| lia].
      apply Z.quot_le_upper_bound; nia.
Qed.

(** However long the time left, the rounding adds at most one second to the
    whole seconds. *)
Lemma secondsUntil_near (now expire : Time) :
  0 <= expire - now < 2 ^ 63 ->
  Z.quot (expire - now) 1000000000 <= secondsUntil now expire
  <= Z.quot (expire - now) 1000000000 + 1.
Proof.
  intros Hd. unfold secondsUntil, int_of_float64.
  rewrite Time_Sub_in_range by lia.
  set (d := expire - now) in *.
  destruct (Duration_Seconds_bounds d ltac:(lia)) as (Hpos & _ & _).
  cbv zeta in Hpos. specialize (Hpos ltac:(lia)).
  pose proof unit64_pos as HU.
  destruct (quot_rem_second d) as (Hqr & Hnsec & Hnpos & _).
  specialize (Hnpos ltac:(lia)).
  set (sec := Z.quot d 1000000000) in *.
  assert (Hsec : 0 <= sec) by lia.
  set (s := Duration_Seconds d) in *. clearbody s. split.
  - apply Z.quot_le_lower_bound; nia.
  - apply Z.quot_le_upper_bound; nia.
Qed.

(** Seconds left, read less than a second after the expiry was checked: never
    negative. *)
Lemma secondsUntil_nonneg (now later expire : Time) :
  After now expire = false -> later - now < 1000000000 ->
  0 <= secondsUntil later expire.
Proof.
  unfold After. intros Hafter%Z.ltb_ge Hlater. unfold secondsUntil.
  assert (Hr : - 1000000000 < Time_Sub expire later < 2 ^ 63) by (unfold Time_Sub; lia).
  set (d := Time_Sub expire later) in *. clearbody d.
  destruct (Z.le_gt_cases 0 d) as [Hd | Hd].
  - unfold int_of_float64.
    destruct (Duration_Seconds_bounds d ltac:(lia)) as (Hpos & _ & _).
    cbv zeta in Hpos. specialize (Hpos Hd).
    pose proof unit64_pos as HU.
    destruct (quot_rem_second d) as (Hqr & Hnsec & Hnpos & _).
    specialize (Hnpos ltac:(lia)).
    assert (Hsec : 0 <= Z.quot d 1000000000) by lia.
    apply Z.quot_pos; nia.
  - rewrite Duration_Seconds_exact by lia.
    assert (Hq : Z.quot d 1000000000 = 0) by (apply Z.quot_small_iff; lia).
    lia.
Qed.

(** C6, as stated, fails: a key that exists with the empty string for value
    and with no expiry gets -2, the answer for a key that does not exist,
    not -1. *)
Lemma TTL_of_empty_value_is_minus_two :
  let db := Set_ "k" "" (NewDatabase 0) in
  StringKeys db !! "k"%string = Some EmptyString /\
  ExpireKeys db !! "k"%string = None /\
  (TTL 10 11 "k" db).1 = -2.
Proof. vm_compute. repeat split; reflexivity. Qed.

(** The seconds left are those of the float64 sum of Duration.Seconds: with
    2^24 seconds to go and all but the last nanosecond of one more, the sum
    rounds up to the next whole second; one second lower it does not. *)
Example TTL_rounds_up_from_2_24_seconds :
  let db := withExpireKeys {[ "k"%string := 16777216999999999 + 1000 ]}
              (Set_ "k" "v" (NewDatabase 0)) in
  let db' := withExpireKeys {[ "k"%string := 16777215999999999 + 1000 ]}
               (Set_ "k" "v" (NewDatabase 0)) in
  (TTL 1000 1000 "k" db).1 = 16777217 /\
  Z.quot 16777216999999999 1000000000 = 16777216 /\
  (TTL 1000 1000 "k" db').1 = 16777215.
Proof. vm_compute. repeat split; reflexivity. Qed.

(** C6 (amended): TTL returns -2 when Get finds nothing for the key (the key
    is not stored, or has expired, or holds the empty string), -1 when the
    key holds a non-empty value and has no expiry entry, and otherwise what
    int(time.Until(expire).Seconds()) gives at the reading of the clock:
    while less than 2^24 seconds are left, the seconds to the expiry instant
    cut toward zero, and for a longer time that number or the next one (the
    float64 sum can round up).  Read within a second of the expiry check,
    the result is not negative, so it differs from both -1 and -2. *)
Theorem TTL_cases (now later : Time) (key : string) (db : Database) :
  (~ present now key db -> (TTL now later key db).1 = -2) /\
  (forall storage,
     StringKeys db !! key = Some storage -> storage <> EmptyString ->
     ExpireKeys db !! key = None ->
     (TTL now later key db).1 = -1) /\
  (forall storage expire,
     StringKeys db !! key = Some storage -> storage <> EmptyString ->
     ExpireKeys db !! key = Some expire -> After now expire = false ->
     expire <> zeroTime ->
     (TTL now later key db).1 = secondsUntil later expire /\
     (- (2 ^ 24 * 1000000000) < expire - later < 2 ^ 24 * 1000000000 ->
      (TTL now later key db).1 = Z.quot (expire - later) 1000000000) /\
     (0 <= expire - later < 2 ^ 63 ->
      Z.quot (expire - later) 1000000000 <= (TTL now later key db).1
      <= Z.quot (expire - later) 1000000000 + 1) /\
     (later - now < 1000000000 -> 0 <= (TTL now later key db).1)).
Proof.
  split; [| split].
  - apply TTL_not_present.
  - intros storage Hs Hne He. rewrite TTL_spec, Hs. unfold expired. rewrite He.
    now rewrite bool_decide_eq_false_2 by exact Hne.
  - intros storage expire Hs Hne He Hafter Hz.
    assert (Httl : (TTL now later key db).1 = secondsUntil later expire).
    { rewrite TTL_spec, Hs. unfold expired. rewrite He, Hafter.
      rewrite bool_decide_eq_false_2 by exact Hne.
      now rewrite bool_decide_eq_false_2 by exact Hz. }
    split; [exact Httl |]. rewrite Httl. split; [| split].
    + apply secondsUntil_exact.
    + apply secondsUntil_near.
    + intros Hlater. now apply (secondsUntil_nonneg now).
Qed.

Lemma TTL_cases_witness :
  let db := Setpx 1000 "k" 5000 "v" (Set_ "plain" "v" (NewDatabase 0)) in
  (TTL 2000 3000 "missing" db).1 = -2 /\
  (TTL 2000 3000 "plain" db).1 = -1 /\
  (TTL 2000 3000 "k" db).1 = 4 /\
  0 <= (TTL 2000 3000 "k" db).1.
Proof.
  intros db.
  destruct (TTL_cases 2000 3000 "missing" db) as (Hmissing & _).
  destruct (TTL_cases 2000 3000 "plain" db) as (_ & Hplain & _).
  destruct (TTL_cases 2000 3000 "k" db) as (_ & _ & Hk).
  destruct (Hk "v"%string 5000001000) as (_ & Hexact & _ & Hnonneg);
    [vm_compute; reflexivity | discriminate | vm_compute; reflexivity
    | vm_compute; reflexivity | discriminate |].
  split; [| split; [| split]].
  - apply Hmissing. intros (storage & Hs & _). vm_compute in Hs. discriminate Hs.
  - apply (Hplain "v"%string); [vm_compute; reflexivity | discriminate
                               | vm_compute; reflexivity].
  - rewrite Hexact by lia. reflexivity.
  - apply Hnonneg. lia.
Defined.

(** ** C10: a key that holds the empty string *)

Lemma expired_Set (now : Time) (key key' value : string) (db : Database) :
  expired now key' (Set_ key value db) = expired now key' db.
Proof. reflexivity. Qed.

Lemma Get_empty_value (now : Time) (key : string) (db : Database) :
  (Get now key (Set_ key EmptyString db)).1 = EmptyString.
Proof.
  rewrite Get_spec. cbn [Set_ withStringKeys StringKeys].
  rewrite lookup_insert_eq. now destruct (expired _ _ _).
Qed.

Lemma not_present_empty_value (now : Time) (key : string) (db : Database) :
  ~ present now key (Set_ key EmptyString db).
Proof. apply Get_empty_iff, Get_empty_value. Qed.

Lemma Keys_elem (Match : string -> string -> bool) (pattern key : string)
    (db : Database) :
  key ∈ Keys Match pattern db
  <-> Match pattern key = true /\ is_Some (StringKeys db !! key).
Proof.
  unfold Keys. rewrite list_elem_of_filter, list_elem_of_fmap. split.
  - intros [Hm ([k v] & -> & Hkv%elem_of_map_to_list)]. cbn in *. eauto.
  - intros [Hm [v Hv]]. split; [exact Hm |].
    exists (key, v). split; [reflexivity | now apply elem_of_map_to_list].
Qed.

(** C10, as stated, fails: KEYS lists a key that holds the empty string, and
    does not list a key that was never set.  (The pattern "k" has no
    metacharacter: filepath.Match compares it with the key byte by byte.) *)
Lemma empty_value_is_listed_by_KEYS :
  let withEmpty := serverOf (Set_ "k" "" (NewDatabase 0)) in
  let without := serverOf (NewDatabase 0) in
  fst <$> keysCommand String.eqb ["k"%string] withEmpty
  = Ok ("*1" +:+ CRLF +:+ "$1" +:+ CRLF +:+ "k" +:+ CRLF)%string /\
  fst <$> keysCommand String.eqb ["k"%string] without
  = Ok ("*0" +:+ CRLF)%string.
Proof. vm_compute. split; reflexivity. Qed.

(** C10 (amended): after Set(key, "") the operations that go through Get take
    the key for an absent one: Get returns the empty string and GET replies
    the null bulk string, Exists does not count the key, Del reports 0,
    TTL returns -2.  Del leaves the entry in the value map, unless the key
    carries an expiry that has passed: the read inside Del then purges the
    key from both maps.  KEYS, which ranges over the value map itself, does
    list the key when the pattern matches. *)
Theorem empty_value_reads_as_absent (now later : Time)
    (Match : string -> string -> bool) (pattern key : string) (db : Database) :
  let db' := Set_ key EmptyString db in
  (Get now key db').1 = EmptyString /\
  (forall redis, 0 <= selectedDB redis ->
     databases redis !! Z.to_nat (selectedDB redis) = Some db' ->
     fst <$> getCommand now [key] redis = Ok returnNullBulkString) /\
  (Exists now [key] db').1 = 0 /\
  (Del now [key] db').1 = 0 /\
  (expired now key db = false ->
     StringKeys (Del now [key] db').2 !! key = Some EmptyString) /\
  (expired now key db = true ->
     StringKeys (Del now [key] db').2 !! key = None /\
     ExpireKeys (Del now [key] db').2 !! key = None) /\
  (TTL now later key db').1 = -2 /\
  (Match pattern key = true -> key ∈ Keys Match pattern db').
Proof.
  intros db'. pose proof (Get_empty_value now key db) as Hget. fold db' in Hget.
  assert (Hstored : StringKeys db' !! key = Some EmptyString)
    by (cbn; apply lookup_insert_eq).
  split; [exact Hget |].
  split; [| split; [| split; [| split; [| split; [| split]]]]].
  - intros redis Hi Hdb. unfold getCommand.
    change (checkNumberOfArguments [key] 1) with true. cbn [negb].
    change (index [key] 0) with (Ok (A := string) key).
    cbn [mbind outcome_bind bind].
    rewrite (onSelected_lookup _ _ db' Hi Hdb), Hget. reflexivity.
  - unfold Exists. cbn [Exists_loop].
    destruct (Get now key db') as [storage db1]. cbn [fst] in Hget. subst storage.
    reflexivity.
  - unfold Del. cbn [Del_loop].
    destruct (Get now key db') as [storage db1]. cbn [fst] in Hget. subst storage.
    reflexivity.
  - intros Hnow. unfold Del. cbn [Del_loop].
    rewrite (Get_present now key EmptyString db' Hstored Hnow). exact Hstored.
  - intros Hnow. unfold Del. cbn [Del_loop].
    rewrite Get_spec, Hstored.
    change (expired now key db') with (expired now key db). rewrite Hnow.
    rewrite bool_decide_eq_false_2 by (intros H; now apply H).
    unfold purge. cbn [snd StringKeys ExpireKeys].
    split; apply lookup_delete_eq.
  - apply TTL_not_present, not_present_empty_value.
  - intros Hm. apply Keys_elem. split; [exact Hm |]. now exists EmptyString.
Qed.

Lemma empty_value_reads_as_absent_witness :
  let db' := Set_ "k" "" (NewDatabase 0) in
  let stale := Set_ "k" "" (Setpx 0 "k" 1 "v" (NewDatabase 0)) in
  (Get 10 "k" db').1 = EmptyString /\
  (Exists 10 ["k"%string] db').1 = 0 /\
  (Del 10 ["k"%string] db').1 = 0 /\
  StringKeys (Del 10 ["k"%string] db').2 !! "k"%string = Some EmptyString /\
  (TTL 10 11 "k" db').1 = -2 /\
  "k"%string ∈ Keys String.eqb "k" db' /\
  (Del 2000000 ["k"%string] stale).1 = 0 /\
  StringKeys (Del 2000000 ["k"%string] stale).2 !! "k"%string = None.
Proof.
  destruct (empty_value_reads_as_absent 10 11 String.eqb "k" "k" (NewDatabase 0))
    as (Hget & _ & Hexists & Hdel & Hkept & _ & Httl & Hkeys).
  destruct (empty_value_reads_as_absent 2000000 2000001 String.eqb "k" "k"
              (Setpx 0 "k" 1 "v" (NewDatabase 0)))
    as (_ & _ & _ & Hdel' & _ & Hpurged & _).
  intros db' stale.
  split; [exact Hget |]. split; [exact Hexists |]. split; [exact Hdel |].
  split; [apply Hkept; reflexivity |]. split; [exact Httl |].
  split; [apply Hkeys; reflexivity |]. split; [exact Hdel' |].
  apply Hpurged. vm_compute. reflexivity.
Defined.

(** ** C5: commands with too few arguments *)

(** C5: the code does not do what the specification says for ECHO.  echoCommand
    reads args[0] without checking the number of arguments: with no
    argument it panics with an index out of range, where its siblings
    answer the wrong-number-of-arguments error.  A client reaches it with
    the request "*1\r\n$4\r\nECHO\r\n". *)
Theorem echoCommand_without_argument_panics (now later : Time)
    (Match : string -> string -> bool) (saveIO : SaveIO) (redis : RedisServer) :
  echoCommand [] redis = Panic IndexOutOfRange /\
  DecodeRESP 2 ("*1" +:+ CRLF +:+ "$4" +:+ CRLF +:+ "ECHO" +:+ CRLF)
  = Ok (mkValue Array EmptyString [bulkValue "ECHO"], EmptyString) /\
  handleValue now later Match saveIO
    (mkValue Array EmptyString [bulkValue "ECHO"]) redis
  = Panic IndexOutOfRange.
Proof. repeat split; vm_compute; reflexivity. Qed.

(** Every handler but echoCommand answers the error and leaves the server as
    it is when it gets fewer arguments than it asks for. *)
Lemma checked_commands_reject_short_arguments (now later : Time)
    (Match : string -> string -> bool) (args : list string) (redis : RedisServer) :
  Forall (fun entry : string * Z * CommandFunc =>
            Z.of_nat (length args) < entry.1.2 ->
            entry.2 args redis
            = Ok (returnWrongNumberOfArgumentsError entry.1.1, redis))
         (checkedCommands now later Match).
Proof.
  unfold checkedCommands.
  repeat first [apply Forall_nil_2 | apply Forall_cons_2];
    cbn [fst snd]; intros Hshort;
    try (match goal with
         | |- ?cmd _ _ = _ => unfold cmd
         | |- ?cmd _ _ _ = _ => unfold cmd
         | |- ?cmd _ _ _ _ = _ => unfold cmd
         end;
         unfold checkNumberOfArguments;
         match goal with
         | |- context [?n <=? Z.of_nat (length args)] =>
             destruct (Z.leb_spec n (Z.of_nat (length args))); [lia | reflexivity]
         end).
  (* SELECT: len(args) != 1 *)
  unfold selectCommand.
  destruct (Z.eqb_spec (Z.of_nat (length args)) 1); [lia | reflexivity].
Qed.

(** ** C7: MSetNX *)

Lemma pair_list_ind (P : list string -> Prop) :
  P [] -> (forall key, P [key]) ->
  (forall key value args, P args -> P (key :: value :: args)) ->
  forall args, P args.
Proof.
  intros Hnil Hone Hstep.
  assert (H : forall args, P args /\ forall key, P (key :: args)).
  { induction args as [| value args [IH1 IH2]]; split; auto. }
  intros args. apply H.
Qed.

Lemma sweptAt_refl (now : Time) (db : Database) : sweptAt now db db.
Proof. intros key. now left. Qed.

Lemma sweptAt_expired (now : Time) (db db' : Database) (key : string) :
  sweptAt now db db' -> expired now key db' = true -> expired now key db = true.
Proof.
  intros Hs. unfold expired at 1. destruct (Hs key) as [[_ He] | (_ & _ & He)];
    rewrite He; [trivial | discriminate].
Qed.

Lemma sweptAt_trans (now : Time) (db1 db2 db3 : Database) :
  sweptAt now db1 db2 -> sweptAt now db2 db3 -> sweptAt now db1 db3.
Proof.
  intros H12 H23 key.
  destruct (H23 key) as [[Hs He] | (Hexp & Hs & He)].
  - rewrite Hs, He. apply H12.
  - right. split; [now apply (sweptAt_expired now db1 db2) | now split].
Qed.

Lemma sweptAt_purge (now : Time) (key : string) (db : Database) :
  expired now key db = true -> sweptAt now db (purge key db).
Proof.
  intros Hexp other. cbn [purge StringKeys ExpireKeys].
  destruct (decide (other = key)) as [-> | Hne].
  - right. rewrite !lookup_delete_eq. now split.
  - left. now rewrite !lookup_delete_ne by congruence.
Qed.

Lemma sweptAt_Get (now : Time) (key : string) (db : Database) :
  sweptAt now db (Get now key db).2.
Proof.
  rewrite Get_spec. destruct (StringKeys db !! key); [| apply sweptAt_refl].
  destruct (expired now key db) eqn:Hexp;
    [now apply sweptAt_purge | apply sweptAt_refl].
Qed.

Lemma sweptAt_present (now : Time) (db db' : Database) (key : string) :
  sweptAt now db db' -> present now key db' <-> present now key db.
Proof.
  intros Hs. unfold present, expired.
  destruct (Hs key) as [[Hk He] | (Hexp & Hk & He)].
  - now rewrite Hk, He.
  - rewrite Hk. unfold expired in Hexp. split.
    + intros (s & Hf & _). discriminate Hf.
    + intros (s & _ & _ & Hf). rewrite Hf in Hexp. discriminate Hexp.
Qed.




(** MSet on an even number of arguments: every listed key ends with one of
    the values listed for it (the last), the other keys and the expiry map
    are not touched. *)
Lemma MSet_spec (args : list string) :
  forall db, Nat.even (length args) = true ->
    exists db', MSet args db = Ok db' /\
      ExpireKeys db' = ExpireKeys db /\
      (forall key, key ∈ keysOf args ->
         exists value, (key, value) ∈ pairsOf args /\
                       StringKeys db' !! key = Some value) /\
      (forall key, key ∉ keysOf args ->
         StringKeys db' !! key = StringKeys db !! key).
Proof.
  induction args as [| k | k v args IH] using pair_list_ind; intros db Heven.
  - exists db. cbn. repeat split; try reflexivity.
    intros key H. now apply elem_of_nil in H.
  - discriminate Heven.
  - destruct (IH (Set_ k v db) Heven) as (db' & Hset & Hexp & Hin & Hout).
    exists db'. cbn [MSet keysOf pairsOf]. split; [exact Hset |].
    split; [exact Hexp |]. split.
    + intros key Hkey. destruct (decide (key ∈ keysOf args)) as [Hl | Hl].
      * destruct (Hin key Hl) as (value & Hp & Hv). exists value.
        split; [now apply list_elem_of_further | exact Hv].
      * apply elem_of_cons in Hkey as [-> | Hkey]; [| contradiction].
        exists v. split; [apply list_elem_of_here |].
        rewrite (Hout k Hl). cbn. apply lookup_insert_eq.
    + intros key [Hne Hl]%not_elem_of_cons. rewrite (Hout key Hl). cbn.
      apply lookup_insert_ne. congruence.
Qed.





(** * Further properties of the code *)

(** ** The decoder on requests *)

Lemma decodeArray_loop_bulk (fuel : nat) (l : list string) (m : nat)
    (acc : list Value) (rest : string) :
  Forall fitsInt l ->
  decodeArray_loop (DecodeRESP (S fuel)) (length l + m) acc (bulkElements l +:+ rest)
  = decodeArray_loop (DecodeRESP (S fuel)) m (acc ++ map bulkValue l) rest.
Proof.
  intros Hl. revert acc.
  induction Hl as [| s l Hs _ IH]; intros acc; cbn [length bulkElements map].
  - now rewrite append_nil_l, app_nil_r.
  - cbn [Nat.add decodeArray_loop].
    rewrite append_assoc, decode_returnBulkString by exact Hs.
    cbn [mbind outcome_bind bind]. rewrite IH, <- app_assoc. reflexivity.
Qed.

Lemma decodeArray_header (decode : stream -> outcome (Value * stream))
    (count : Z) (rest : string) :
  inInt64 count = true ->
  decodeArray decode (Itoa count +:+ CRLF +:+ rest)
  = ('(array, rest') ← decodeArray_loop decode (Z.to_nat count) [] rest;
     Ok (mkValue Array EmptyString array, rest')).
Proof.
  intros Hc. unfold decodeArray.
  rewrite readUntilCRLF_line by apply Itoa_noLF.
  cbn [wrapErr mbind outcome_bind bind]. rewrite Atoi_Itoa by exact Hc.
  reflexivity.
Qed.

Lemma DecodeRESP_array (fuel : nat) (count : Z) (rest : string) :
  inInt64 count = true ->
  DecodeRESP (S fuel) ("*" +:+ Itoa count +:+ CRLF +:+ rest)
  = ('(array, rest') ← decodeArray_loop (DecodeRESP fuel) (Z.to_nat count) [] rest;
     Ok (mkValue Array EmptyString array, rest')).
Proof.
  intros Hc. rewrite append_cons, append_nil_l, DecodeRESP_step.
  change (bool_decide ("*"%char = SimpleString)) with false.
  change (bool_decide ("*"%char = BulkString)) with false.
  change (bool_decide ("*"%char = Array)) with true. cbv iota.
  now apply decodeArray_header.
Qed.

Lemma Value_StringArray_request (l : list string) :
  Value_StringArray (requestValue l) = l.
Proof.
  unfold Value_StringArray, Value_Array, requestValue. cbn [typ array].
  rewrite bool_decide_eq_true_2 by reflexivity.
  induction l as [| s l IH]; cbn [map]; [reflexivity |].
  now rewrite IH.
Qed.

Lemma DecodeRESP_request (l : list string) (fuel : nat) (rest : string) :
  Z.of_nat (length l) < 2 ^ 63 -> Forall fitsInt l ->
  DecodeRESP (2 + fuel) (encodeRequest l +:+ rest) = Ok (requestValue l, rest).
Proof.
  intros Hlen Hl. unfold encodeRequest. rewrite !append_assoc.
  change (2 + fuel)%nat with (S (S fuel)).
  rewrite DecodeRESP_array by (apply inInt64_spec; lia).
  rewrite Nat2Z.id. rewrite <- (Nat.add_0_r (length l)).
  rewrite decodeArray_loop_bulk by exact Hl. reflexivity.
Qed.

(** X1: a request written as an array of bulk strings, empty strings
    included, is decoded into the array of those strings, in order; the
    decoder stops right after it and StringArray gives the strings back. *)
Theorem decode_request (l : list string) (fuel : nat) (rest : string) :
  Z.of_nat (length l) < 2 ^ 63 -> Forall fitsInt l ->
  DecodeRESP (2 + fuel) (encodeRequest l +:+ rest) = Ok (requestValue l, rest) /\
  Value_StringArray (requestValue l) = l.
Proof.
  intros Hlen Hl.
  split; [now apply DecodeRESP_request | apply Value_StringArray_request].
Qed.

Lemma decode_request_witness :
  DecodeRESP 2 (encodeRequest ["SET"; "k"; ""]%string +:+ "rest")
  = Ok (requestValue ["SET"; "k"; ""]%string, "rest"%string) /\
  Value_StringArray (requestValue ["SET"; "k"; ""]%string) = ["SET"; "k"; ""]%string.
Proof.
  apply (decode_request ["SET"; "k"; ""]%string 0 "rest").
  - vm_compute. reflexivity.
  - repeat constructor.
Defined.


(** ** The decoder on cut and malformed input *)

Lemma ReadBytes_noLF (s : string) : noLF s = true -> ReadBytes LF s = None.
Proof.
  induction s as [| c s IH]; cbn [ReadBytes noLF]; [reflexivity |].
  intros [Hc Hs]%andb_prop. rewrite (IH Hs).
  destruct (bool_decide (c = LF)); [discriminate Hc | reflexivity].
Qed.

Lemma readUntilCRLF_loop_unterminated (n : nat) :
  forall s, (String.length s <= n)%nat ->
  forall fuel acc,
    noCRLF (acc +:+ s) = true -> readUntilCRLF_loop fuel acc s = Err EOF.
Proof.
  induction n as [| n IH]; intros s Hn fuel acc Hs.
  - destruct s; [| cbn in Hn; lia]. now destruct fuel.
  - destruct (split_at_LF s) as [Hlf | (s1 & s2 & -> & Hs1)].
    + destruct fuel; cbn [readUntilCRLF_loop]; now rewrite ReadBytes_noLF.
    + rewrite length_append in Hn. cbn [String.length] in Hn.
      assert (Hcr : crBeforeLast (acc +:+ s1 +:+ String LF EmptyString) = false).
      { rewrite <- append_assoc. apply (crBeforeLast_LF _ s2).
        now rewrite append_assoc. }
      destruct fuel as [| fuel]; cbn [readUntilCRLF_loop];
        rewrite (ReadBytes_line s1 _ Hs1); cbv zeta iota beta; rewrite Hcr;
        [reflexivity |].
      apply IH; [lia |]. now rewrite !append_assoc.
Qed.

(** X2: a line that has no CRLF before the stream ends is no value: a status
    gives the end-of-stream error, a bulk string or an array whose header is
    cut gives it wrapped; errors.Is(err, io.EOF) holds for each of them. *)
Theorem decode_unterminated_line (fuel : nat) (s : string) :
  noCRLF s = true ->
  DecodeRESP (S fuel) ("+" +:+ s) = Err EOF /\
  DecodeRESP (S fuel) ("$" +:+ s)
  = Err (Wrapped "failed to read bulk string length" EOF) /\
  DecodeRESP (S fuel) ("*" +:+ s)
  = Err (Wrapped "failed to read bulk string length" EOF).
Proof.
  intros Hs.
  assert (Hline : readUntilCRLF s = Err EOF).
  { unfold readUntilCRLF.
    apply (readUntilCRLF_loop_unterminated (String.length s)); [lia |].
    now rewrite append_nil_l. }
  rewrite !append_cons, !append_nil_l, !DecodeRESP_step.
  unfold decodeSimpleString, decodeBulkString, decodeArray. rewrite Hline.
  repeat split.
Qed.

Lemma decode_unterminated_line_witness :
  DecodeRESP 1 ("+OK" +:+ String CR EmptyString) = Err EOF.
Proof.
  apply (decode_unterminated_line 0 ("OK" +:+ String CR EmptyString)).
  vm_compute. reflexivity.
Defined.

Lemma DecodeRESP_bulk (fuel : nat) (count : Z) (rest : string) :
  inInt64 count = true ->
  DecodeRESP (S fuel) ("$" +:+ Itoa count +:+ CRLF +:+ rest)
  = decodeBulkString (Itoa count +:+ CRLF +:+ rest).
Proof.
  intros Hc. rewrite append_cons, append_nil_l, DecodeRESP_step. reflexivity.
Qed.

(** X3: a bulk string whose declared length is not negative, whose buffer
    of count+2 bytes make does allocate (the size is within maxAlloc), and
    whose contents and terminator are not all there before the stream ends
    is an error and no value: end-of-stream when nothing follows the
    header, unexpected end-of-stream otherwise. *)
Theorem decode_bulk_cut_short (fuel : nat) (count : Z) (rest : string) :
  0 <= count -> count + 2 <= maxAlloc -> len rest < count + 2 ->
  DecodeRESP (S fuel) ("$" +:+ Itoa count +:+ CRLF +:+ rest)
  = Err (Wrapped "failed to read bulk string contents"
           (if bool_decide (rest = EmptyString) then EOF else ErrUnexpectedEOF)).
Proof.
  intros H0 Hfit Hshort. unfold maxAlloc in Hfit.
  rewrite DecodeRESP_bulk, decodeBulkString_header by (apply inInt64_spec; lia).
  rewrite wrap64_small by lia. cbv zeta.
  destruct (Z.ltb_spec (count + 2) 0); [lia |].
  unfold ReadFull. destruct (Z.eqb_spec (count + 2) 0); [lia |].
  destruct rest as [| c rest].
  - reflexivity.
  - assert (Hlen : 0 < len (String c rest)) by (unfold len; cbn [String.length]; lia).
    destruct (Z.eqb_spec (len (String c rest)) 0); [lia |].
    destruct (Z.ltb_spec (len (String c rest)) (count + 2)); [| lia].
    reflexivity.
Qed.

Lemma decode_bulk_cut_short_witness :
  DecodeRESP 1 ("$" +:+ Itoa 4 +:+ CRLF +:+ ("abc" +:+ CRLF))
  = Err (Wrapped "failed to read bulk string contents" ErrUnexpectedEOF).
Proof.
  apply (decode_bulk_cut_short 0 4 ("abc" +:+ CRLF));
    [lia | unfold maxAlloc; lia | vm_compute; reflexivity].
Defined.

(** X4: an array that announces more elements than the stream holds is an
    error: the elements that were decoded are dropped and the end-of-stream
    error of the missing one is returned as it is. *)
Theorem decode_array_cut_short (fuel : nat) (count : Z) (l : list string) :
  Z.of_nat (length l) < count < 2 ^ 63 -> Forall fitsInt l ->
  DecodeRESP (2 + fuel) ("*" +:+ Itoa count +:+ CRLF +:+ bulkElements l) = Err EOF.
Proof.
  intros Hcount Hl. change (2 + fuel)%nat with (S (S fuel)).
  rewrite DecodeRESP_array by (apply inInt64_spec; lia).
  replace (Z.to_nat count) with (length l + S (Z.to_nat count - length l - 1))%nat
    by lia.
  rewrite <- (append_nil_r (bulkElements l)).
  rewrite decodeArray_loop_bulk by exact Hl. reflexivity.
Qed.

Lemma decode_array_cut_short_witness :
  DecodeRESP 2 ("*" +:+ Itoa 2 +:+ CRLF +:+ bulkElements ["GET"%string]) = Err EOF.
Proof.
  apply (decode_array_cut_short 0 2 ["GET"%string]).
  - vm_compute. split; reflexivity.
  - repeat constructor.
Defined.

(** X5: an array whose declared count is zero or negative is decoded as the
    empty array, "*-1\r\n" like "*0\r\n", and the handler of the connection
    panics on it, as it does on every request that is not an array: it reads
    the command name at index 0 of an empty slice. *)
Theorem empty_request_panics (now later : Time) (Match : string -> string -> bool)
    (saveIO : SaveIO) (redis : RedisServer) :
  (forall fuel count rest, - 2 ^ 63 <= count <= 0 ->
     DecodeRESP (S fuel) ("*" +:+ Itoa count +:+ CRLF +:+ rest)
     = Ok (requestValue [], rest)) /\
  (forall v, Value_Array v = [] ->
     handleValue now later Match saveIO v redis = Panic IndexOutOfRange) /\
  (forall t b a, t <> Array ->
     handleValue now later Match saveIO (mkValue t b a) redis = Panic IndexOutOfRange).
Proof.
  split; [| split].
  - intros fuel count rest Hc.
    rewrite DecodeRESP_array by (apply inInt64_spec; lia).
    replace (Z.to_nat count) with 0%nat by lia. reflexivity.
  - intros v Hv. unfold handleValue. rewrite Hv. reflexivity.
  - intros t b a Ht. unfold handleValue, Value_Array. cbn [typ].
    rewrite bool_decide_eq_false_2 by exact Ht. reflexivity.
Qed.

(** ** From the request to the handler *)

(** X6: a request that holds a command name of ASCII bytes and its
    arguments reaches the handler registered under the upper-cased name,
    whatever the case of the letters the client used, with the arguments as
    they were sent; a name that is not registered is answered by the
    unknown-command error and leaves the server as it is. *)
Theorem request_is_dispatched (now later : Time) (Match : string -> string -> bool)
    (saveIO : SaveIO) (name : string) (args : list string) (redis : RedisServer)
    (fuel : nat) (rest : string) :
  isASCII name = true ->
  Z.of_nat (length (name :: args)) < 2 ^ 63 -> Forall fitsInt (name :: args) ->
  exists v,
    DecodeRESP (2 + fuel) (encodeRequest (name :: args) +:+ rest) = Ok (v, rest) /\
    handleValue now later Match saveIO v redis
    = match lookupCommand now later Match saveIO (ToUpper name) with
      | Some command => command args redis
      | None =>
          Ok (returnError ("Unknown command '" +:+ ToUpper name +:+ "'"), redis)
      end.
Proof.
  intros _ Hlen Hfit. exists (requestValue (name :: args)).
  split; [now apply DecodeRESP_request |].
  unfold handleValue. rewrite Value_StringArray_request.
  unfold Value_Array, requestValue. cbn [typ array map].
  rewrite bool_decide_eq_true_2 by reflexivity.
  change (index (bulkValue name :: map bulkValue args) 0)
    with (Ok (A := Value) (bulkValue name)).
  cbn [mbind outcome_bind bind]. reflexivity.
Qed.

Lemma request_is_dispatched_witness :
  exists v,
    DecodeRESP 2 (encodeRequest ["get"; "k"]%string) = Ok (v, EmptyString) /\
    handleValue 10 11 String.eqb SaveSucceeds v (serverOf (Set_ "k" "v" (NewDatabase 0)))
    = getCommand 10 ["k"%string] (serverOf (Set_ "k" "v" (NewDatabase 0))).
Proof.
  destruct (request_is_dispatched 10 11 String.eqb SaveSucceeds "get" ["k"%string]
              (serverOf (Set_ "k" "v" (NewDatabase 0))) 0 EmptyString)
    as (v & Hdec & Hhandle).
  - reflexivity.
  - vm_compute. reflexivity.
  - repeat constructor.
  - exists v. split; [now rewrite append_nil_r in Hdec | exact Hhandle].
Defined.

(** ** Reading and writing one key *)

Lemma Get_sweptAt (now : Time) (key : string) (db db' : Database) :
  sweptAt now db db' -> (Get now key db').1 = (Get now key db).1.
Proof.
  intros Hswept. rewrite !Get_spec. unfold expired.
  destruct (Hswept key) as [[Hs He] | (Hexp & Hs & He)].
  - rewrite Hs, He. destruct (StringKeys db !! key); [| reflexivity].
    now destruct (match ExpireKeys db !! key with
                  | Some expire => After now expire
                  | None => false
                  end).
  - rewrite Hs. unfold expired in Hexp.
    destruct (StringKeys db !! key); [| reflexivity]. now rewrite Hexp.
Qed.

Lemma purge_lookup (key other : string) (db : Database) :
  other <> key ->
  StringKeys (purge key db) !! other = StringKeys db !! other /\
  ExpireKeys (purge key db) !! other = ExpireKeys db !! other.
Proof.
  intros Hne. cbn [purge StringKeys ExpireKeys].
  now rewrite !lookup_delete_ne by congruence.
Qed.

(** X7: reading is lazy expiration and nothing else.  A key that is stored
    and has expired is reported absent and leaves both maps; no other key is
    touched; a second Get of any key at the same instant returns what the
    first returned, and a second Get of the same key changes nothing more. *)
Theorem Get_purges_and_is_stable (now : Time) (key : string) (db : Database) :
  (forall storage, StringKeys db !! key = Some storage ->
     expired now key db = true ->
     (Get now key db).1 = EmptyString /\
     StringKeys (Get now key db).2 !! key = None /\
     ExpireKeys (Get now key db).2 !! key = None) /\
  (forall other, other <> key ->
     StringKeys (Get now key db).2 !! other = StringKeys db !! other /\
     ExpireKeys (Get now key db).2 !! other = ExpireKeys db !! other) /\
  (forall other, (Get now other (Get now key db).2).1 = (Get now other db).1) /\
  Get now key (Get now key db).2 = Get now key db.
Proof.
  split; [| split; [| split]].
  - intros storage Hs Hexp. rewrite Get_spec, Hs, Hexp.
    cbn [fst snd purge StringKeys ExpireKeys]. now rewrite !lookup_delete_eq.
  - intros other Hne.
    destruct (Get_state now key db) as [-> | ->];
      [now split | now apply purge_lookup].
  - intros other. apply Get_sweptAt, sweptAt_Get.
  - rewrite (Get_spec now key db).
    destruct (StringKeys db !! key) as [storage |] eqn:Hs.
    + destruct (expired now key db) eqn:Hexp; cbn [snd].
      * rewrite Get_spec. cbn [purge StringKeys]. now rewrite lookup_delete_eq.
      * now rewrite Get_spec, Hs, Hexp.
    + cbn [snd]. now rewrite Get_spec, Hs.
Qed.

Lemma Get_after_Set_core (now : Time) (key value : string) (db : Database) :
  Get now key (Set_ key value db)
  = if expired now key db then (EmptyString, purge key db)
    else (value, Set_ key value db).
Proof.
  assert (Hs : StringKeys (Set_ key value db) !! key = Some value)
    by (cbn; apply lookup_insert_eq).
  rewrite Get_spec, Hs, expired_Set.
  destruct (expired now key db); [| reflexivity].
  f_equal. unfold purge, Set_, withStringKeys. cbn [dbid StringKeys ExpireKeys].
  now rewrite delete_insert_eq.
Qed.

(** X8: Get after Set returns the value just set unless the key carries an
    expiry that has passed: Set does not look at the expiry map, so the value
    it stores under an expired key is purged by the next read, and the key is
    absent from both maps afterwards. *)
Theorem Get_after_Set (now : Time) (key value : string) (db : Database) :
  Get now key (Set_ key value db)
  = (if expired now key db then (EmptyString, purge key db)
     else (value, Set_ key value db)) /\
  (expired now key db = true ->
   StringKeys (Get now key (Set_ key value db)).2 !! key = None /\
   ExpireKeys (Get now key (Set_ key value db)).2 !! key = None).
Proof.
  split; [apply Get_after_Set_core |].
  intros Hexp. rewrite Get_after_Set_core, Hexp.
  cbn [snd purge StringKeys ExpireKeys]. now rewrite !lookup_delete_eq.
Qed.

Lemma Milliseconds_small (milliseconds : Z) :
  - 2 ^ 63 <= 1000000 * milliseconds < 2 ^ 63 ->
  Milliseconds milliseconds = 1000000 * milliseconds.
Proof. intros H. unfold Milliseconds. now apply wrap64_small. Qed.

(** X9: a key set with Setpx at [now] reads as its value up to and including
    the instant now + milliseconds, and as absent at every later instant,
    whether or not a sweep has run; with a duration of zero the key is still
    there at the very instant of the Setpx. *)
Theorem Get_after_Setpx (now later : Time) (key value : string) (milliseconds : Z)
    (db : Database) :
  - 2 ^ 63 <= 1000000 * milliseconds < 2 ^ 63 ->
  (Get later key (Setpx now key milliseconds value db)).1
  = if later <=? now + 1000000 * milliseconds then value else EmptyString.
Proof.
  intros Hms. rewrite Get_spec. unfold expired.
  cbn [Setpx Set_ withStringKeys withExpireKeys StringKeys ExpireKeys].
  rewrite !lookup_insert_eq, (Milliseconds_small _ Hms). unfold After.
  destruct (Z.ltb_spec (now + 1000000 * milliseconds) later);
    destruct (Z.leb_spec later (now + 1000000 * milliseconds)); try lia;
    reflexivity.
Qed.

Lemma Get_after_Setpx_witness :
  (Get 1000 "k" (Setpx 1000 "k" 0 "v" (NewDatabase 0))).1 = "v"%string /\
  (Get 1001 "k" (Setpx 1000 "k" 0 "v" (NewDatabase 0))).1 = EmptyString.
Proof.
  split.
  - rewrite (Get_after_Setpx 1000 1000 "k" "v" 0 (NewDatabase 0)) by lia.
    reflexivity.
  - rewrite (Get_after_Setpx 1000 1001 "k" "v" 0 (NewDatabase 0)) by lia.
    reflexivity.
Defined.

(** ** Several keys: Del, Exists, MGet *)

Lemma presentb_spec (now : Time) (db : Database) (key : string) :
  presentb now db key = true <-> present now key db.
Proof. unfold presentb. rewrite bool_decide_eq_true. apply Get_nonempty_iff. Qed.

Lemma presentb_sweptAt (now : Time) (db db' : Database) (key : string) :
  sweptAt now db db' -> presentb now db' key = presentb now db key.
Proof. intros Hs. unfold presentb. now rewrite (Get_sweptAt now key db db' Hs). Qed.

Lemma shrunkAt_refl (now : Time) (db : Database) : shrunkAt now db db.
Proof. intros key. left. split; [reflexivity | now left]. Qed.

Lemma sweptAt_shrunkAt (now : Time) (db db' : Database) :
  sweptAt now db db' -> shrunkAt now db db'.
Proof.
  intros Hs key. destruct (Hs key) as [[Hk He] | H]; [| now right].
  left. split; [exact He | now left].
Qed.

Lemma shrunkAt_trans (now : Time) (db1 db2 db3 : Database) :
  shrunkAt now db1 db2 -> shrunkAt now db2 db3 -> shrunkAt now db1 db3.
Proof.
  intros H12 H23 key.
  destruct (H23 key) as [[He3 Hs3] | (Hexp2 & Hs3 & He3)];
    destruct (H12 key) as [[He2 Hs2] | (Hexp1 & Hs2 & He2)].
  - left. split; [congruence |]. destruct Hs3 as [Hs3 | Hs3]; [| now right].
    destruct Hs2 as [Hs2 | Hs2]; [left | right]; congruence.
  - right. split; [exact Hexp1 |]. split; [| congruence].
    destruct Hs3 as [Hs3 | Hs3]; congruence.
  - right. split; [| now split]. unfold expired in *. now rewrite <- He2.
  - unfold expired in Hexp2. rewrite He2 in Hexp2. discriminate Hexp2.
Qed.

Lemma shrunkAt_delete (now : Time) (key : string) (db : Database) :
  shrunkAt now db (withStringKeys (delete key (StringKeys db)) db).
Proof.
  intros other. left. cbn. split; [reflexivity |].
  destruct (decide (other = key)) as [-> | Hne].
  - right. apply lookup_delete_eq.
  - left. apply lookup_delete_ne. congruence.
Qed.

Lemma shrunkAt_present (now : Time) (db db' : Database) (key : string) :
  shrunkAt now db db' -> present now key db' -> present now key db.
Proof.
  intros Hs (storage & Hk & Hne & Hlive). unfold present, expired in *.
  destruct (Hs key) as [[He [Hsk | Hsk]] | (_ & Hsk & _)].
  - exists storage. now rewrite <- Hsk, <- He.
  - congruence.
  - congruence.
Qed.

Lemma shrunkAt_expiry (now : Time) (db db' : Database) (key : string) :
  shrunkAt now db db' -> expired now key db = false ->
  ExpireKeys db' !! key = ExpireKeys db !! key.
Proof.
  intros Hs Hlive. destruct (Hs key) as [[He _] | (Hexp & _)]; congruence.
Qed.

(** One turn of the loop of Del. *)
Lemma Del_loop_step (now : Time) (key : string) (keys : list string) (n : Z)
    (db : Database) :
  Del_loop now (key :: keys) n db
  = if presentb now db key
    then Del_loop now keys (n + 1)
           (withStringKeys (delete key (StringKeys db)) db)
    else Del_loop now keys n (Get now key db).2.
Proof.
  cbn [Del_loop]. unfold presentb.
  destruct (bool_decide_reflect ((Get now key db).1 <> EmptyString)) as [Hne | Heq].
  - apply Get_nonempty_iff in Hne as Hp. destruct Hp as (storage & Hs & _ & Hlive).
    rewrite (Get_present now key storage db Hs Hlive) in *. cbn [fst] in Hne.
    now rewrite bool_decide_eq_true_2 by exact Hne.
  - destruct (Get now key db) as [value db1]. cbn [fst snd] in *.
    now rewrite bool_decide_eq_false_2 by exact Heq.
Qed.

Lemma Del_loop_shrunkAt (now : Time) (keys : list string) :
  forall n db, shrunkAt now db (Del_loop now keys n db).2.
Proof.
  induction keys as [| key keys IH]; intros n db; [apply shrunkAt_refl |].
  rewrite Del_loop_step. destruct (presentb now db key).
  - eapply shrunkAt_trans; [apply shrunkAt_delete | apply IH].
  - eapply shrunkAt_trans; [apply sweptAt_shrunkAt, sweptAt_Get | apply IH].
Qed.

Lemma Del_loop_count (now : Time) (keys : list string) :
  forall n db,
    n <= (Del_loop now keys n db).1 <= n + Z.of_nat (length keys).
Proof.
  induction keys as [| key keys IH]; intros n db; [cbn; lia |].
  rewrite Del_loop_step. cbn [length].
  destruct (presentb now db key).
  - specialize (IH (n + 1) (withStringKeys (delete key (StringKeys db)) db)). lia.
  - specialize (IH n (Get now key db).2). lia.
Qed.

Lemma not_present_after_delete (now : Time) (key : string) (db : Database) :
  ~ present now key (withStringKeys (delete key (StringKeys db)) db).
Proof. intros (storage & Hs & _). cbn in Hs. now rewrite lookup_delete_eq in Hs. Qed.

Lemma Del_loop_removes (now : Time) (keys : list string) :
  forall n db key, key ∈ keys -> ~ present now key (Del_loop now keys n db).2.
Proof.
  induction keys as [| k keys IH]; intros n db key Hin.
  - now apply elem_of_nil in Hin.
  - rewrite Del_loop_step.
    destruct (decide (key ∈ keys)) as [Hl | Hl];
      [destruct (presentb now db k); now apply IH |].
    apply elem_of_cons in Hin as [-> | Hin]; [| contradiction].
    destruct (presentb now db k) eqn:Hp; intros Hafter;
      apply (shrunkAt_present now _ _ _ (Del_loop_shrunkAt now keys _ _)) in Hafter.
    + now apply not_present_after_delete in Hafter.
    + apply (sweptAt_present now db _ k (sweptAt_Get now k db)) in Hafter.
      apply presentb_spec in Hafter. congruence.
Qed.

Lemma presentb_after_delete (now : Time) (key other : string) (db : Database) :
  other <> key ->
  presentb now (withStringKeys (delete key (StringKeys db)) db) other
  = presentb now db other.
Proof.
  intros Hne. unfold presentb. rewrite !Get_spec. unfold expired.
  cbn [withStringKeys StringKeys ExpireKeys].
  rewrite lookup_delete_ne by congruence.
  destruct (StringKeys db !! other); [| reflexivity].
  now destruct (match ExpireKeys db !! other with
                | Some expire => After now expire
                | None => false
                end).
Qed.

Lemma filter_length_ext (f g : string -> bool) (l : list string) :
  (forall x, x ∈ l -> f x = g x) ->
  length (List.filter f l) = length (List.filter g l).
Proof.
  induction l as [| x l IH]; intros Hfg; [reflexivity |]. cbn [List.filter].
  rewrite (Hfg x) by apply list_elem_of_here.
  pose proof (IH (fun y Hy => Hfg y (list_elem_of_further _ _ _ Hy))) as Hl.
  destruct (g x); cbn [length]; now rewrite Hl.
Qed.

Lemma Del_loop_count_NoDup (now : Time) (keys : list string) :
  forall n db, NoDup keys ->
    (Del_loop now keys n db).1
    = n + Z.of_nat (length (List.filter (presentb now db) keys)).
Proof.
  induction keys as [| key keys IH]; intros n db Hnd; [cbn; lia |].
  apply NoDup_cons in Hnd as [Hkey Hnd].
  rewrite Del_loop_step. cbn [List.filter].
  destruct (presentb now db key) eqn:Hp.
  - rewrite (IH _ _ Hnd). cbn [length].
    rewrite (filter_length_ext
               (presentb now (withStringKeys (delete key (StringKeys db)) db))
               (presentb now db)); [lia |].
    intros x Hx. apply presentb_after_delete. congruence.
  - rewrite (IH _ _ Hnd).
    rewrite (filter_length_ext (presentb now (Get now key db).2) (presentb now db));
      [lia |].
    intros x _. apply presentb_sweptAt, sweptAt_Get.
Qed.

(** X10: after Del no listed key is there any more; the number returned is
    at most the number of keys listed and, when no key is listed twice, the
    number of listed keys that were there.  Del only takes away: it adds no
    key, and it leaves in the expiry map the entry of every key that had not
    expired, the entries of the keys it deletes included. *)
Theorem Del_removes_listed_keys (now : Time) (keys : list string) (db : Database) :
  (forall key, key ∈ keys -> ~ present now key (Del now keys db).2) /\
  0 <= (Del now keys db).1 <= Z.of_nat (length keys) /\
  (NoDup keys ->
     (Del now keys db).1 = Z.of_nat (length (List.filter (presentb now db) keys))) /\
  (forall key, present now key (Del now keys db).2 -> present now key db) /\
  (forall key, expired now key db = false ->
     ExpireKeys (Del now keys db).2 !! key = ExpireKeys db !! key).
Proof.
  unfold Del. split; [| split; [| split; [| split]]].
  - intros key Hin. now apply Del_loop_removes.
  - pose proof (Del_loop_count now keys 0 db). lia.
  - intros Hnd. rewrite (Del_loop_count_NoDup now keys 0 db Hnd). lia.
  - intros key. apply shrunkAt_present, Del_loop_shrunkAt.
  - intros key. apply shrunkAt_expiry, Del_loop_shrunkAt.
Qed.

Lemma Del_removes_listed_keys_witness :
  let db := Setpx 0 "a" 5000 "1" (Set_ "b" "2" (NewDatabase 0)) in
  (Del 10 ["a"; "missing"; "b"]%string db).1 = 2 /\
  ExpireKeys (Del 10 ["a"; "missing"; "b"]%string db).2 !! "a"%string
  = Some 5000000000.
Proof.
  intros db.
  destruct (Del_removes_listed_keys 10 ["a"; "missing"; "b"]%string db)
    as (_ & _ & Hcount & _ & Hexp).
  split.
  - rewrite Hcount; [vm_compute; reflexivity |].
    repeat (apply NoDup_cons; split;
            [rewrite ?elem_of_cons, elem_of_nil; intuition discriminate |]).
    apply NoDup_nil_2.
  - rewrite Hexp; vm_compute; reflexivity.
Defined.

Lemma Exists_loop_spec (now : Time) (keys : list string) :
  forall n db,
    (Exists_loop now keys n db).1
    = n + Z.of_nat (length (List.filter (presentb now db) keys)) /\
    sweptAt now db (Exists_loop now keys n db).2.
Proof.
  induction keys as [| key keys IH]; intros n db.
  - cbn. split; [lia | apply sweptAt_refl].
  - cbn [Exists_loop List.filter]. unfold presentb at 1.
    pose proof (sweptAt_Get now key db) as Hswept.
    destruct (Get now key db) as [storage db1]. cbn [fst snd] in *.
    destruct (IH (if bool_decide (storage <> EmptyString) then n + 1 else n) db1)
      as [Hcount Hs].
    split; [| now apply (sweptAt_trans now db db1)].
    rewrite Hcount.
    rewrite (filter_length_ext (presentb now db1) (presentb now db))
      by (intros x _; now apply presentb_sweptAt).
    destruct (bool_decide (storage <> EmptyString)); cbn [length]; lia.
Qed.

(** X11: Exists returns the number of listed keys that are there, a key
    listed twice counting twice, and changes nothing but for the purge of
    expired keys: every key reads the same afterwards. *)
Theorem Exists_counts_present_keys (now : Time) (keys : list string) (db : Database) :
  (Exists now keys db).1 = Z.of_nat (length (List.filter (presentb now db) keys)) /\
  sweptAt now db (Exists now keys db).2 /\
  (forall key, (Get now key (Exists now keys db).2).1 = (Get now key db).1).
Proof.
  unfold Exists. destruct (Exists_loop_spec now keys 0 db) as [Hcount Hs].
  split; [rewrite Hcount; lia |]. split; [exact Hs |].
  intros key. now apply Get_sweptAt.
Qed.

Lemma MGet_spec (now : Time) (args : list string) :
  forall db,
    (MGet now args db).1 = map (fun key => (Get now key db).1) args /\
    sweptAt now db (MGet now args db).2.
Proof.
  induction args as [| key args IH]; intros db.
  - cbn. split; [reflexivity | apply sweptAt_refl].
  - cbn [MGet map].
    pose proof (sweptAt_Get now key db) as Hswept.
    destruct (Get now key db) as [v db1]. cbn [fst snd] in *.
    destruct (IH db1) as [Hvalues Hs].
    destruct (MGet now args db1) as [vs db2]. cbn [fst snd] in *.
    split; [| now apply (sweptAt_trans now db db1)].
    rewrite Hvalues. f_equal. apply map_ext. intros k.
    now apply Get_sweptAt.
Qed.

(** X12: MGet returns one value for each key it is given, in the order of the
    keys, each one what Get returns for that key on the database as it was:
    a key given twice gets the same value twice, a key that is not there the
    empty string, which MGET writes in the null form. *)
Theorem MGet_is_Get_of_each_key (now : Time) (args : list string) (db : Database)
    (redis : RedisServer) :
  (MGet now args db).1 = map (fun key => (Get now key db).1) args /\
  length (MGet now args db).1 = length args /\
  (args <> [] -> 0 <= selectedDB redis ->
   databases redis !! Z.to_nat (selectedDB redis) = Some db ->
   fst <$> mgetCommand now args redis
   = Ok (returnArray (map (fun key => (Get now key db).1) args))).
Proof.
  destruct (MGet_spec now args db) as [Hvalues _].
  split; [exact Hvalues |]. split; [now rewrite Hvalues, length_map |].
  intros Hargs Hi Hdb. unfold mgetCommand.
  assert (Hn : checkNumberOfArguments args 1 = true).
  { unfold checkNumberOfArguments. destruct args; [contradiction |].
    cbn [length]. apply Z.leb_le. lia. }
  rewrite Hn. cbn [negb].
  rewrite (onSelected_lookup _ _ db Hi Hdb), Hvalues. reflexivity.
Qed.

Lemma MGet_is_Get_of_each_key_witness :
  fst <$> mgetCommand 10 ["k1"; "k2"; "k1"]%string
            (serverOf (Set_ "k1" "v" (NewDatabase 0)))
  = Ok (returnArray ["v"; ""; "v"]%string).
Proof.
  destruct (MGet_is_Get_of_each_key 10 ["k1"; "k2"; "k1"]%string
              (Set_ "k1" "v" (NewDatabase 0))
              (serverOf (Set_ "k1" "v" (NewDatabase 0)))) as (_ & _ & Hcmd).
  rewrite Hcmd; [reflexivity | discriminate | vm_compute; discriminate | reflexivity].
Defined.

(** ** GetSet and GetDel *)

(** X13: GetSet always leaves the new value under the key and touches no
    other key.  It returns the value the key had, the empty string when the
    key was not there; the expiry entry of a key that was there is kept, so
    the new value inherits the deadline of the old one. *)
Theorem GetSet_installs_and_returns_old (now later : Time) (key value : string)
    (db : Database) :
  StringKeys (GetSet now later key value db).2 !! key = Some value /\
  (forall other, other <> key ->
     StringKeys (GetSet now later key value db).2 !! other = StringKeys db !! other /\
     ExpireKeys (GetSet now later key value db).2 !! other = ExpireKeys db !! other) /\
  (~ present now key db -> (GetSet now later key value db).1 = EmptyString) /\
  (forall storage,
     StringKeys db !! key = Some storage -> storage <> EmptyString ->
     expired now key db = false -> expired later key db = false ->
     (GetSet now later key value db).1 = storage /\
     ExpireKeys (GetSet now later key value db).2 = ExpireKeys db).
Proof.
  unfold GetSet.
  pose proof (Get_state now key db) as Hstate.
  pose proof (Get_empty_iff now key db) as Hempty.
  pose proof (Get_nonempty_iff now key db) as Hfull.
  destruct (Get now key db) as [storage0 db1] eqn:Hget. cbn [fst snd] in *.
  assert (Hother : forall other, other <> key ->
            StringKeys db1 !! other = StringKeys db !! other /\
            ExpireKeys db1 !! other = ExpireKeys db !! other).
  { intros other Hne. destruct Hstate as [-> | ->];
      [now split | now apply purge_lookup]. }
  rewrite checkAndRemoveExpiredKey_spec.
  destruct (bool_decide_reflect (storage0 = EmptyString)) as [Heq | Hne].
  - split; [cbn; apply lookup_insert_eq |]. split.
    { intros other Ho. destruct (Hother other Ho) as [Hs He]. cbn.
      rewrite lookup_insert_ne by congruence. now split. }
    split; [reflexivity |].
    intros storage Hs Hn Hlive _. exfalso. apply Hempty; [exact Heq |].
    exists storage. now repeat split.
  - apply Hfull in Hne as Hp. destruct Hp as (storage & Hs & Hn & Hlive).
    rewrite (Get_present now key storage db Hs Hlive) in Hget.
    injection Hget as <- <-.
    destruct (expired later key db) eqn:Hlater; cbn [fst snd].
    + split; [cbn; apply lookup_insert_eq |]. split.
      { intros other Ho. cbn. rewrite lookup_insert_ne by congruence.
        now rewrite !lookup_delete_ne by congruence. }
      split; [intros Hnot; exfalso; apply Hnot; exists storage; now repeat split |].
      intros storage' _ _ _ Hf. discriminate Hf.
    + split; [cbn; apply lookup_insert_eq |]. split.
      { intros other Ho. cbn. rewrite lookup_insert_ne by congruence. now split. }
      split; [intros Hnot; exfalso; apply Hnot; exists storage; now repeat split |].
      intros storage' Hs' _ _ _. split; [congruence | reflexivity].
Qed.

Lemma GetSet_installs_and_returns_old_witness :
  let db := Setpx 0 "k" 5000 "old" (NewDatabase 0) in
  (GetSet 10 11 "k" "new" db).1 = "old"%string /\
  ExpireKeys (GetSet 10 11 "k" "new" db).2 = ExpireKeys db.
Proof.
  intros db.
  destruct (GetSet_installs_and_returns_old 10 11 "k" "new" db) as (_ & _ & _ & H).
  apply (H "old"%string); try (vm_compute; reflexivity). discriminate.
Defined.

(** X14: GetDel returns what Get returns; a key that was there is gone from
    the value map afterwards and no other key is touched.  The expiry entry
    of the key is not removed: it stays behind for the next value stored
    under the key. *)
Theorem GetDel_returns_and_removes (now later : Time) (key : string) (db : Database) :
  (GetDel now later key db).1 = (Get now key db).1 /\
  (present now key db -> StringKeys (GetDel now later key db).2 !! key = None) /\
  (forall other, other <> key ->
     StringKeys (GetDel now later key db).2 !! other = StringKeys db !! other /\
     ExpireKeys (GetDel now later key db).2 !! other = ExpireKeys db !! other) /\
  (present now key db -> expired later key db = false ->
     ExpireKeys (GetDel now later key db).2 !! key = ExpireKeys db !! key).
Proof.
  unfold GetDel.
  pose proof (Get_state now key db) as Hstate.
  pose proof (Get_empty_iff now key db) as Hempty.
  pose proof (Get_nonempty_iff now key db) as Hfull.
  destruct (Get now key db) as [storage0 db1] eqn:Hget. cbn [fst snd] in *.
  destruct (bool_decide_reflect (storage0 = EmptyString)) as [Heq | Hne];
    cbn [fst snd].
  - split; [now symmetry |].
    split; [intros Hp; now apply Hempty in Hp |].
    split; [| intros Hp; now apply Hempty in Hp].
    intros other Ho. destruct Hstate as [-> | ->];
      [now split | now apply purge_lookup].
  - apply Hfull in Hne as Hp. destruct Hp as (storage & Hs & Hn & Hlive).
    rewrite (Get_present now key storage db Hs Hlive) in Hget.
    injection Hget as <- <-.
    split; [reflexivity |].
    unfold Del. rewrite Del_loop_step. unfold presentb. rewrite Get_spec, Hs.
    destruct (expired later key db) eqn:Hlater; cbn [fst snd Del_loop].
    + rewrite bool_decide_eq_false_2 by (intros H; now apply H).
      cbn [snd purge StringKeys ExpireKeys].
      split; [intros _; apply lookup_delete_eq |].
      split; [| intros _ Hf; discriminate Hf].
      intros other Ho. now rewrite !lookup_delete_ne by congruence.
    + rewrite bool_decide_eq_true_2 by exact Hn.
      cbn [snd withStringKeys StringKeys ExpireKeys].
      split; [intros _; apply lookup_delete_eq |].
      split; [| reflexivity].
      intros other Ho. now rewrite lookup_delete_ne by congruence.
Qed.

Lemma GetDel_returns_and_removes_witness :
  let db := Setpx 0 "k" 5000 "v" (NewDatabase 0) in
  StringKeys (GetDel 10 11 "k" db).2 !! "k"%string = None /\
  ExpireKeys (GetDel 10 11 "k" db).2 !! "k"%string = ExpireKeys db !! "k"%string.
Proof.
  intros db.
  assert (Hp : present 10 "k" db).
  { exists "v"%string. repeat split; [discriminate]. }
  destruct (GetDel_returns_and_removes 10 11 "k" db) as (_ & Hgone & _ & Hexp).
  split; [now apply Hgone | apply Hexp; [exact Hp | reflexivity]].
Defined.

(** ** Counters: Incr, IncrBy, Decr, DecrBy *)

Lemma Atoi_inInt64 (s : string) (n : Z) : Atoi s = inr n -> inInt64 n = true.
Proof.
  unfold Atoi. repeat case_match; intros; simplify_eq; assumption.
Qed.

Lemma wrap64_inInt64 (z : Z) : inInt64 (wrap64 z) = true.
Proof.
  apply inInt64_spec. unfold wrap64.
  pose proof (Z.mod_pos_bound (z + 2 ^ 63) (2 ^ 64) ltac:(lia)). lia.
Qed.

Lemma wrap64_add_l (a b : Z) : wrap64 (wrap64 a + b) = wrap64 (a + b).
Proof.
  unfold wrap64. f_equal.
  replace ((a + 2 ^ 63) mod 2 ^ 64 - 2 ^ 63 + b + 2 ^ 63)
    with ((a + 2 ^ 63) mod 2 ^ 64 + b) by lia.
  rewrite Zplus_mod_idemp_l. f_equal. lia.
Qed.

Lemma Itoa_nonempty (i : Z) : Itoa i <> EmptyString.
Proof.
  destruct i as [| p | p].
  - discriminate.
  - rewrite Itoa_pos.
    destruct (string_of_uint_head (Pos.to_uint p) (Unsigned.to_uint_nonnil p))
      as (c & r & -> & _). discriminate.
  - rewrite Itoa_neg. discriminate.
Qed.

Lemma incrWith_integer (fresh : Z) (step : Z -> Z) (now later : Time)
    (key storage : string) (n : Z) (db : Database) :
  StringKeys db !! key = Some storage -> storage <> EmptyString ->
  expired now key db = false -> expired later key db = false ->
  Atoi storage = inr n ->
  incrWith fresh step now later key db
  = (wrap64 (step n), Set_ key (Itoa (wrap64 (step n))) db).
Proof.
  intros Hs Hne Hnow Hlater Hn. unfold incrWith.
  rewrite (Get_present _ _ _ _ Hs Hnow), bool_decide_eq_false_2 by exact Hne.
  now rewrite checkAndRemoveExpiredKey_spec, Hlater, Hn.
Qed.

Lemma incrWith_stored (now : Time) (key : string) (value : Z) (db : Database) :
  StringKeys (Set_ key (Itoa value) db) !! key = Some (Itoa value) /\
  Itoa value <> EmptyString /\
  expired now key (Set_ key (Itoa value) db) = expired now key db.
Proof.
  split; [cbn; apply lookup_insert_eq |]. split; [apply Itoa_nonempty | reflexivity].
Qed.

Lemma incr_arithmetic_core (now later : Time) (key storage : string) (n : Z)
    (db : Database) :
  StringKeys db !! key = Some storage -> storage <> EmptyString ->
  expired now key db = false -> expired later key db = false ->
  Atoi storage = inr n ->
  Incr now later key db = (wrap64 (n + 1), Set_ key (Itoa (wrap64 (n + 1))) db) /\
  (forall d, IncrBy now later key d db
             = (wrap64 (n + d), Set_ key (Itoa (wrap64 (n + d))) db)).
Proof.
  intros Hs Hne Hnow Hlater Hn. unfold Incr, IncrBy.
  split; [| intros d];
    now rewrite (incrWith_integer _ _ now later key storage n db Hs Hne Hnow Hlater Hn).
Qed.

(** X15: on a key that holds the text of an integer n and has not expired,
    Incr, IncrBy d, Decr and DecrBy d return n+1, n+d, n-1 and n-d in 64-bit
    arithmetic (past the largest int the result wraps around), store the
    decimal text of the result, which Atoi reads back as the result, and
    leave the expiry map and every other key as they were. *)
Theorem incr_arithmetic (now later : Time) (key storage : string) (n d : Z)
    (db : Database) :
  StringKeys db !! key = Some storage -> storage <> EmptyString ->
  expired now key db = false -> expired later key db = false ->
  Atoi storage = inr n ->
  Incr now later key db = (wrap64 (n + 1), Set_ key (Itoa (wrap64 (n + 1))) db) /\
  IncrBy now later key d db = (wrap64 (n + d), Set_ key (Itoa (wrap64 (n + d))) db) /\
  Decr now later key db = (wrap64 (n - 1), Set_ key (Itoa (wrap64 (n - 1))) db) /\
  DecrBy now later key d db = (wrap64 (n - d), Set_ key (Itoa (wrap64 (n - d))) db) /\
  (forall result, Atoi (Itoa (wrap64 result)) = inr (wrap64 result)) /\
  (- 2 ^ 63 <= n + d < 2 ^ 63 -> (IncrBy now later key d db).1 = n + d).
Proof.
  intros Hs Hne Hnow Hlater Hn. unfold Incr, IncrBy, Decr, DecrBy.
  rewrite !(incrWith_integer _ _ now later key storage n db Hs Hne Hnow Hlater Hn).
  repeat split.
  - intros result. apply Atoi_Itoa, wrap64_inInt64.
  - intros Hrange. cbn [fst]. now apply wrap64_small.
Qed.

Lemma incr_arithmetic_witness :
  let db := Set_ "key" "10" (NewDatabase 0) in
  Incr 10 11 "key" db = (11, Set_ "key" "11" db) /\
  Decr 10 11 "key" db = (9, Set_ "key" "9" db).
Proof.
  intros db.
  destruct (incr_arithmetic 10 11 "key" "10" 10 0 db) as (Hincr & _ & Hdecr & _);
    try (vm_compute; reflexivity); [discriminate |].
  split; [exact Hincr | exact Hdecr].
Defined.

(** X16: DecrBy d undoes IncrBy d, and Decr undoes Incr, overflow or not: on
    a key that holds the text of an integer n and does not expire meanwhile,
    the second operation returns n and leaves the canonical decimal text of
    n under the key. *)
Theorem decr_undoes_incr (t1 t2 t3 t4 : Time) (key storage : string) (n d : Z)
    (db : Database) :
  StringKeys db !! key = Some storage -> storage <> EmptyString ->
  (forall t, t ∈ [t1; t2; t3; t4] -> expired t key db = false) ->
  Atoi storage = inr n -> inInt64 d = true ->
  DecrBy t3 t4 key d (IncrBy t1 t2 key d db).2 = (n, Set_ key (Itoa n) db) /\
  Decr t3 t4 key (Incr t1 t2 key db).2 = (n, Set_ key (Itoa n) db).
Proof.
  intros Hs Hne Hlive Hn Hd.
  assert (H1 : expired t1 key db = false) by (apply Hlive; set_solver).
  assert (H2 : expired t2 key db = false) by (apply Hlive; set_solver).
  assert (H3 : expired t3 key db = false) by (apply Hlive; set_solver).
  assert (H4 : expired t4 key db = false) by (apply Hlive; set_solver).
  pose proof (Atoi_inInt64 _ _ Hn) as Hrange%inInt64_spec.
  assert (Hundo : forall e,
            incrWith (wrap64 (- e)) (fun value => value - e) t3 t4 key
              (Set_ key (Itoa (wrap64 (n + e))) db)
            = (n, Set_ key (Itoa n) db)).
  { intros e.
    destruct (incrWith_stored t3 key (wrap64 (n + e)) db) as (Hst & Hnemp & _).
    rewrite (incrWith_integer _ _ t3 t4 key _ (wrap64 (n + e)) _ Hst Hnemp H3 H4)
      by (apply Atoi_Itoa, wrap64_inInt64).
    replace (wrap64 (n + e) - e) with (wrap64 (n + e) + - e) by lia.
    rewrite wrap64_add_l. replace (n + e + - e) with n by lia.
    rewrite wrap64_small by lia. f_equal.
    unfold Set_, withStringKeys. cbn [dbid StringKeys ExpireKeys].
    now rewrite insert_insert_eq. }
  destruct (incr_arithmetic_core t1 t2 key storage n db Hs Hne H1 H2 Hn) as [Hi Hb].
  split.
  - rewrite (Hb d). cbn [snd]. unfold DecrBy. apply Hundo.
  - rewrite Hi. cbn [snd]. unfold Decr.
    change (-1) with (wrap64 (- 1)). apply (Hundo 1).
Qed.

Lemma decr_undoes_incr_witness :
  let db := Set_ "key" "9223372036854775807" (NewDatabase 0) in
  (Incr 1 2 "key" db).1 = - 9223372036854775808 /\
  Decr 3 4 "key" (Incr 1 2 "key" db).2
  = (9223372036854775807, Set_ "key" "9223372036854775807" db).
Proof.
  intros db. split; [vm_compute; reflexivity |].
  apply (decr_undoes_incr 1 2 3 4 "key" "9223372036854775807"
           9223372036854775807 1 db);
    first [discriminate | vm_compute; reflexivity | intros t _; reflexivity].
Defined.

Lemma incrWith_absent (fresh : Z) (step : Z -> Z) (now later : Time)
    (key : string) (db : Database) :
  StringKeys db !! key = None ->
  incrWith fresh step now later key db = (fresh, Set_ key (Itoa fresh) db).
Proof.
  intros Hs. unfold incrWith. rewrite Get_spec, Hs.
  now rewrite bool_decide_eq_true_2 by reflexivity.
Qed.

(** X17: a counter starts from nothing.  On a key with no value and no
    expiry, Incr returns 1 and stores "1"; IncrBy d after it returns 1+d and
    Decr after that returns d, each one storing the text of what it returns. *)
Theorem counter_from_scratch (t1 t2 t3 t4 t5 t6 : Time) (key : string) (d : Z)
    (db : Database) :
  StringKeys db !! key = None -> ExpireKeys db !! key = None ->
  - 2 ^ 63 <= d -> 1 + d < 2 ^ 63 ->
  Incr t1 t2 key db = (1, Set_ key "1" db) /\
  IncrBy t3 t4 key d (Set_ key "1" db) = (1 + d, Set_ key (Itoa (1 + d)) db) /\
  Decr t5 t6 key (Set_ key (Itoa (1 + d)) db) = (d, Set_ key (Itoa d) db).
Proof.
  intros Hs He Hlo Hhi.
  assert (Hlive : forall t value, expired t key (Set_ key value db) = false).
  { intros t value. rewrite expired_Set. unfold expired. now rewrite He. }
  assert (Hset : forall a b, Set_ key a (Set_ key b db) = Set_ key a db).
  { intros a b. unfold Set_, withStringKeys. cbn [dbid StringKeys ExpireKeys].
    now rewrite insert_insert_eq. }
  split; [| split].
  - unfold Incr. now rewrite incrWith_absent.
  - unfold IncrBy.
    rewrite (incrWith_integer _ _ t3 t4 key "1" 1 (Set_ key "1" db));
      [| cbn; apply lookup_insert_eq | discriminate | apply Hlive | apply Hlive
       | reflexivity].
    rewrite wrap64_small by lia. now rewrite Hset.
  - unfold Decr. destruct (incrWith_stored t5 key (1 + d) db) as (Hst & Hne & _).
    rewrite (incrWith_integer _ _ t5 t6 key _ (1 + d) _ Hst Hne
               (Hlive _ _) (Hlive _ _))
      by (apply Atoi_Itoa, inInt64_spec; lia).
    replace (1 + d - 1) with d by lia.
    rewrite wrap64_small by lia. now rewrite Hset.
Qed.

Lemma counter_from_scratch_witness :
  Incr 1 2 "ctr" (NewDatabase 0) = (1, Set_ "ctr" "1" (NewDatabase 0)) /\
  IncrBy 3 4 "ctr" 9 (Set_ "ctr" "1" (NewDatabase 0))
  = (1 + 9, Set_ "ctr" (Itoa (1 + 9)) (NewDatabase 0)) /\
  Decr 5 6 "ctr" (Set_ "ctr" (Itoa (1 + 9)) (NewDatabase 0))
  = (9, Set_ "ctr" (Itoa 9) (NewDatabase 0)).
Proof.
  apply (counter_from_scratch 1 2 3 4 5 6 "ctr" 9 (NewDatabase 0));
    first [reflexivity | lia].
Defined.

(** ** Expiry: Expire, TTL, Persist and the sweep *)

Lemma Seconds_small (seconds : Z) :
  - 2 ^ 63 <= 1000000000 * seconds < 2 ^ 63 ->
  Seconds seconds = 1000000000 * seconds.
Proof. intros H. unfold Seconds. now apply wrap64_small. Qed.

(** X18: Expire on a key that is there returns true and sets the expiry to
    the instant of the call plus the seconds, leaving the value as it is;
    from then until that instant TTL returns a number of seconds between 0
    and the seconds given.  On a key that is not there Expire returns false
    and sets no expiry. *)
Theorem Expire_then_TTL (now later t1 t2 : Time) (key : string) (seconds : Z)
    (db : Database) :
  (forall storage,
     StringKeys db !! key = Some storage -> storage <> EmptyString ->
     expired now key db = false ->
     0 <= seconds -> 1000000000 * seconds < 2 ^ 63 -> 0 < later ->
     (Expire now later key seconds db).1 = true /\
     ExpireKeys (Expire now later key seconds db).2 !! key
     = Some (later + 1000000000 * seconds) /\
     StringKeys (Expire now later key seconds db).2 = StringKeys db /\
     (later <= t1 -> t1 <= t2 -> t2 <= later + 1000000000 * seconds ->
      0 <= (TTL t1 t2 key (Expire now later key seconds db).2).1 <= seconds)) /\
  (~ present now key db ->
   (Expire now later key seconds db).1 = false /\
   sweptAt now db (Expire now later key seconds db).2).
Proof.
  split.
  - intros storage Hs Hne Hlive H0 Hfit Hclock. unfold Expire.
    rewrite (Get_present now key storage db Hs Hlive).
    rewrite bool_decide_eq_false_2 by exact Hne.
    rewrite Seconds_small by lia. cbn [fst snd withExpireKeys StringKeys ExpireKeys].
    split; [reflexivity |]. split; [apply lookup_insert_eq |].
    split; [reflexivity |]. intros H1 H2 H3.
    rewrite TTL_spec. unfold expired, withExpireKeys. cbn [StringKeys ExpireKeys].
    rewrite Hs, lookup_insert_eq. unfold After.
    destruct (Z.ltb_spec (later + 1000000000 * seconds) t1); [lia |].
    rewrite bool_decide_eq_false_2 by exact Hne.
    rewrite bool_decide_eq_false_2 by (unfold zeroTime; lia).
    apply secondsUntil_bounds; lia.
  - intros Hnot. unfold Expire.
    pose proof (sweptAt_Get now key db) as Hswept.
    apply Get_empty_iff in Hnot.
    destruct (Get now key db) as [storage db1]. cbn [fst snd] in *. subst storage.
    now rewrite bool_decide_eq_true_2 by reflexivity.
Qed.

Lemma Expire_then_TTL_witness :
  let db := Set_ "a" "1" (NewDatabase 0) in
  (Expire 10 20 "a" 100 db).1 = true /\
  0 <= (TTL 30 40 "a" (Expire 10 20 "a" 100 db).2).1 <= 100.
Proof.
  intros db.
  destruct (Expire_then_TTL 10 20 30 40 "a" 100 db) as [Hthere _].
  destruct (Hthere "1"%string) as (Hdone & _ & _ & Httl);
    first [discriminate | lia | reflexivity | idtac].
  split; [exact Hdone | apply Httl; lia].
Defined.

(** X19: Persist on a key that is there and has an expiry returns true and
    removes the expiry, leaving the value: from then on TTL returns -1 and
    the key is read at every instant.  On a key that is there without an
    expiry it returns false and changes nothing. *)
Theorem Persist_removes_expiry (now : Time) (key storage : string) (db : Database) :
  StringKeys db !! key = Some storage -> storage <> EmptyString ->
  expired now key db = false ->
  (forall expire, ExpireKeys db !! key = Some expire -> expire <> zeroTime ->
     (Persist now key db).1 = true /\
     ExpireKeys (Persist now key db).2 !! key = None /\
     StringKeys (Persist now key db).2 = StringKeys db /\
     (forall t1 t2, (TTL t1 t2 key (Persist now key db).2).1 = -1) /\
     (forall t, (Get t key (Persist now key db).2).1 = storage)) /\
  (ExpireKeys db !! key = None -> Persist now key db = (false, db)).
Proof.
  intros Hs Hne Hlive. unfold Persist.
  rewrite (Get_present now key storage db Hs Hlive).
  rewrite bool_decide_eq_false_2 by exact Hne. unfold GetExpire. split.
  - intros expire He Hz. rewrite He.
    rewrite bool_decide_eq_false_2 by exact Hz.
    unfold withExpireKeys. cbn [fst snd StringKeys ExpireKeys].
    split; [reflexivity |]. split; [apply lookup_delete_eq |].
    split; [reflexivity |]. split.
    + intros t1 t2. rewrite TTL_spec. unfold expired. cbn [StringKeys ExpireKeys].
      rewrite Hs, lookup_delete_eq. now rewrite bool_decide_eq_false_2 by exact Hne.
    + intros t. rewrite Get_spec. unfold expired. cbn [StringKeys ExpireKeys].
      now rewrite Hs, lookup_delete_eq.
  - intros He. rewrite He. now rewrite bool_decide_eq_true_2 by reflexivity.
Qed.

Lemma Persist_removes_expiry_witness :
  let db := Setpx 1000 "a" 5000 "1" (NewDatabase 0) in
  (Persist 2000 "a" db).1 = true /\
  (TTL 3000 4000 "a" (Persist 2000 "a" db).2).1 = -1.
Proof.
  intros db.
  destruct (Persist_removes_expiry 2000 "a" "1" db) as [Hset _];
    first [discriminate | reflexivity | idtac].
  destruct (Hset 5000001000) as (Hdone & _ & _ & Httl & _);
    first [discriminate | reflexivity | idtac].
  split; [exact Hdone | apply Httl].
Defined.

Lemma sweep_expire_lookup (now : Time) (db : Database) (key : string) :
  ExpireKeys (checkAndRemoveExpiredKeys now db) !! key
  = if expired now key db then None else ExpireKeys db !! key.
Proof.
  unfold checkAndRemoveExpiredKeys, expired. cbn [ExpireKeys].
  destruct (ExpireKeys db !! key) as [expire |] eqn:He.
  - destruct (After now expire) eqn:Hafter.
    + apply map_lookup_filter_None_2. right. intros x Hx. cbn. congruence.
    + now apply map_lookup_filter_Some_2.
  - apply map_lookup_filter_None_2. now left.
Qed.

Lemma sweep_string_lookup (now : Time) (db : Database) (key : string) :
  StringKeys (checkAndRemoveExpiredKeys now db) !! key
  = if expired now key db then None else StringKeys db !! key.
Proof.
  unfold checkAndRemoveExpiredKeys, expired. cbn [StringKeys].
  destruct (ExpireKeys db !! key) as [expire |] eqn:He.
  - destruct (After now expire) eqn:Hafter.
    + apply map_lookup_filter_None_2. right. intros x Hx. cbn.
      now rewrite (map_lookup_filter_Some_2 _ _ key expire He Hafter).
    + destruct (StringKeys db !! key) as [storage |] eqn:Hs.
      * apply map_lookup_filter_Some_2; [exact Hs |]. cbn.
        apply map_lookup_filter_None_2. right. intros x Hx. cbn. congruence.
      * apply map_lookup_filter_None_2. now left.
  - destruct (StringKeys db !! key) as [storage |] eqn:Hs.
    + apply map_lookup_filter_Some_2; [exact Hs |]. cbn.
      apply map_lookup_filter_None_2. now left.
    + apply map_lookup_filter_None_2. now left.
Qed.

(** X20: the sweep of the expiry checker removes from both maps every key
    whose expiry has passed and nothing else; after it no key is expired,
    every key reads as it did before (the sweep shows nothing that lazy
    expiration would not), and a second sweep at the same instant changes
    nothing. *)
Theorem sweep_removes_expired_keys (now : Time) (db : Database) :
  (forall key, expired now key db = true ->
     StringKeys (checkAndRemoveExpiredKeys now db) !! key = None /\
     ExpireKeys (checkAndRemoveExpiredKeys now db) !! key = None) /\
  (forall key, expired now key db = false ->
     StringKeys (checkAndRemoveExpiredKeys now db) !! key = StringKeys db !! key /\
     ExpireKeys (checkAndRemoveExpiredKeys now db) !! key = ExpireKeys db !! key) /\
  (forall key, expired now key (checkAndRemoveExpiredKeys now db) = false) /\
  (forall key, (Get now key (checkAndRemoveExpiredKeys now db)).1
               = (Get now key db).1) /\
  checkAndRemoveExpiredKeys now (checkAndRemoveExpiredKeys now db)
  = checkAndRemoveExpiredKeys now db.
Proof.
  assert (Hnone : forall key, expired now key (checkAndRemoveExpiredKeys now db) = false).
  { intros key. unfold expired at 1. rewrite sweep_expire_lookup.
    destruct (expired now key db) eqn:Hexp; [reflexivity |].
    unfold expired in Hexp. exact Hexp. }
  assert (Hswept : sweptAt now db (checkAndRemoveExpiredKeys now db)).
  { intros key. rewrite sweep_string_lookup, sweep_expire_lookup.
    destruct (expired now key db); [right | left]; now repeat split. }
  split; [| split; [| split; [| split]]].
  - intros key Hexp. now rewrite sweep_string_lookup, sweep_expire_lookup, Hexp.
  - intros key Hexp. now rewrite sweep_string_lookup, sweep_expire_lookup, Hexp.
  - exact Hnone.
  - intros key. now apply Get_sweptAt.
  - set (db' := checkAndRemoveExpiredKeys now db) in *.
    assert (Hs : StringKeys (checkAndRemoveExpiredKeys now db') = StringKeys db').
    { apply map_eq. intros key. now rewrite sweep_string_lookup, Hnone. }
    assert (He : ExpireKeys (checkAndRemoveExpiredKeys now db') = ExpireKeys db').
    { apply map_eq. intros key. now rewrite sweep_expire_lookup, Hnone. }
    destruct db' as [i sk ek] eqn:Hdb. unfold checkAndRemoveExpiredKeys in *.
    cbn [dbid StringKeys ExpireKeys] in *. now rewrite Hs, He.
Qed.

(** ** Keys and Flush *)

(** X21: Keys returns, each one once, the keys of the value map that the
    pattern matches.  It looks neither at the values nor at the expiry map:
    a key whose expiry has passed and that Get reports absent is still
    listed as long as no read and no sweep has purged it. *)
Theorem Keys_lists_the_value_map (Match : string -> string -> bool)
    (pattern : string) (db : Database) :
  (forall key, key ∈ Keys Match pattern db
               <-> Match pattern key = true /\ is_Some (StringKeys db !! key)) /\
  NoDup (Keys Match pattern db) /\
  (forall now key storage,
     StringKeys db !! key = Some storage -> expired now key db = true ->
     Match pattern key = true ->
     (Get now key db).1 = EmptyString /\ key ∈ Keys Match pattern db).
Proof.
  split; [| split].
  - intros key. apply Keys_elem.
  - unfold Keys. apply NoDup_filter, NoDup_fst_map_to_list.
  - intros now key storage Hs Hexp Hm. split.
    + now rewrite Get_spec, Hs, Hexp.
    + apply Keys_elem. eauto.
Qed.

(** X22: after Flush the database holds nothing: every key reads absent,
    TTL is -2 for every key and Keys returns no key; FLUSHDB does this to the
    selected database only and FLUSHALL to every database, both replying
    +OK and leaving the selected index as it is. *)
Theorem Flush_empties (now later : Time) (Match : string -> string -> bool)
    (pattern : string) (db : Database) (redis : RedisServer) (args : list string) :
  (forall key, Get now key (Flush db) = (EmptyString, Flush db)) /\
  (forall key, (TTL now later key (Flush db)).1 = -2) /\
  Keys Match pattern (Flush db) = [] /\
  (0 <= selectedDB redis ->
   databases redis !! Z.to_nat (selectedDB redis) = Some db ->
   flushdbCommand args redis
   = Ok (returnSimpleString "OK",
         mkServer (<[Z.to_nat (selectedDB redis) := Flush db]> (databases redis))
           (selectedDB redis) (disk redis))) /\
  (exists redis',
     flushallCommand args redis = Ok (returnSimpleString "OK", redis') /\
     selectedDB redis' = selectedDB redis /\
     length (databases redis') = length (databases redis) /\
     Forall (fun d => StringKeys d = ∅ /\ ExpireKeys d = ∅) (databases redis')).
Proof.
  split; [| split; [| split; [| split]]].
  - intros key. now rewrite Get_spec.
  - intros key. now rewrite TTL_spec.
  - unfold Keys. cbn [Flush StringKeys]. now rewrite map_to_list_empty.
  - intros Hi Hdb. unfold flushdbCommand.
    now rewrite (onSelected_lookup _ _ db Hi Hdb).
  - eexists. split; [reflexivity |]. cbn [selectedDB databases].
    split; [reflexivity |]. split; [apply length_map |].
    apply Forall_fmap, Forall_true. intros d. now split.
Qed.

Lemma Flush_empties_witness :
  flushdbCommand [] (serverOf (Set_ "key" "value" (NewDatabase 0)))
  = Ok (returnSimpleString "OK", serverOf (NewDatabase 0)).
Proof.
  destruct (Flush_empties 0 0 String.eqb "*" (Set_ "key" "value" (NewDatabase 0))
              (serverOf (Set_ "key" "value" (NewDatabase 0))) [])
    as (_ & _ & _ & Hdb & _).
  rewrite Hdb; [reflexivity | vm_compute; discriminate | reflexivity].
Defined.

(** ** Snapshots: Save, then Load *)

(** X23: what Save writes, Load reads back.  After a Save that succeeds, the
    dump file of the database holds its two maps; Load with no file name, or
    with the name of the dump, into an empty database of the same id gives
    the two maps back, expiry instants included, and Load into the database
    that was saved changes nothing. *)
Theorem Load_after_Save (files : Disk) (db target : Database) :
  let files' := (Save SaveSucceeds files db).1 in
  (Save SaveSucceeds files db).2 = db /\
  files' !! dumpName db = Some (GobImage (StringKeys db) (ExpireKeys db)) /\
  Load files' EmptyString db = db /\
  (dbid target = dbid db -> StringKeys target = ∅ -> ExpireKeys target = ∅ ->
   Load files' EmptyString target = db /\
   Load files' (dumpName db) target = db).
Proof.
  intros files'.
  assert (Hfile : files' !! dumpName db
                  = Some (GobImage (StringKeys db) (ExpireKeys db)))
    by apply lookup_insert_eq.
  split; [reflexivity |]. split; [exact Hfile |].
  assert (Hname : dumpName db <> EmptyString) by discriminate.
  split.
  - unfold Load. rewrite bool_decide_eq_true_2 by reflexivity.
    rewrite Hfile. unfold gobDecodeInto.
    rewrite !(idemp_L union). now destruct db.
  - intros Hid Hs He.
    assert (Hdump : dumpName target = dumpName db) by (unfold dumpName; now rewrite Hid).
    assert (Hload : gobDecodeInto (StringKeys db) (ExpireKeys db) target = db).
    { unfold gobDecodeInto. rewrite Hid, Hs, He, !(right_id_L ∅ union).
      now destruct db. }
    unfold Load. split.
    + rewrite bool_decide_eq_true_2 by reflexivity.
      now rewrite Hdump, Hfile.
    + rewrite bool_decide_eq_false_2 by exact Hname.
      now rewrite Hfile.
Qed.

Lemma Load_after_Save_witness :
  let db := Setpx 1000 "a" 5000 "1" (Set_ "b" "2" (NewDatabase 3)) in
  Load (Save SaveSucceeds ∅ db).1 EmptyString (NewDatabase 3) = db.
Proof.
  intros db.
  destruct (Load_after_Save ∅ db (NewDatabase 3)) as (_ & _ & _ & Hfresh).
  now destruct Hfresh as [Hload _].
Defined.

(** ** The server: SELECT and the shape of the server *)

Lemma wellFormed_lookup (redis : RedisServer) :
  wellFormed redis ->
  exists db, databases redis !! Z.to_nat (selectedDB redis) = Some db.
Proof.
  intros [Hlen Hsel]. apply lookup_lt_is_Some_2. lia.
Qed.

(** X24: SELECT with one argument that is the decimal text of an index from
    0 to 15 replies +OK, makes that index the selected one and sweeps the
    expired keys of the database it selects, touching no other database;
    with a text that is no integer, or an index outside 0..15, it replies an
    error and leaves the server as it is. *)
Theorem selectCommand_cases (now : Time) (text : string) (redis : RedisServer) :
  wellFormed redis ->
  (forall e, Atoi text = inl e ->
     selectCommand now [text] redis
     = Ok (returnError "value is not an integer", redis)) /\
  (forall i, Atoi text = inr i -> i < 0 \/ 16 <= i ->
     selectCommand now [text] redis
     = Ok (returnError "value is out of range or invalid DB index", redis)) /\
  (forall i db, Atoi text = inr i -> 0 <= i < 16 ->
     databases redis !! Z.to_nat i = Some db ->
     selectCommand now [text] redis
     = Ok (returnSimpleString "OK",
           mkServer (<[Z.to_nat i := checkAndRemoveExpiredKeys now db]> (databases redis))
             i (disk redis))).
Proof.
  intros Hwf. destruct (wellFormed_lookup redis Hwf) as [db0 Hdb0].
  destruct Hwf as [Hlen Hsel].
  unfold selectCommand. cbn [length]. change (Z.of_nat 1 =? 1) with true.
  cbn [negb]. change (index [text] 0) with (Ok (A := string) text).
  cbn [mbind outcome_bind bind]. split; [| split].
  - intros e ->. reflexivity.
  - intros i -> Hout.
    destruct (Z.ltb_spec i 0); destruct (Z.leb_spec 16 i); cbn [orb];
      first [reflexivity | lia].
  - intros i db -> Hi Hdb.
    destruct (Z.ltb_spec i 0); [lia |]. destruct (Z.leb_spec 16 i); [lia |].
    cbn [orb]. unfold SelectDB.
    rewrite (index_lookup _ _ db0) by (lia || exact Hdb0).
    cbn [mbind outcome_bind bind].
    rewrite (onSelected_lookup _ (mkServer (databases redis) i (disk redis)) db)
      by (cbn; lia || exact Hdb).
    reflexivity.
Qed.

Lemma selectCommand_cases_witness :
  let redis := Server_Init 0 EmptyString ∅ in
  selectCommand 10 ["100"%string] redis
  = Ok (returnError "value is out of range or invalid DB index", redis) /\
  selectCommand 10 ["non-integer"%string] redis
  = Ok (returnError "value is not an integer", redis).
Proof.
  intros redis.
  assert (Hwf : wellFormed redis) by (split; [reflexivity | cbn; lia]).
  split.
  - destruct (selectCommand_cases 10 "100" redis Hwf) as (_ & Hout & _).
    apply (Hout 100); [reflexivity | lia].
  - destruct (selectCommand_cases 10 "non-integer" redis Hwf) as (Hbad & _).
    apply (Hbad ErrSyntax). reflexivity.
Defined.

Lemma updatesSelected_refl (redis : RedisServer) : updatesSelected redis redis.
Proof.
  split; [reflexivity |].
  destruct (databases redis !! Z.to_nat (selectedDB redis)) as [db |] eqn:Hdb.
  - exists db. now rewrite list_insert_id.
  - exists (NewDatabase 0). rewrite list_insert_ge; [reflexivity |].
    now apply lookup_ge_None.
Qed.

Lemma onSelected_updates {A} (f : Database -> A * Database)
    (redis redis' : RedisServer) (a : A) :
  onSelected f redis = Ok (a, redis') -> updatesSelected redis redis'.
Proof.
  unfold onSelected, mbind, outcome_bind, bind.
  destruct (index (databases redis) (selectedDB redis)) as [db | | |];
    try discriminate.
  destruct (f db) as [a' db']. intros [= <- <-]. split; [reflexivity |].
  now exists db'.
Qed.

Lemma onSelectedM_updates {A} (f : Database -> outcome (A * Database))
    (redis redis' : RedisServer) (a : A) :
  onSelectedM f redis = Ok (a, redis') -> updatesSelected redis redis'.
Proof.
  unfold onSelectedM, mbind, outcome_bind, bind.
  destruct (index (databases redis) (selectedDB redis)) as [db | | |];
    try discriminate.
  destruct (f db) as [[a' db'] | | |]; try discriminate.
  intros [= <- <-]. split; [reflexivity |]. now exists db'.
Qed.

Lemma updatesSelected_wellFormed (redis redis' : RedisServer) :
  updatesSelected redis redis' -> wellFormed redis -> wellFormed redis'.
Proof.
  intros [Hsel [db' Hdbs]] [Hlen Hrange]. split.
  - now rewrite Hdbs, length_insert.
  - now rewrite Hsel.
Qed.

(** A handler that returns has gone through [reply], [onSelected] or
    [onSelectedM]: the cases of its body are taken one by one. *)
Ltac handler_updates H :=
  unfold reply, mbind, outcome_bind, bind in H;
  repeat case_match; simplify_eq;
  eauto using updatesSelected_refl, onSelected_updates, onSelectedM_updates.

Lemma saveCommand_updates (saveIO : SaveIO) (args : list string)
    (redis redis' : RedisServer) (r : string) :
  saveCommand saveIO args redis = Ok (r, redis') -> updatesSelected redis redis'.
Proof.
  unfold saveCommand, reply, mbind, outcome_bind, bind.
  destruct (index (databases redis) (selectedDB redis)) as [db | | |];
    try discriminate.
  destruct (Save saveIO (disk redis) db) as [files db'].
  intros [= <- <-]. split; [reflexivity |]. now exists db'.
Qed.

Lemma handlers_update_selected (now later : Time) (Match : string -> string -> bool)
    (saveIO : SaveIO) (args : list string) (redis redis' : RedisServer)
    (r : string) :
  Forall (fun entry : string * CommandFunc =>
            entry.1 <> "SELECT"%string -> entry.1 <> "FLUSHALL"%string ->
            entry.2 args redis = Ok (r, redis') -> updatesSelected redis redis')
         (getCommandMap now later Match saveIO).
Proof.
  unfold getCommandMap.
  repeat first [apply Forall_nil_2 | apply Forall_cons_2];
    cbn [fst snd]; intros Hselect Hflush H; try congruence.
  - unfold pingCommand in H. handler_updates H.
  - unfold echoCommand in H. handler_updates H.
  - unfold setCommand, setWithExpiry in H. handler_updates H.
  - unfold setexCommand in H. handler_updates H.
  - unfold getCommand in H. handler_updates H.
  - unfold getsetCommand in H. handler_updates H.
  - unfold getdelCommand in H. handler_updates H.
  - unfold msetCommand in H. handler_updates H.
  - unfold msetnxCommand in H. handler_updates H.
  - unfold mgetCommand in H. handler_updates H.
  - unfold delCommand in H. handler_updates H.
  - unfold incrCommand in H. handler_updates H.
  - unfold incrbyCommand in H. handler_updates H.
  - unfold decrCommand in H. handler_updates H.
  - unfold decrbyCommand in H. handler_updates H.
  - unfold expireCommand in H. handler_updates H.
  - unfold ttlCommand in H. handler_updates H.
  - unfold persistCommand in H. handler_updates H.
  - unfold existsCommand in H. handler_updates H.
  - unfold keysCommand in H. handler_updates H.
  - now apply saveCommand_updates in H.
  - unfold loadCommand in H. handler_updates H.
  - unfold flushdbCommand in H. handler_updates H.
Qed.

Lemma Server_Init_wellFormed (now : Time) (fileName : string) (files : Disk) :
  wellFormed (Server_Init now fileName files).
Proof. split; [reflexivity | cbn; lia]. Qed.

Lemma selectCommand_wellFormed (now : Time) (args : list string)
    (redis redis' : RedisServer) (r : string) :
  wellFormed redis -> selectCommand now args redis = Ok (r, redis') ->
  wellFormed redis'.
Proof.
  intros Hwf H. unfold selectCommand, SelectDB in H.
  unfold reply, mbind, outcome_bind, bind in H.
  repeat case_match; simplify_eq; try exact Hwf.
  match goal with
  | Hsel : onSelected _ _ = Ok _ |- _ => apply onSelected_updates in Hsel as Hup
  end.
  apply (updatesSelected_wellFormed _ _ Hup).
  destruct Hwf as [Hlen _]. split; [exact Hlen |]. cbn [selectedDB].
  match goal with
  | Hrange : (_ <? 0) || (16 <=? _) = false |- _ =>
      apply orb_false_iff in Hrange as [?%Z.ltb_ge ?%Z.leb_gt]
  end. lia.
Qed.

(** X25: the server keeps its shape.  Init builds sixteen databases with the
    first one selected, and every registered handler that returns leaves
    sixteen databases and a selected index from 0 to 15, whatever the
    arguments it was given. *)
Theorem handlers_keep_the_server_wellFormed (now later : Time)
    (Match : string -> string -> bool) (saveIO : SaveIO) (fileName : string)
    (files : Disk) :
  wellFormed (Server_Init now fileName files) /\
  (forall name command args redis redis' r,
     (name, command) ∈ getCommandMap now later Match saveIO ->
     wellFormed redis -> command args redis = Ok (r, redis') ->
     wellFormed redis').
Proof.
  split; [apply Server_Init_wellFormed |].
  intros name command args redis redis' r Hin Hwf Hres.
  destruct (decide (name = "SELECT"%string)) as [-> | Hselect].
  { assert (command = selectCommand now) as ->.
    { unfold getCommandMap in Hin.
      repeat (apply elem_of_cons in Hin as [Hin | Hin]; [congruence |]).
      now apply elem_of_nil in Hin. }
    now apply (selectCommand_wellFormed now args redis redis' r). }
  destruct (decide (name = "FLUSHALL"%string)) as [-> | Hflush].
  { assert (command = flushallCommand) as ->.
    { unfold getCommandMap in Hin.
      repeat (apply elem_of_cons in Hin as [Hin | Hin]; [congruence |]).
      now apply elem_of_nil in Hin. }
    unfold flushallCommand, reply in Hres. injection Hres as <- <-.
    destruct Hwf as [Hlen Hsel]. split; [| exact Hsel].
    cbn [databases]. now rewrite length_map. }
  pose proof (handlers_update_selected now later Match saveIO args redis redis' r)
    as Hall.
  rewrite Forall_forall in Hall.
  apply (updatesSelected_wellFormed redis redis'); [| exact Hwf].
  now apply (Hall (name, command) Hin).
Qed.

(** X26: the databases are isolated.  A handler other than SELECT and
    FLUSHALL that returns leaves the selected index as it is and every
    database but the selected one exactly as it was. *)
Theorem handlers_touch_the_selected_database_only (now later : Time)
    (Match : string -> string -> bool) (saveIO : SaveIO) (name : string)
    (command : CommandFunc) (args : list string) (redis redis' : RedisServer)
    (r : string) :
  (name, command) ∈ getCommandMap now later Match saveIO ->
  name <> "SELECT"%string -> name <> "FLUSHALL"%string ->
  command args redis = Ok (r, redis') ->
  selectedDB redis' = selectedDB redis /\
  length (databases redis') = length (databases redis) /\
  (forall j, j <> Z.to_nat (selectedDB redis) ->
     databases redis' !! j = databases redis !! j).
Proof.
  intros Hin Hselect Hflush Hres.
  pose proof (handlers_update_selected now later Match saveIO args redis redis' r)
    as Hall.
  rewrite Forall_forall in Hall.
  destruct (Hall (name, command) Hin Hselect Hflush Hres) as [Hsel [db' Hdbs]].
  split; [exact Hsel |]. rewrite Hdbs. split; [apply length_insert |].
  intros j Hj. apply list_lookup_insert_ne. congruence.
Qed.

Lemma handlers_touch_the_selected_database_only_witness :
  let redis := mkServer [NewDatabase 0; Set_ "x" "v" (NewDatabase 1)] 0 ∅ in
  exists r redis',
    setCommand 10 ["x"; "other"]%string redis = Ok (r, redis') /\
    databases redis' !! 1%nat = Some (Set_ "x" "v" (NewDatabase 1)).
Proof.
  intros redis.
  destruct (setCommand 10 ["x"; "other"]%string redis) as [[r redis'] | | |] eqn:Hres;
    try (vm_compute in Hres; discriminate Hres).
  exists r, redis'. split; [reflexivity |].
  destruct (handlers_touch_the_selected_database_only 10 11 String.eqb SaveSucceeds
              "SET" (setCommand 10) ["x"; "other"]%string redis redis' r)
    as (_ & _ & Hother); [set_solver | discriminate | discriminate | exact Hres |].
  now rewrite Hother by discriminate.
Defined.

(** ** SET and its options *)

(** X27: SET with more than two arguments reads an option and its number.
    With the option PX or EX, in any letter case, and no number after it the
    handler panics reading args[3]; with a number that Atoi refuses, or with
    any other option, it replies an error and stores nothing; with PX n it
    sets the key to expire n milliseconds from now, with EX n, 1000*n
    milliseconds in 64-bit arithmetic. *)
Theorem setCommand_options (now : Time) (key value option : string)
    (redis : RedisServer) (db : Database) :
  0 <= selectedDB redis ->
  databases redis !! Z.to_nat (selectedDB redis) = Some db ->
  (ToUpper option = "PX"%string \/ ToUpper option = "EX"%string ->
   setCommand now [key; value; option] redis = Panic IndexOutOfRange /\
   (forall number rest e, Atoi number = inl e ->
      setCommand now (key :: value :: option :: number :: rest) redis
      = Ok (returnError "value is not an integer or out of range", redis)) /\
   (forall number rest n, Atoi number = inr n ->
      setCommand now (key :: value :: option :: number :: rest) redis
      = Ok (returnSimpleString "OK",
            mkServer
              (<[Z.to_nat (selectedDB redis) :=
                   Setpx now key
                     (if bool_decide (ToUpper option = "PX"%string)
                      then n else wrap64 (n * 1000)) value db]> (databases redis))
              (selectedDB redis) (disk redis)))) /\
  (ToUpper option <> "PX"%string -> ToUpper option <> "EX"%string ->
   forall rest,
     setCommand now (key :: value :: option :: rest) redis
     = Ok (returnError ("unknown command '" +:+ option +:+ "'"), redis)).
Proof.
  intros Hi Hdb.
  assert (Hhead : forall rest,
            setCommand now (key :: value :: option :: rest) redis
            = if bool_decide (ToUpper option = "PX"%string)
              then setWithExpiry now (key :: value :: option :: rest) 1 redis
              else if bool_decide (ToUpper option = "EX"%string)
                   then setWithExpiry now (key :: value :: option :: rest) 1000 redis
                   else reply (returnError ("unknown command '" +:+ option +:+ "'"))
                          redis).
  { intros rest. unfold setCommand, checkNumberOfArguments. cbn [length].
    destruct (Z.leb_spec 2 (Z.of_nat (S (S (S (length rest)))))); [| lia].
    destruct (Z.leb_spec 3 (Z.of_nat (S (S (S (length rest)))))); [| lia].
    reflexivity. }
  assert (Hnumber : forall factor number rest,
            setWithExpiry now (key :: value :: option :: number :: rest) factor redis
            = match Atoi number with
              | inl _ =>
                  Ok (returnError "value is not an integer or out of range", redis)
              | inr n =>
                  Ok (returnSimpleString "OK",
                      mkServer
                        (<[Z.to_nat (selectedDB redis) :=
                             Setpx now key (wrap64 (n * factor)) value db]>
                           (databases redis))
                        (selectedDB redis) (disk redis))
              end).
  { intros factor number rest. unfold setWithExpiry.
    change (index (key :: value :: option :: number :: rest) 3)
      with (Ok (A := string) number).
    cbn [mbind outcome_bind bind]. destruct (Atoi number) as [e | n]; [reflexivity |].
    change (index (key :: value :: option :: number :: rest) 0)
      with (Ok (A := string) key).
    change (index (key :: value :: option :: number :: rest) 1)
      with (Ok (A := string) value).
    cbn [mbind outcome_bind bind].
    now rewrite (onSelected_lookup _ _ db Hi Hdb). }
  split.
  - intros Hopt. split; [| split].
    + rewrite Hhead. destruct Hopt as [-> | ->]; reflexivity.
    + intros number rest e He. rewrite Hhead, !Hnumber, He.
      destruct Hopt as [Hpx | Hex];
        [now rewrite bool_decide_eq_true_2 by exact Hpx | now rewrite Hex].
    + intros number rest n Hn. rewrite Hhead, !Hnumber, Hn.
      pose proof (Atoi_inInt64 _ _ Hn) as Hrange%inInt64_spec.
      destruct Hopt as [Hpx | Hex].
      * rewrite !bool_decide_eq_true_2 by exact Hpx.
        now rewrite Z.mul_1_r, wrap64_small by lia.
      * rewrite Hex. reflexivity.
  - intros Hpx Hex rest. rewrite Hhead.
    now rewrite !bool_decide_eq_false_2 by assumption.
Qed.

Lemma setCommand_options_witness :
  setCommand 10 ["key"; "value"; "px"]%string (serverOf (NewDatabase 0))
  = Panic IndexOutOfRange /\
  setCommand 10 ["key"; "value"; "FOO"; "1"]%string (serverOf (NewDatabase 0))
  = Ok (returnError "unknown command 'FOO'", serverOf (NewDatabase 0)).
Proof.
  split.
  - destruct (setCommand_options 10 "key" "value" "px" (serverOf (NewDatabase 0))
                (NewDatabase 0)) as [Hopt _];
      [cbn; lia | reflexivity |].
    destruct Hopt as [Hpanic _]; [now left | exact Hpanic].
  - destruct (setCommand_options 10 "key" "value" "FOO" (serverOf (NewDatabase 0))
                (NewDatabase 0)) as [_ Hother];
      [cbn; lia | reflexivity |].
    apply (Hother ltac:(discriminate) ltac:(discriminate) ["1"%string]).
Defined.

(** ** Handlers that always reply *)

Lemma index_0 {A} (a : A) (l : list A) : index (a :: l) 0 = Ok a.
Proof. reflexivity. Qed.

Lemma index_1 {A} (a b : A) (l : list A) : index (a :: b :: l) 1 = Ok b.
Proof. reflexivity. Qed.

Lemma index_2 {A} (a b c : A) (l : list A) : index (a :: b :: c :: l) 2 = Ok c.
Proof. reflexivity. Qed.

Lemma checkNumberOfArguments_cons (a : string) (l : list string) (n : Z) :
  checkNumberOfArguments (a :: l) (n + 1) = checkNumberOfArguments l n.
Proof.
  unfold checkNumberOfArguments. cbn [length].
  destruct (Z.leb_spec (n + 1) (Z.of_nat (S (length l))));
    destruct (Z.leb_spec n (Z.of_nat (length l))); first [reflexivity | lia].
Qed.

Lemma checkNumberOfArguments_nil (n : Z) :
  0 < n -> checkNumberOfArguments [] n = false.
Proof. intros Hn. unfold checkNumberOfArguments. cbn. now apply Z.leb_gt. Qed.

Lemma onSelectedM_lookup {A} (f : Database -> outcome (A * Database))
    (redis : RedisServer) (db : Database) :
  0 <= selectedDB redis ->
  databases redis !! Z.to_nat (selectedDB redis) = Some db ->
  onSelectedM f redis
  = ('(a, db') ← f db;
     Ok (a, mkServer (<[Z.to_nat (selectedDB redis) := db']> (databases redis))
              (selectedDB redis) (disk redis))).
Proof.
  intros Hi Hdb. unfold onSelectedM. now rewrite (index_lookup _ _ db Hi Hdb).
Qed.

Lemma even_length (args : list string) :
  negb (Z.of_nat (length args) mod 2 =? 0) = false ->
  Nat.even (length args) = true.
Proof.
  intros H%negb_false_iff%Z.eqb_eq.
  apply Nat.even_spec. exists (Z.to_nat (Z.of_nat (length args) / 2)).
  pose proof (Z.div_mod (Z.of_nat (length args)) 2 ltac:(lia)).
  pose proof (Z.div_pos (Z.of_nat (length args)) 2 ltac:(lia) ltac:(lia)). lia.
Qed.

(** With at least [n] arguments the first [n] can be read. *)
Ltac enough_arguments Hc :=
  repeat match type of Hc with
         | checkNumberOfArguments ?l _ = true =>
             is_var l; destruct l as [| ? l];
             [ rewrite checkNumberOfArguments_nil in Hc by lia; discriminate Hc
             | try (rewrite (checkNumberOfArguments_cons _ _ 0) in Hc);
               try (rewrite (checkNumberOfArguments_cons _ _ 1) in Hc);
               try (rewrite (checkNumberOfArguments_cons _ _ 2) in Hc) ]
         end.

Ltac handler_replies db Hi Hdb :=
  unfold reply;
  repeat first
    [ rewrite index_0 | rewrite index_1 | rewrite index_2
    | rewrite (onSelected_lookup _ _ db Hi Hdb)
    | progress cbn [mbind outcome_bind bind negb]
    | match goal with
      | |- context [match Atoi ?s with _ => _ end] => destruct (Atoi s)
      end ];
  eauto.

Lemma handlers_reply (now later : Time) (Match : string -> string -> bool)
    (saveIO : SaveIO) (redis : RedisServer) :
  wellFormed redis ->
  Forall (fun entry : string * CommandFunc =>
            entry.1 <> "ECHO"%string -> entry.1 <> "SET"%string ->
            forall args, exists r redis', entry.2 args redis = Ok (r, redis'))
         (getCommandMap now later Match saveIO).
Proof.
  intros Hwf. destruct (wellFormed_lookup redis Hwf) as [db Hdb].
  assert (Hi : 0 <= selectedDB redis) by (destruct Hwf; lia).
  unfold getCommandMap.
  repeat first [apply Forall_nil_2 | apply Forall_cons_2];
    cbn [fst snd]; intros Hecho Hset args; try congruence.
  - unfold pingCommand, reply. repeat case_match; eauto.
  - unfold setexCommand.
    destruct (checkNumberOfArguments args 3) eqn:Hc; cbn [negb];
      [enough_arguments Hc | unfold reply; eauto].
    handler_replies db Hi Hdb.
  - unfold getCommand.
    destruct (checkNumberOfArguments args 1) eqn:Hc; cbn [negb];
      [enough_arguments Hc | unfold reply; eauto].
    handler_replies db Hi Hdb.
  - unfold getsetCommand.
    destruct (checkNumberOfArguments args 2) eqn:Hc; cbn [negb];
      [enough_arguments Hc | unfold reply; eauto].
    handler_replies db Hi Hdb.
  - unfold getdelCommand.
    destruct (checkNumberOfArguments args 1) eqn:Hc; cbn [negb];
      [enough_arguments Hc | unfold reply; eauto].
    handler_replies db Hi Hdb.
  - unfold msetCommand.
    destruct (checkNumberOfArguments args 2) eqn:Hc; cbn [negb];
      [| unfold reply; eauto].
    destruct (negb (Z.of_nat (length args) mod 2 =? 0)) eqn:Heven;
      [unfold reply; eauto |].
    destruct (MSet_spec args db (even_length _ Heven)) as (db' & Hmset & _).
    rewrite (onSelectedM_lookup _ _ db Hi Hdb), Hmset.
    handler_replies db Hi Hdb.
  - unfold msetnxCommand.
    destruct (checkNumberOfArguments args 2) eqn:Hc; cbn [negb];
      [| unfold reply; eauto].
    destruct (negb (Z.of_nat (length args) mod 2 =? 0)) eqn:Heven;
      [unfold reply; eauto |].
    rewrite (onSelectedM_lookup _ _ db Hi Hdb). unfold MSetNX.
    destruct (MSetNX_check now args db) as [[] db1].
    + handler_replies db Hi Hdb.
    + destruct (MSet_spec args db1 (even_length _ Heven)) as (db' & Hmset & _).
      rewrite Hmset. handler_replies db Hi Hdb.
  - unfold mgetCommand.
    destruct (checkNumberOfArguments args 1) eqn:Hc; cbn [negb];
      [| unfold reply; eauto].
    handler_replies db Hi Hdb.
  - unfold delCommand.
    destruct (checkNumberOfArguments args 1) eqn:Hc; cbn [negb];
      [| unfold reply; eauto].
    handler_replies db Hi Hdb.
  - unfold incrCommand.
    destruct (checkNumberOfArguments args 1) eqn:Hc; cbn [negb];
      [enough_arguments Hc | unfold reply; eauto].
    handler_replies db Hi Hdb.
  - unfold incrbyCommand.
    destruct (checkNumberOfArguments args 2) eqn:Hc; cbn [negb];
      [enough_arguments Hc | unfold reply; eauto].
    handler_replies db Hi Hdb.
  - unfold decrCommand.
    destruct (checkNumberOfArguments args 1) eqn:Hc; cbn [negb];
      [enough_arguments Hc | unfold reply; eauto].
    handler_replies db Hi Hdb.
  - unfold decrbyCommand.
    destruct (checkNumberOfArguments args 2) eqn:Hc; cbn [negb];
      [enough_arguments Hc | unfold reply; eauto].
    handler_replies db Hi Hdb.
  - unfold expireCommand.
    destruct (checkNumberOfArguments args 2) eqn:Hc; cbn [negb];
      [enough_arguments Hc | unfold reply; eauto].
    handler_replies db Hi Hdb.
  - unfold ttlCommand.
    destruct (checkNumberOfArguments args 1) eqn:Hc; cbn [negb];
      [enough_arguments Hc | unfold reply; eauto].
    handler_replies db Hi Hdb.
  - unfold persistCommand.
    destruct (checkNumberOfArguments args 1) eqn:Hc; cbn [negb];
      [enough_arguments Hc | unfold reply; eauto].
    handler_replies db Hi Hdb.
  - unfold existsCommand.
    destruct (checkNumberOfArguments args 1) eqn:Hc; cbn [negb];
      [| unfold reply; eauto].
    handler_replies db Hi Hdb.
  - unfold keysCommand.
    destruct (checkNumberOfArguments args 1) eqn:Hc; cbn [negb];
      [enough_arguments Hc | unfold reply; eauto].
    handler_replies db Hi Hdb.
  - unfold saveCommand. rewrite (index_lookup _ _ db Hi Hdb).
    cbn [mbind outcome_bind bind]. destruct (Save saveIO (disk redis) db).
    unfold reply. eauto.
  - unfold loadCommand.
    destruct (checkNumberOfArguments args 1) eqn:Hc; cbn [negb];
      [enough_arguments Hc | unfold reply; eauto].
    cbn [length]. destruct (0 <? Z.of_nat (S (length args))); handler_replies db Hi Hdb.
  - unfold selectCommand.
    destruct (Z.eqb_spec (Z.of_nat (length args)) 1) as [Hone | Hnot];
      cbn [negb]; [| unfold reply; eauto].
    destruct args as [| a0 [| a1 args]]; cbn [length] in Hone; try lia.
    rewrite index_0. cbn [mbind outcome_bind bind].
    destruct (Atoi a0) as [e | i]; [unfold reply; eauto |].
    destruct ((i <? 0) || (16 <=? i)) eqn:Hrange; [unfold reply; eauto |].
    apply orb_false_iff in Hrange as [Hlo%Z.ltb_ge Hhi%Z.leb_gt].
    unfold SelectDB. rewrite (index_lookup _ _ db Hi Hdb).
    cbn [mbind outcome_bind bind].
    destruct (lookup_lt_is_Some_2 (databases redis) (Z.to_nat i)) as [dbi Hdbi];
      [destruct Hwf; lia |].
    rewrite (onSelected_lookup _ (mkServer (databases redis) i (disk redis)) dbi)
      by (cbn; lia || exact Hdbi).
    handler_replies db Hi Hdb.
  - unfold flushdbCommand. handler_replies db Hi Hdb.
  - unfold flushallCommand, reply. eauto.
Qed.

(** X28: but for ECHO and SET, no registered handler panics on a server of
    sixteen databases: whatever the arguments, their number included, it
    returns a reply. *)
Theorem handlers_always_reply (now later : Time) (Match : string -> string -> bool)
    (saveIO : SaveIO) (name : string) (command : CommandFunc)
    (args : list string) (redis : RedisServer) :
  wellFormed redis ->
  (name, command) ∈ getCommandMap now later Match saveIO ->
  name <> "ECHO"%string -> name <> "SET"%string ->
  exists r redis', command args redis = Ok (r, redis').
Proof.
  intros Hwf Hin Hecho Hset.
  pose proof (handlers_reply now later Match saveIO redis Hwf) as Hall.
  rewrite Forall_forall in Hall.
  now apply (Hall (name, command) Hin).
Qed.

Lemma handlers_always_reply_witness :
  exists r redis',
    msetCommand ["key1"; "value1"; "key2"]%string (Server_Init 0 EmptyString ∅)
    = Ok (r, redis').
Proof.
  apply (handlers_always_reply 10 11 String.eqb SaveSucceeds "MSET" msetCommand);
    [apply Server_Init_wellFormed | set_solver | discriminate | discriminate].
Defined.

(** ** MSet, and what Del leaves behind *)




(** X30: Del leaves the expiry of the key it deletes, and Set does not reset
    it: a value set after the Del of a key that had a deadline is gone as
    soon as that old deadline has passed. *)
Theorem old_expiry_outlives_Del (now later : Time) (key storage value : string)
    (expire : Time) (db : Database) :
  StringKeys db !! key = Some storage -> storage <> EmptyString ->
  ExpireKeys db !! key = Some expire -> now <= expire -> expire < later ->
  (Del now [key] db).1 = 1 /\
  ExpireKeys (Set_ key value (Del now [key] db).2) !! key = Some expire /\
  (Get now key (Set_ key value (Del now [key] db).2)).1 = value /\
  (Get later key (Set_ key value (Del now [key] db).2)).1 = EmptyString.
Proof.
  intros Hs Hne He Hnow Hlater.
  assert (Hlive : expired now key db = false).
  { unfold expired, After. rewrite He. now apply Z.ltb_ge. }
  assert (Hdead : expired later key db = true).
  { unfold expired, After. rewrite He. now apply Z.ltb_lt. }
  assert (Hp : presentb now db key = true).
  { apply presentb_spec. exists storage. now repeat split. }
  unfold Del. rewrite Del_loop_step, Hp. cbn [Del_loop fst snd].
  split; [reflexivity |]. split; [exact He |].
  rewrite !Get_after_Set_core.
  change (expired ?t key (withStringKeys (delete key (StringKeys db)) db))
    with (expired t key db).
  now rewrite Hlive, Hdead.
Qed.

Lemma old_expiry_outlives_Del_witness :
  let db := Setpx 0 "k" 1 "old" (NewDatabase 0) in
  (Get 2000000 "k" (Set_ "k" "new" (Del 10 ["k"%string] db).2)).1 = EmptyString.
Proof.
  intros db.
  destruct (old_expiry_outlives_Del 10 2000000 "k" "old" "new" 1000000 db)
    as (_ & _ & _ & Hgone);
    first [reflexivity | discriminate | lia | exact Hgone].
Defined.

(** ** The properties above on the requests and keys of the tests *)

Lemma empty_request_panics_witness :
  DecodeRESP 1 ("*" +:+ Itoa 0 +:+ CRLF) = Ok (requestValue [], EmptyString) /\
  handleValue 10 11 String.eqb SaveSucceeds (requestValue [])
    (serverOf (NewDatabase 0)) = Panic IndexOutOfRange /\
  handleValue 10 11 String.eqb SaveSucceeds (mkValue SimpleString "PING" [])
    (serverOf (NewDatabase 0)) = Panic IndexOutOfRange.
Proof.
  destruct (empty_request_panics 10 11 String.eqb SaveSucceeds
              (serverOf (NewDatabase 0))) as (Hdec & Hempty & Hother).
  split; [| split].
  - rewrite <- (append_nil_r CRLF). apply Hdec. lia.
  - now apply Hempty.
  - apply Hother. discriminate.
Defined.

Lemma Get_purges_and_is_stable_witness :
  let db := Setpx 0 "k" 1 "v" (Set_ "other" "w" (NewDatabase 0)) in
  (Get 2000000 "k" db).1 = EmptyString /\
  StringKeys (Get 2000000 "k" db).2 !! "k"%string = None /\
  StringKeys (Get 2000000 "k" db).2 !! "other"%string = Some "w"%string.
Proof.
  intros db.
  destruct (Get_purges_and_is_stable 2000000 "k" db) as (Hpurge & Hother & _).
  destruct (Hpurge "v"%string) as (Hget & Hs & _); [reflexivity | reflexivity |].
  split; [exact Hget |]. split; [exact Hs |].
  destruct (Hother "other"%string) as [Ho _]; [discriminate |]. now rewrite Ho.
Defined.

Lemma Get_after_Set_witness :
  let db := Setpx 0 "k" 1 "old" (NewDatabase 0) in
  (Get 2000000 "k" (Set_ "k" "new" db)).1 = EmptyString /\
  StringKeys (Get 2000000 "k" (Set_ "k" "new" db)).2 !! "k"%string = None.
Proof.
  intros db.
  destruct (Get_after_Set 2000000 "k" "new" db) as [Hget Hgone].
  split; [now rewrite Hget | now apply Hgone].
Defined.

Lemma sweep_removes_expired_keys_witness :
  let db := Setpx 0 "gone" 1 "v" (Setpx 0 "kept" 5000 "w" (NewDatabase 0)) in
  StringKeys (checkAndRemoveExpiredKeys 2000000 db) !! "gone"%string = None /\
  StringKeys (checkAndRemoveExpiredKeys 2000000 db) !! "kept"%string
  = Some "w"%string.
Proof.
  intros db.
  destruct (sweep_removes_expired_keys 2000000 db) as (Hgone & Hkept & _).
  split.
  - now apply Hgone.
  - destruct (Hkept "kept"%string) as [Hs _]; [reflexivity |]. now rewrite Hs.
Defined.

Lemma Keys_lists_the_value_map_witness :
  let db := Setpx 0 "k" 1 "v" (NewDatabase 0) in
  (Get 2000000 "k" db).1 = EmptyString /\ "k"%string ∈ Keys String.eqb "k" db.
Proof.
  intros db.
  destruct (Keys_lists_the_value_map String.eqb "k" db) as (_ & _ & Hlisted).
  apply (Hlisted 2000000 "k"%string "v"%string); reflexivity.
Defined.

Lemma handlers_keep_the_server_wellFormed_witness :
  exists r redis',
    selectCommand 10 ["15"%string] (Server_Init 0 EmptyString ∅) = Ok (r, redis') /\
    wellFormed redis'.
Proof.
  destruct (selectCommand 10 ["15"%string] (Server_Init 0 EmptyString ∅))
    as [[r redis'] | | |] eqn:Hres; try (vm_compute in Hres; discriminate Hres).
  exists r, redis'. split; [reflexivity |].
  destruct (handlers_keep_the_server_wellFormed 10 11 String.eqb SaveSucceeds
              EmptyString ∅) as [Hinit Hkeep].
  apply (Hkeep "SELECT"%string (selectCommand 10) ["15"%string]
           (Server_Init 0 EmptyString ∅) redis' r);
    [| exact Hinit | exact Hres].
  unfold getCommandMap.
  repeat first [apply list_elem_of_here | apply list_elem_of_further].
Defined.
